(** * Association engine of the signals/issues pipeline

    A shallow embedding of [generate_associations_local.py],
    [generate_associations_chroma.py] and the read queries of [db.py].

    SQLite tables are lists of rows in storage order.  Python and NumPy
    floats are IEEE 754 binary64 numbers: the kernel's primitive [float].
    The scoring expressions are written once over an arithmetic interface,
    so that the very same expression can also be read over the reals. *)

From Stdlib Require Import List ZArith String Bool Floats Reals Lra Lia.
From Stdlib Require Import Sorted Permutation.
Import ListNotations.

(* ================================================================== *)
(** * Arithmetic of the scoring expressions *)

Module Numeric.

(** The operations the two scripts apply to vector components. *)
Class Arith (F : Type) : Type :=
  { f0 : F;
    f1 : F;
    fadd : F -> F -> F;
    fmul : F -> F -> F;
    fdiv : F -> F -> F;
    fsqrt : F -> F }.

Section Expressions.
Context {F : Type} `{Arith F}.

(** The sum of products [np.dot] forms for two one-dimensional arrays,
    accumulated from the left (NumPy leaves the order of the additions to
    its BLAS kernel). *)
Definition dot_sum (a b : list F) : F :=
  fold_left (fun acc xy => fadd acc (fmul (fst xy) (snd xy)))
            (combine a b) f0.

(** [np.dot(a, b)]: raises [ValueError] (here [None]) when the shapes
    are not aligned. *)
Definition np_dot (a b : list F) : option F :=
  if Nat.eqb (List.length a) (List.length b) then Some (dot_sum a b) else None.

(** [np.linalg.norm(a)] for a real one-dimensional array:
    [sqrt(a.dot(a))]. *)
Definition norm (a : list F) : F := fsqrt (dot_sum a a).

(** [cosine_similarity], generate_associations_local.py lines 26-28:
    [np.dot(a, b) / (np.linalg.norm(a) * np.linalg.norm(b))]. *)
Definition cosine_similarity (a b : list F) : option F :=
  match np_dot a b with
  | Some d => Some (fdiv d (fmul (norm a) (norm b)))
  | None => None
  end.

(** generate_associations_chroma.py line 192:
    [similarity = 1 / (1 + distance)]. *)
Definition distance_to_similarity (distance : F) : F :=
  fdiv f1 (fadd f1 distance).
End Expressions.

(** binary64, what the scripts compute with. *)
#[export] Instance binary64 : Arith float :=
  { f0 := 0%float;
    f1 := 1%float;
    fadd := PrimFloat.add;
    fmul := PrimFloat.mul;
    fdiv := PrimFloat.div;
    fsqrt := PrimFloat.sqrt }.

(** Exact real arithmetic. *)
#[export] Instance exact : Arith R :=
  { f0 := 0%R;
    f1 := 1%R;
    fadd := Rplus;
    fmul := Rmult;
    fdiv := Rdiv;
    fsqrt := sqrt }.


End Numeric.
Import Numeric.

(* ================================================================== *)
(** * The SQLite store *)

Module Store.

(** A row of [signals] (load_data.py, [create_tables]). *)
Record signal : Type :=
  { s_id : Z;
    s_summary : string;
    s_context : string;
    s_sentiment : Z;
    s_severity : Z;
    s_bias : Z;
    s_date : string;
    s_boundary : string;
    s_method : string;
    s_topics : option string;
    s_keywords : option string;
    s_impacts : option string;
    s_emotions : option string }.

(** A row of [issues] (load_data.py, [create_tables]). *)
Record issue : Type :=
  { i_id : string;
    i_identifier : string;
    i_title : string;
    i_description : option string;
    i_state_name : option string;
    i_state_type : option string;
    i_team_name : option string;
    i_team_key : option string;
    i_assignee_name : option string;
    i_assignee_email : option string;
    i_creator_name : option string;
    i_creator_email : option string;
    i_priority : option Z;
    i_estimate : option Z;
    i_labels : option string;
    i_created_at : string;
    i_updated_at : string;
    i_completed_at : option string }.

(** Modelled from the spec: the [CREATE TABLE] statements of
    [signal_embeddings], [issue_embeddings] and [associations] are not
    among the sources.  Section 6 of the specification gives
    [signal_embeddings(signal_id FK unique, vector, model)],
    [issue_embeddings(issue_id FK unique, vector, model)] and
    [associations(id PK, signal_id FK, issue_id FK, score, reason, method)]
    with a uniqueness constraint over [(signal_id, issue_id)]; the column
    names are those of the scripts' statements.  The [embedding] column
    holds the JSON text of a list of floats; a row carries the list
    [json.loads] reads back. *)
Record signal_embedding : Type :=
  { se_signal_id : Z;
    se_embedding : list float;
    se_model : string }.

Record issue_embedding : Type :=
  { ie_issue_id : string;
    ie_embedding : list float;
    ie_model : string }.

Record association : Type :=
  { a_id : Z;
    a_signal_id : Z;
    a_issue_id : string;
    a_score : float;
    a_reason : string;
    a_method : string }.

(** The database file [signals.db]. *)
Record DB : Type :=
  { signals : list signal;
    issues : list issue;
    signal_embeddings : list signal_embedding;
    issue_embeddings : list issue_embedding;
    associations : list association }.

Definition empty : DB :=
  {| signals := []; issues := []; signal_embeddings := [];
     issue_embeddings := []; associations := [] |}.

(** The dictionary both scripts build for a pair that passed the
    threshold, before it is written. *)
Record assoc_dict : Type :=
  { d_signal_id : Z;
    d_issue_id : string;
    d_score : float;
    d_reason : string;
    d_method : string }.

(** [a.signal_id = ? AND a.issue_id = ?] *)
Definition same_pair (signal_id : Z) (issue_id : string) (a : association) : bool :=
  Z.eqb (a_signal_id a) signal_id && String.eqb (a_issue_id a) issue_id.

(** The rowid SQLite gives a new row of a table with an integer primary
    key: one more than the largest in use. *)
Definition next_rowid (tbl : list association) : Z :=
  1 + fold_right (fun a m => Z.max (a_id a) m) 0%Z tbl.

(** [INSERT OR IGNORE INTO associations (signal_id, issue_id, score,
    reason, method) VALUES (?, ?, ?, ?, ?)] under the uniqueness
    constraint on [(signal_id, issue_id)]: a conflicting row is dropped
    without an error. *)
Definition insert_or_ignore (tbl : list association) (d : assoc_dict)
  : list association :=
  if existsb (same_pair (d_signal_id d) (d_issue_id d)) tbl then tbl
  else tbl ++ [ {| a_id := next_rowid tbl;
                   a_signal_id := d_signal_id d;
                   a_issue_id := d_issue_id d;
                   a_score := d_score d;
                   a_reason := d_reason d;
                   a_method := d_method d |} ].

(** [INSERT OR REPLACE INTO signal_embeddings (signal_id, embedding,
    model) VALUES (?, ?, ?)] under the uniqueness constraint on
    [signal_id]: conflicting rows are deleted, then the row is added. *)
Definition replace_signal_embedding
  (tbl : list signal_embedding) (r : signal_embedding) : list signal_embedding :=
  filter (fun e => negb (Z.eqb (se_signal_id e) (se_signal_id r))) tbl ++ [r].

(** The same statement on [issue_embeddings], keyed by [issue_id]. *)
Definition replace_issue_embedding
  (tbl : list issue_embedding) (r : issue_embedding) : list issue_embedding :=
  filter (fun e => negb (String.eqb (ie_issue_id e) (ie_issue_id r))) tbl ++ [r].

Definition set_signal_embeddings (db : DB) (t : list signal_embedding) : DB :=
  {| signals := signals db; issues := issues db; signal_embeddings := t;
     issue_embeddings := issue_embeddings db; associations := associations db |}.

Definition set_issue_embeddings (db : DB) (t : list issue_embedding) : DB :=
  {| signals := signals db; issues := issues db;
     signal_embeddings := signal_embeddings db;
     issue_embeddings := t; associations := associations db |}.

Definition set_associations (db : DB) (t : list association) : DB :=
  {| signals := signals db; issues := issues db;
     signal_embeddings := signal_embeddings db;
     issue_embeddings := issue_embeddings db; associations := t |}.

End Store.
Import Store.

(* ================================================================== *)
(** * db.py: the read queries *)

Module Db.

(** A row of [get_signals_for_issue]: [s.*, a.score, a.reason, a.method]. *)
Record signal_hit : Type :=
  { sh_signal : signal;
    sh_score : float;
    sh_reason : string;
    sh_method : string }.

(** A row of [get_issues_for_signal]: [i.*, a.score, a.reason, a.method]. *)
Record issue_hit : Type :=
  { ih_issue : issue;
    ih_score : float;
    ih_reason : string;
    ih_method : string }.

(** [ORDER BY a.score DESC]: rows are placed so that a row comes before
    every row whose score is not larger. *)
Section OrderBy.
Context {A : Type} (score : A -> float).

Fixpoint insert_desc (x : A) (l : list A) : list A :=
  match l with
  | [] => [x]
  | y :: l' =>
      if (score y <=? score x)%float then x :: l
      else y :: insert_desc x l'
  end.

Definition order_by_score_desc (l : list A) : list A :=
  fold_right insert_desc [] l.
End OrderBy.

(** [get_issue_by_id], db.py lines 44-54. *)
Definition get_issue_by_id (db : DB) (issue_id : string) : option issue :=
  find (fun i => String.eqb (i_identifier i) issue_id) (issues db).

(** [get_signal_by_id], db.py lines 101-111. *)
Definition get_signal_by_id (db : DB) (signal_id : Z) : option signal :=
  find (fun s => Z.eqb (s_id s) signal_id) (signals db).

(** [get_association], db.py lines 136-146. *)
Definition get_association (db : DB) (signal_id : Z) (issue_id : string)
  : option association :=
  find (same_pair signal_id issue_id) (associations db).

(** [get_signals_for_issue], db.py lines 57-74:
    [FROM associations a JOIN signals s ON a.signal_id = s.id
     WHERE a.issue_id = ? AND a.score >= ? ORDER BY a.score DESC]. *)
Definition get_signals_for_issue (db : DB) (issue_id : string) (min_score : float)
  : list signal_hit :=
  order_by_score_desc sh_score
    (flat_map
       (fun a =>
          if String.eqb (a_issue_id a) issue_id && (min_score <=? a_score a)%float
          then map (fun s => {| sh_signal := s; sh_score := a_score a;
                                sh_reason := a_reason a; sh_method := a_method a |})
                   (filter (fun s => Z.eqb (a_signal_id a) (s_id s)) (signals db))
          else [])
       (associations db)).

(** [get_issues_for_signal], db.py lines 114-131:
    [FROM associations a JOIN issues i ON a.issue_id = i.identifier
     WHERE a.signal_id = ? AND a.score >= ? ORDER BY a.score DESC]. *)
Definition get_issues_for_signal (db : DB) (signal_id : Z) (min_score : float)
  : list issue_hit :=
  order_by_score_desc ih_score
    (flat_map
       (fun a =>
          if Z.eqb (a_signal_id a) signal_id && (min_score <=? a_score a)%float
          then map (fun i => {| ih_issue := i; ih_score := a_score a;
                                ih_reason := a_reason a; ih_method := a_method a |})
                   (filter (fun i => String.eqb (a_issue_id a) (i_identifier i))
                           (issues db))
          else [])
       (associations db)).

(** [get_associations_count], db.py lines 149-154. *)
Definition get_associations_count (db : DB) : nat :=
  List.length (associations db).

(** The dictionary [get_embeddings_status] returns. *)
Record embeddings_status : Type :=
  { signal_total : nat;
    signal_embedded : nat;
    issue_total : nat;
    issue_embedded : nat;
    associations_count : nat }.

(** [get_embeddings_status], db.py lines 157-177: five [COUNT( * )]s. *)
Definition get_embeddings_status (db : DB) : embeddings_status :=
  {| signal_total := List.length (signals db);
     signal_embedded := List.length (signal_embeddings db);
     issue_total := List.length (issues db);
     issue_embedded := List.length (issue_embeddings db);
     associations_count := List.length (associations db) |}.

(** The dictionary [delete_all_data] returns. *)
Record deleted_counts : Type :=
  { del_signals : nat;
    del_issues : nat;
    del_associations : nat;
    del_signal_embeddings : nat;
    del_issue_embeddings : nat }.

(** [delete_all_data], db.py lines 182-218: the row counts read before
    the five [DELETE FROM] statements, and the emptied database. *)
Definition delete_all_data (db : DB) : deleted_counts * DB :=
  ({| del_signals := List.length (signals db);
      del_issues := List.length (issues db);
      del_associations := List.length (associations db);
      del_signal_embeddings := List.length (signal_embeddings db);
      del_issue_embeddings := List.length (issue_embeddings db) |},
   Store.empty).

(** [ORDER BY] in general: rows are placed so that a row comes before
    every row that [before] does not put ahead of it.  SQLite leaves the
    order among rows that are equal in every key open; the list has one. *)
Section OrderByKeys.
Context {A : Type} (before : A -> A -> bool).

Fixpoint insert_by (x : A) (l : list A) : list A :=
  match l with
  | [] => [x]
  | y :: l' => if before x y then x :: l else y :: insert_by x l'
  end.

Definition order_by (l : list A) : list A := fold_right insert_by [] l.
End OrderByKeys.

(** [GROUP BY] on a key: the first row of every group, in the order of
    first appearance ([seen] holds the rows whose group is open). *)
Fixpoint first_of_each_group {A : Type} (same_group : A -> A -> bool)
         (seen : list A) (l : list A) : list A :=
  match l with
  | [] => []
  | x :: l' =>
      if existsb (same_group x) seen then first_of_each_group same_group seen l'
      else x :: first_of_each_group same_group (x :: seen) l'
  end.

(** A row of [get_all_issues_with_counts]. *)
Record issue_count_row : Type :=
  { ic_identifier : string;
    ic_title : string;
    ic_description : option string;
    ic_state_name : option string;
    ic_team_name : option string;
    ic_assignee_name : option string;
    ic_created_at : string;
    ic_priority : option Z;
    ic_signal_count : nat }.

(** A row of [get_all_signals_with_counts]. *)
Record signal_count_row : Type :=
  { sc_id : Z;
    sc_summary : string;
    sc_context : string;
    sc_sentiment : Z;
    sc_severity : Z;
    sc_date : string;
    sc_issue_count : nat }.

(** [ORDER BY <count> DESC, <text> DESC]: the larger count first, and
    among equal counts the larger text (compared byte by byte). *)
Definition count_then_text_desc (c1 : nat) (t1 : string) (c2 : nat) (t2 : string)
  : bool :=
  Nat.ltb c2 c1 || (Nat.eqb c2 c1 && String.leb t2 t1).

(** [get_all_issues_with_counts], db.py lines 20-41:
    [FROM issues i LEFT JOIN associations a ON a.issue_id = i.identifier
     GROUP BY i.identifier ORDER BY signal_count DESC, i.created_at DESC].
    [COUNT(a.signal_id)] counts the joined rows of the group, one per
    matching association of each issue row in it; the other columns are
    read from a row of the group, here its first. *)
Definition get_all_issues_with_counts (db : DB) : list issue_count_row :=
  order_by
    (fun x y => count_then_text_desc (ic_signal_count x) (ic_created_at x)
                                     (ic_signal_count y) (ic_created_at y))
    (map
       (fun i =>
          {| ic_identifier := i_identifier i;
             ic_title := i_title i;
             ic_description := i_description i;
             ic_state_name := i_state_name i;
             ic_team_name := i_team_name i;
             ic_assignee_name := i_assignee_name i;
             ic_created_at := i_created_at i;
             ic_priority := i_priority i;
             ic_signal_count :=
               List.length
                 (flat_map
                    (fun i' => filter (fun a => String.eqb (a_issue_id a) (i_identifier i'))
                                      (associations db))
                    (filter (fun i' => String.eqb (i_identifier i') (i_identifier i))
                            (issues db))) |})
       (first_of_each_group
          (fun x y => String.eqb (i_identifier x) (i_identifier y)) [] (issues db))).

(** [get_all_signals_with_counts], db.py lines 79-98:
    [FROM signals s LEFT JOIN associations a ON a.signal_id = s.id
     GROUP BY s.id ORDER BY issue_count DESC, s.date DESC]. *)
Definition get_all_signals_with_counts (db : DB) : list signal_count_row :=
  order_by
    (fun x y => count_then_text_desc (sc_issue_count x) (sc_date x)
                                     (sc_issue_count y) (sc_date y))
    (map
       (fun s =>
          {| sc_id := s_id s;
             sc_summary := s_summary s;
             sc_context := s_context s;
             sc_sentiment := s_sentiment s;
             sc_severity := s_severity s;
             sc_date := s_date s;
             sc_issue_count :=
               List.length
                 (flat_map
                    (fun s' => filter (fun a => Z.eqb (a_signal_id a) (s_id s'))
                                      (associations db))
                    (filter (fun s' => Z.eqb (s_id s') (s_id s)) (signals db))) |})
       (first_of_each_group (fun x y => Z.eqb (s_id x) (s_id y)) [] (signals db))).

End Db.

(* ================================================================== *)
(** * Constants shared by the two scripts *)

Definition SIMILARITY_THRESHOLD : float := 0.5%float.
Definition MODEL_NAME : string := "all-MiniLM-L6-v2"%string.
Definition TOP_K : nat := 50.

(** The line break of the f-strings that build an entity's text. *)
Definition newline : string := String (Ascii.ascii_of_nat 10) EmptyString.

(** [f"{s[1]}\n{s[2]}"] for a signal row [(id, summary, context)]. *)
Definition signal_text (s : signal) : string :=
  (s_summary s ++ newline ++ s_context s)%string.

(** [f"{iss[1]}\n{iss[2] or ''}"] for an issue row
    [(identifier, title, description)]. *)
Definition issue_text (i : issue) : string :=
  (i_title i ++ newline ++
   match i_description i with Some d => d | None => EmptyString end)%string.

(** The write loop both scripts end with: one [INSERT OR IGNORE] per
    collected dictionary, each inside its own [try]. *)
Definition save_associations (db : DB) (found : list assoc_dict) : DB :=
  set_associations db (fold_left insert_or_ignore found (associations db)).

(* ================================================================== *)
(** * generate_associations_local.py *)

Module Local.
Section WithRuntime.
(** [model.encode(texts, ...)] of the sentence-transformers model. *)
Variable encode : list string -> list (list float).
(** [f"{score:.2f}"]. *)
Variable format_2f : float -> string.

(** The query of [generate_signal_embeddings]: signals with no row in
    [signal_embeddings] ([LEFT JOIN ... WHERE se.signal_id IS NULL]). *)
Definition signals_without_embeddings (db : DB) : list signal :=
  filter (fun s => negb (existsb (fun e => Z.eqb (s_id s) (se_signal_id e))
                                 (signal_embeddings db)))
         (signals db).

(** [generate_signal_embeddings], lines 31-66. *)
Definition generate_signal_embeddings (db : DB) : DB :=
  match signals_without_embeddings db with
  | [] => db
  | todo =>
      let texts := map signal_text todo in
      let embeddings := encode texts in
      set_signal_embeddings db
        (fold_left
           (fun tbl se =>
              replace_signal_embedding tbl
                {| se_signal_id := s_id (fst se);
                   se_embedding := snd se;
                   se_model := MODEL_NAME |})
           (combine todo embeddings)
           (signal_embeddings db))
  end.

(** The query of [generate_issue_embeddings]: issues with no row in
    [issue_embeddings], joined on [i.identifier = ie.issue_id]. *)
Definition issues_without_embeddings (db : DB) : list issue :=
  filter (fun i => negb (existsb (fun e => String.eqb (i_identifier i) (ie_issue_id e))
                                 (issue_embeddings db)))
         (issues db).

(** [generate_issue_embeddings], lines 69-104. *)
Definition generate_issue_embeddings (db : DB) : DB :=
  match issues_without_embeddings db with
  | [] => db
  | todo =>
      let texts := map issue_text todo in
      let embeddings := encode texts in
      set_issue_embeddings db
        (fold_left
           (fun tbl ie =>
              replace_issue_embedding tbl
                {| ie_issue_id := i_identifier (fst ie);
                   ie_embedding := snd ie;
                   ie_model := MODEL_NAME |})
           (combine todo embeddings)
           (issue_embeddings db))
  end.

(** A row of [pairs_to_process]. *)
Record pair_row : Type :=
  { p_signal_id : Z;
    p_signal_embedding : list float;
    p_issue_id : string;
    p_issue_embedding : list float }.

(** The query of [compute_associations], lines 113-120:
    [signal_embeddings CROSS JOIN issue_embeddings LEFT JOIN associations
     ... WHERE a.id IS NULL]. *)
Definition pairs_to_process (db : DB) : list pair_row :=
  flat_map
    (fun se =>
       flat_map
         (fun ie =>
            if existsb (same_pair (se_signal_id se) (ie_issue_id ie))
                       (associations db)
            then []
            else [ {| p_signal_id := se_signal_id se;
                      p_signal_embedding := se_embedding se;
                      p_issue_id := ie_issue_id ie;
                      p_issue_embedding := ie_embedding ie |} ])
         (issue_embeddings db))
    (signal_embeddings db).

(** The dictionary of lines 139-145. *)
Definition make_association (signal_id : Z) (issue_id : string) (score : float)
  : assoc_dict :=
  {| d_signal_id := signal_id;
     d_issue_id := issue_id;
     d_score := score;
     d_reason := ("Semantic similarity: " ++ format_2f score)%string;
     d_method := ("local-" ++ MODEL_NAME)%string |}.

(** The scoring loop, lines 132-147; [None] when [cosine_similarity]
    raises. *)
Fixpoint score_pairs (pairs : list pair_row) (associations : list assoc_dict)
  : option (list assoc_dict) :=
  match pairs with
  | [] => Some associations
  | p :: rest =>
      match cosine_similarity (p_signal_embedding p) (p_issue_embedding p) with
      | None => None
      | Some score =>
          if (SIMILARITY_THRESHOLD <=? score)%float
          then score_pairs rest
                 (associations ++ [make_association (p_signal_id p) (p_issue_id p) score])
          else score_pairs rest associations
      end
  end.

(** The pairs for which line 136 returns a score when the loop runs
    over a work list; the loop ends at the first pair on which
    [cosine_similarity] raises. *)
Fixpoint scored (pairs : list pair_row) : list (Z * string) :=
  match pairs with
  | [] => []
  | p :: rest =>
      match cosine_similarity (p_signal_embedding p) (p_issue_embedding p) with
      | None => []
      | Some _ => (p_signal_id p, p_issue_id p) :: scored rest
      end
  end.

(** The pairs a run that starts in [db] computes a score for. *)
Definition scored_pairs (db : DB) : list (Z * string) :=
  scored (pairs_to_process db).

(** [compute_associations], lines 107-176; [None] when the scoring loop
    raised, which is before the first write. *)
Definition compute_associations (db : DB) : option DB :=
  match pairs_to_process db with
  | [] => Some db
  | todo =>
      match score_pairs todo [] with
      | Some found => Some (save_associations db found)
      | None => None
      end
  end.

(** What [main] leaves in the store after [compute_associations]: its
    [except] clause reports the exception, nothing having been written. *)
Definition run_associations (db : DB) : DB :=
  match compute_associations db with
  | Some db' => db'
  | None => db
  end.

(** [main], lines 219-256, on the store. *)
Definition main (db : DB) : DB :=
  run_associations (generate_issue_embeddings (generate_signal_embeddings db)).

End WithRuntime.

(** A row of the query of [print_sample_associations]:
    [a.score, s.summary, i.identifier, i.title]. *)
Record sample_row : Type :=
  { sr_score : float;
    sr_summary : string;
    sr_identifier : string;
    sr_title : string }.

(** [print_sample_associations], lines 196-216: the rows it prints, as
    the query returns them (the printed text shows the score with three
    decimals and the first 80 and 60 characters of summary and title):
    [FROM associations a JOIN signals s ON a.signal_id = s.id
     JOIN issues i ON a.issue_id = i.identifier
     ORDER BY a.score DESC LIMIT ?].  A negative [LIMIT] is no limit. *)
Definition print_sample_associations (db : DB) (limit : Z) : list sample_row :=
  let rows :=
    Db.order_by_score_desc sr_score
      (flat_map
         (fun a =>
            flat_map
              (fun s =>
                 map (fun i => {| sr_score := a_score a; sr_summary := s_summary s;
                                  sr_identifier := i_identifier i;
                                  sr_title := i_title i |})
                     (filter (fun i => String.eqb (a_issue_id a) (i_identifier i))
                             (issues db)))
              (filter (fun s => Z.eqb (a_signal_id a) (s_id s)) (signals db)))
         (associations db)) in
  if (limit <? 0)%Z then rows else firstn (Z.to_nat limit) rows.

End Local.

(* ================================================================== *)
(** * generate_associations_chroma.py *)

Module Chroma.

(** A ChromaDB collection, as far as the script uses it:
    [collection.query(query_embeddings=[v], n_results=k)], read as the
    list [zip(results['ids'][0], results['distances'][0])]. *)
Definition collection : Type := list float -> nat -> list (string * float).

(** Line 192 with Python's division, which raises [ZeroDivisionError]
    (here [None]) on a zero divisor: [1 / (1 + distance)]. *)
Definition similarity_of (distance : float) : option float :=
  if (1 + distance =? 0)%float then None
  else Some (distance_to_similarity distance).

Section WithRuntime.
Variable encode : list string -> list (list float).
Variable format_2f : float -> string.
(** [create_collection] followed by [add(ids, embeddings)]. *)
Variable build_index : list (string * list float) -> collection.

(** [load_or_create_embeddings], lines 38-81: both counts are read
    first; a table is filled only when it is empty. *)
Definition load_or_create_embeddings (db : DB) : DB :=
  let signal_count := List.length (signal_embeddings db) in
  let issue_count := List.length (issue_embeddings db) in
  let db1 :=
    if Nat.eqb signal_count 0 then
      let rows := signals db in
      let embeddings := encode (map signal_text rows) in
      set_signal_embeddings db
        (fold_left
           (fun tbl se =>
              replace_signal_embedding tbl
                {| se_signal_id := s_id (fst se);
                   se_embedding := snd se;
                   se_model := MODEL_NAME |})
           (combine rows embeddings)
           (signal_embeddings db))
    else db in
  if Nat.eqb issue_count 0 then
    let rows := issues db1 in
    let embeddings := encode (map issue_text rows) in
    set_issue_embeddings db1
      (fold_left
         (fun tbl ie =>
            replace_issue_embedding tbl
              {| ie_issue_id := i_identifier (fst ie);
                 ie_embedding := snd ie;
                 ie_model := MODEL_NAME |})
         (combine rows embeddings)
         (issue_embeddings db1))
  else db1.

(** The issues collection [index_embeddings_in_chroma] builds, lines
    119-134: [issues JOIN issue_embeddings ON i.identifier = ie.issue_id]. *)
Definition index_issues (db : DB) : collection :=
  build_index
    (flat_map
       (fun i =>
          map (fun e => (i_identifier i, ie_embedding e))
              (filter (fun e => String.eqb (i_identifier i) (ie_issue_id e))
                      (issue_embeddings db)))
       (issues db)).

(** The dictionary of lines 195-201. *)
Definition make_association (signal_id : Z) (issue_id : string) (similarity : float)
  : assoc_dict :=
  {| d_signal_id := signal_id;
     d_issue_id := issue_id;
     d_score := similarity;
     d_reason := ("Semantic similarity: " ++ format_2f similarity)%string;
     d_method := ("chroma-" ++ MODEL_NAME)%string |}.

(** The inner loop, lines 177-201, for one signal; [None] when the
    division raises. *)
Fixpoint process_results (db : DB) (signal_id : Z)
         (results : list (string * float)) (associations : list assoc_dict)
  : option (list assoc_dict) :=
  match results with
  | [] => Some associations
  | (issue_id, distance) :: rest =>
      if existsb (same_pair signal_id issue_id) (Store.associations db)
      then process_results db signal_id rest associations
      else
        match similarity_of distance with
        | None => None
        | Some similarity =>
            if (SIMILARITY_THRESHOLD <=? similarity)%float
            then process_results db signal_id rest
                   (associations ++ [make_association signal_id issue_id similarity])
            else process_results db signal_id rest associations
        end
  end.

(** [SELECT embedding FROM signal_embeddings WHERE signal_id = ?],
    [fetchone()]. *)
Definition signal_embedding_of (db : DB) (signal_id : Z) : option (list float) :=
  option_map se_embedding
    (find (fun e => Z.eqb (se_signal_id e) signal_id) (signal_embeddings db)).

(** The outer loop, lines 158-205, over the rows of [signals]. *)
Fixpoint process_signals (db : DB) (issues_collection : collection)
         (sigs : list signal) (associations : list assoc_dict)
  : option (list assoc_dict) :=
  match sigs with
  | [] => Some associations
  | s :: rest =>
      match signal_embedding_of db (s_id s) with
      | None => process_signals db issues_collection rest associations
      | Some signal_emb =>
          match process_results db (s_id s) (issues_collection signal_emb TOP_K)
                                associations with
          | None => None
          | Some associations' =>
              process_signals db issues_collection rest associations'
          end
      end
  end.

(** The candidates of one signal for which line 192 returns a
    similarity, and whether the inner loop came to its end ([false] when the
    division raised). *)
Fixpoint scored_results (db : DB) (signal_id : Z) (results : list (string * float))
  : list (Z * string) * bool :=
  match results with
  | [] => ([], true)
  | (issue_id, distance) :: rest =>
      if existsb (same_pair signal_id issue_id) (Store.associations db)
      then scored_results db signal_id rest
      else
        match similarity_of distance with
        | None => ([], false)
        | Some _ =>
            let (l, completed) := scored_results db signal_id rest in
            ((signal_id, issue_id) :: l, completed)
        end
  end.

(** The same over the rows of [signals]; the run ends where the inner
    loop raised. *)
Fixpoint scored_signals (db : DB) (issues_collection : collection)
         (sigs : list signal) : list (Z * string) :=
  match sigs with
  | [] => []
  | s :: rest =>
      match signal_embedding_of db (s_id s) with
      | None => scored_signals db issues_collection rest
      | Some signal_emb =>
          let (l, completed) :=
            scored_results db (s_id s) (issues_collection signal_emb TOP_K) in
          if completed then l ++ scored_signals db issues_collection rest else l
      end
  end.

(** The pairs a run that starts in [db] computes a similarity for. *)
Definition scored_pairs (db : DB) (issues_collection : collection)
  : list (Z * string) :=
  scored_signals db issues_collection (signals db).

(** [generate_associations_with_chroma], lines 141-229; [None] when the
    loop raised, which is before the first write. *)
Definition generate_associations_with_chroma
           (db : DB) (issues_collection : collection) : option DB :=
  match process_signals db issues_collection (signals db) [] with
  | Some found => Some (save_associations db found)
  | None => None
  end.

(** What [main] leaves in the store after
    [generate_associations_with_chroma]: its [except] clause reports the
    exception, nothing having been written. *)
Definition run_associations (db : DB) (issues_collection : collection) : DB :=
  match generate_associations_with_chroma db issues_collection with
  | Some db' => db'
  | None => db
  end.

(** [main], lines 265-307, on the store. *)
Definition main (db : DB) : DB :=
  let db1 := load_or_create_embeddings db in
  run_associations db1 (index_issues db1).

End WithRuntime.

(** [print_sample_associations], lines 242-262: the same function as in
    the exhaustive script. *)
Definition print_sample_associations (db : DB) (limit : Z)
  : list Local.sample_row :=
  Local.print_sample_associations db limit.

End Chroma.

(* ================================================================== *)
(** * import_signals.py and load_data.py: signals from a JSON array *)

Module ImportSignals.

(** A signal object of the JSON array.  A key is absent ([None]) or
    holds a value of the type its column takes; [topics], [keywords],
    [impacts] and [emotions] hold the [name] of each of their objects. *)
Record json_signal : Type :=
  { j_id : option Z;
    j_summary : option string;
    j_context : option string;
    j_sentiment : option Z;
    j_severity : option Z;
    j_bias : option Z;
    j_date : option string;
    j_boundary : option string;
    j_method : option string;
    j_topics : option (list string);
    j_keywords : option (list string);
    j_impacts : option (list string);
    j_emotions : option (list string) }.

(** What opening and parsing the file gives, lines 16-28. *)
Inductive json_file : Type :=
| FileNotFound
| InvalidJSON
| NotAnArray
| SignalArray (signals : list json_signal).

(** The counters of the import loop and the [signals] table. *)
Record import_state : Type :=
  { st_signals : list signal;
    st_inserted : nat;
    st_updated : nat;
    st_errors : nat }.

(** What [import_signals] returns, the counts it prints on success, and
    the store it leaves. *)
Record import_result : Type :=
  { r_ok : bool;
    r_counts : option (nat * nat * nat);
    r_db : DB }.

(** 1 when the key is absent. *)
Definition absent {A : Type} (field : option A) : nat :=
  match field with Some _ => 0 | None => 1 end.

(** The validation loop, lines 42-48: one error per required field that
    is absent (its [continue] goes on with the next field). *)
Definition missing_required_fields (s : json_signal) : nat :=
  absent (j_id s) + absent (j_summary s) + absent (j_context s) +
  absent (j_sentiment s) + absent (j_severity s) + absent (j_bias s) +
  absent (j_date s) + absent (j_boundary s) + absent (j_method s).

(** [signal.get(key, [])]. *)
Definition names_of (field : option (list string)) : list string :=
  match field with Some names => names | None => [] end.

(** [INSERT OR REPLACE INTO signals ...] on the primary key [id].  No
    connection of the source switches foreign keys on, so the rows of other
    tables that refer to a replaced row are left as they are. *)
Definition replace_signal (tbl : list signal) (r : signal) : list signal :=
  filter (fun s => negb (Z.eqb (s_id s) (s_id r))) tbl ++ [r].

Section WithRuntime.
(** [json.dumps] of a list of names. *)
Variable json_dumps : list string -> string.

(** The thirteen values of the [INSERT], lines 66-80; [None] when
    subscripting an absent key raises [KeyError]. *)
Definition row_of (s : json_signal) : option signal :=
  match j_id s, j_summary s, j_context s, j_sentiment s, j_severity s,
        j_bias s, j_date s, j_boundary s, j_method s with
  | Some id, Some summary, Some context, Some sentiment, Some severity,
    Some bias, Some date, Some boundary, Some method =>
      Some {| s_id := id; s_summary := summary; s_context := context;
              s_sentiment := sentiment; s_severity := severity; s_bias := bias;
              s_date := date; s_boundary := boundary; s_method := method;
              s_topics := Some (json_dumps (names_of (j_topics s)));
              s_keywords := Some (json_dumps (names_of (j_keywords s)));
              s_impacts := Some (json_dumps (names_of (j_impacts s)));
              s_emotions := Some (json_dumps (names_of (j_emotions s))) |}
  | _, _, _, _, _, _, _, _, _ => None
  end.

(** One pass of the loop, lines 39-90. *)
Definition import_one (st : import_state) (s : json_signal) : import_state :=
  let errors := (st_errors st + missing_required_fields s)%nat in
  match j_id s with
  | None =>
      (* [signal['id']] in the SELECT raises; the handler counts it *)
      {| st_signals := st_signals st; st_inserted := st_inserted st;
         st_updated := st_updated st; st_errors := S errors |}
  | Some id =>
      let exists_ := existsb (fun r => Z.eqb (s_id r) id) (st_signals st) in
      match row_of s with
      | None =>
          {| st_signals := st_signals st; st_inserted := st_inserted st;
             st_updated := st_updated st; st_errors := S errors |}
      | Some row =>
          {| st_signals := replace_signal (st_signals st) row;
             st_inserted := if exists_ then st_inserted st else S (st_inserted st);
             st_updated := if exists_ then S (st_updated st) else st_updated st;
             st_errors := errors |}
      end
  end.

(** The loop over the array. *)
Definition import_all (tbl : list signal) (signals : list json_signal) : import_state :=
  fold_left import_one signals
    {| st_signals := tbl; st_inserted := 0; st_updated := 0; st_errors := 0 |}.

(** [import_signals], lines 11-102. *)
Definition import_signals (file : json_file) (db : DB) : import_result :=
  match file with
  | SignalArray signals =>
      let st := import_all (Store.signals db) signals in
      {| r_ok := true;
         r_counts := Some (st_inserted st, st_updated st, st_errors st);
         r_db := {| Store.signals := st_signals st; issues := issues db;
                    signal_embeddings := signal_embeddings db;
                    issue_embeddings := issue_embeddings db;
                    associations := associations db |} |}
  | _ => {| r_ok := false; r_counts := None; r_db := db |}
  end.

(** [load_signals] of load_data.py, lines 67-107: a plain [INSERT] per
    object and one commit at the end; [None] when a subscript raises
    [KeyError] or the primary key raises [IntegrityError], in which case
    [main] closes the connection without a commit and no row is kept. *)
Fixpoint load_rows (tbl : list signal) (signals : list json_signal)
  : option (list signal) :=
  match signals with
  | [] => Some tbl
  | s :: rest =>
      match row_of s with
      | None => None
      | Some row =>
          if existsb (fun r => Z.eqb (s_id r) (s_id row)) tbl then None
          else load_rows (tbl ++ [row]) rest
      end
  end.

Definition load_signals (db : DB) (signals : list json_signal) : option DB :=
  match load_rows (Store.signals db) signals with
  | Some tbl =>
      Some {| Store.signals := tbl; issues := issues db;
              signal_embeddings := signal_embeddings db;
              issue_embeddings := issue_embeddings db;
              associations := associations db |}
  | None => None
  end.

End WithRuntime.
End ImportSignals.

(* ================================================================== *)
(** * fetch_linear_issues.py: issues from the tracker *)

Module FetchLinear.

(** A node of the GraphQL response, with the fields the query asks for;
    [state], [team], [assignee] and [creator] are objects of two strings or
    null, [labels] holds the [name] of each label node. *)
Record linear_issue : Type :=
  { l_id : string;
    l_identifier : string;
    l_title : string;
    l_description : option string;
    l_state : option (string * string);
    l_team : option (string * string);
    l_assignee : option (string * string);
    l_creator : option (string * string);
    l_priority : option Z;
    l_estimate : option Z;
    l_labels : list string;
    l_created_at : string;
    l_updated_at : string;
    l_completed_at : option string }.

(** [INSERT OR REPLACE INTO issues ...] on the primary key [id]; as for
    signals, the rows that refer to a replaced row are left as they are. *)
Definition replace_issue (tbl : list issue) (r : issue) : list issue :=
  filter (fun i => negb (String.eqb (i_id i) (i_id r))) tbl ++ [r].

Section WithRuntime.
(** [json.dumps] of a list of names. *)
Variable json_dumps : list string -> string.

(** The eighteen values of the [INSERT], lines 134-157. *)
Definition row_of (node : linear_issue) : issue :=
  {| i_id := l_id node;
     i_identifier := l_identifier node;
     i_title := l_title node;
     i_description := l_description node;
     i_state_name := option_map fst (l_state node);
     i_state_type := option_map snd (l_state node);
     i_team_name := option_map fst (l_team node);
     i_team_key := option_map snd (l_team node);
     i_assignee_name := option_map fst (l_assignee node);
     i_assignee_email := option_map snd (l_assignee node);
     i_creator_name := option_map fst (l_creator node);
     i_creator_email := option_map snd (l_creator node);
     i_priority := l_priority node;
     i_estimate := l_estimate node;
     i_labels := match l_labels node with
                 | [] => None
                 | labels => Some (json_dumps labels)
                 end;
     i_created_at := l_created_at node;
     i_updated_at := l_updated_at node;
     i_completed_at := l_completed_at node |}.

(** [insert_issues_to_db], lines 115-165: the store it leaves and the
    count it prints. *)
Definition insert_issues_to_db (db : DB) (issues : list linear_issue) : DB * nat :=
  ({| signals := signals db;
      Store.issues := fold_left (fun tbl i => replace_issue tbl (row_of i)) issues
                                (Store.issues db);
      signal_embeddings := signal_embeddings db;
      issue_embeddings := issue_embeddings db;
      associations := associations db |},
   List.length issues).

End WithRuntime.
End FetchLinear.

(* ================================================================== *)
(** * main.py: the pages of issues and signals *)

Module Main.

(** What a route answers: status 404, or the template with the values
    the route puts in its context. *)
Inductive response (A : Type) : Type :=
| NotFound
| Page (context : A).
Arguments NotFound {A}.
Arguments Page {A} context.

(** [issue_detail], lines 176-185. *)
Definition issue_detail (db : DB) (issue_id : string) : response issue :=
  match Db.get_issue_by_id db issue_id with
  | None => NotFound
  | Some issue => Page issue
  end.



(** [signal_detail], lines 235-245. *)
Definition signal_detail (db : DB) (signal_id : Z) : response signal :=
  match Db.get_signal_by_id db signal_id with
  | None => NotFound
  | Some signal => Page signal
  end.

(** [signal_issues_list], lines 249-260: the signal and its issues, with
    the default [min_score] of [get_issues_for_signal]. *)
Definition signal_issues_list (db : DB) (signal_id : Z)
  : response (signal * list Db.issue_hit) :=
  match Db.get_signal_by_id db signal_id with
  | None => NotFound
  | Some signal => Page (signal, Db.get_issues_for_signal db signal_id 0%float)
  end.

(** [signal_issue_detail], lines 264-279. *)
Definition signal_issue_detail (db : DB) (signal_id : Z) (issue_id : string)
  : response (issue * signal * option association) :=
  let signal := Db.get_signal_by_id db signal_id in
  let issue := Db.get_issue_by_id db issue_id in
  let association := Db.get_association db signal_id issue_id in
  match signal, issue with
  | Some signal, Some issue => Page (issue, signal, association)
  | _, _ => NotFound
  end.

End Main.

(* ================================================================== *)
(** * Invocations of the engine *)

(** One step in the life of the store: a run of either script's
    association computation, or a write of the collaborators (import,
    tracker sync, embedding generation), which touch every table but
    [associations]. *)
Inductive invocation : Type :=
| RunLocal
| RunChroma (issues_collection : Chroma.collection)
| CorpusChange (sigs : list signal) (iss : list issue)
               (sembs : list signal_embedding) (iembs : list issue_embedding).

Section Engine.
Variable format_2f : float -> string.

(** The store after one invocation. *)
Definition invoke (db : DB) (i : invocation) : DB :=
  match i with
  | RunLocal => Local.run_associations format_2f db
  | RunChroma issues_collection =>
      Chroma.run_associations format_2f db issues_collection
  | CorpusChange sigs iss sembs iembs =>
      {| signals := sigs; issues := iss; signal_embeddings := sembs;
         issue_embeddings := iembs; associations := associations db |}
  end.

(** The store after a sequence of invocations. *)
Definition invoke_all (db : DB) (runs : list invocation) : DB :=
  fold_left invoke runs db.
End Engine.

(** The rows of [associations] for one pair. *)
Definition rows_of_pair (db : DB) (signal_id : Z) (issue_id : string)
  : list association :=
  filter (same_pair signal_id issue_id) (associations db).

(* ================================================================== *)
(** * Vocabulary of the statements, and sample stores *)



(** The uniqueness constraint, as a property of a table. *)
Definition unique_pairs (tbl : list association) : Prop :=
  forall s i, (List.length (filter (same_pair s i) tbl) <= 1)%nat.

(** A signal with the given identifier and summary. *)
Definition sample_signal (id : Z) (summary : string) : signal :=
  {| s_id := id; s_summary := summary; s_context := "context"%string;
     s_sentiment := 0; s_severity := 1; s_bias := 0;
     s_date := "2024-01-01"%string; s_boundary := "b"%string;
     s_method := "m"%string; s_topics := None; s_keywords := None;
     s_impacts := None; s_emotions := None |}.

(** An issue with the given identifier and title. *)
Definition sample_issue (identifier title : string) : issue :=
  {| i_id := identifier; i_identifier := identifier; i_title := title;
     i_description := None; i_state_name := None; i_state_type := None;
     i_team_name := None; i_team_key := None; i_assignee_name := None;
     i_assignee_email := None; i_creator_name := None; i_creator_email := None;
     i_priority := None; i_estimate := None; i_labels := None;
     i_created_at := "2024-01-01"%string; i_updated_at := "2024-01-01"%string;
     i_completed_at := None |}.

(** A small store: one signal, two issues, all embedded, nothing
    associated yet.  The signal is close to the first issue (cosine 0.8)
    and orthogonal to the second. *)
Definition sample_db : DB :=
  {| signals := [sample_signal 1 "login fails"];
     issues := [sample_issue "ENG-1" "Login button unresponsive";
                sample_issue "ENG-2" "Dark mode"];
     signal_embeddings :=
       [ {| se_signal_id := 1; se_embedding := [1; 0]%float; se_model := MODEL_NAME |} ];
     issue_embeddings :=
       [ {| ie_issue_id := "ENG-1"%string; ie_embedding := [4; 3]%float;
            ie_model := MODEL_NAME |};
         {| ie_issue_id := "ENG-2"%string; ie_embedding := [0; 1]%float;
            ie_model := MODEL_NAME |} ];
     associations := [] |}.

(** An index that answers every query with the same two candidates. *)
Definition sample_collection : Chroma.collection :=
  fun _ _ => [("ENG-1"%string, 0.25%float); ("ENG-2"%string, 2%float)].

(** A stand-in for the two-decimal formatting of a score. *)
Definition no_format : float -> string := fun _ => EmptyString.

(** Where a collected dictionary comes from: a row of the work list whose
    score passed the threshold test. *)
Definition local_origin (pairs : list Local.pair_row) (d : assoc_dict) : Prop :=
  exists p,
    In p pairs /\
    d_signal_id d = Local.p_signal_id p /\
    d_issue_id d = Local.p_issue_id p /\
    cosine_similarity (Local.p_signal_embedding p) (Local.p_issue_embedding p)
      = Some (d_score d) /\
    (SIMILARITY_THRESHOLD <=? d_score d)%float = true.

(** Where a dictionary collected for one signal comes from: a candidate
    of the query that had no stored row and whose similarity passed the
    threshold test. *)
Definition candidate_origin (db : DB) (signal_id : Z)
           (results : list (string * float)) (d : assoc_dict) : Prop :=
  exists r,
    In r results /\
    existsb (same_pair signal_id (fst r)) (associations db) = false /\
    d_signal_id d = signal_id /\
    d_issue_id d = fst r /\
    Chroma.similarity_of (snd r) = Some (d_score d) /\
    (SIMILARITY_THRESHOLD <=? d_score d)%float = true.

(** The same, over the whole run. *)
Definition chroma_origin (db : DB) (coll : Chroma.collection)
           (sigs : list signal) (d : assoc_dict) : Prop :=
  exists s emb,
    In s sigs /\
    Chroma.signal_embedding_of db (s_id s) = Some emb /\
    candidate_origin db (s_id s) (coll emb TOP_K) d.

(** What the loop does with a candidate that reaches line 192. *)
Definition candidate_scored (new : list assoc_dict) (signal_id : Z)
           (r : string * float) : Prop :=
  exists similarity,
    Chroma.similarity_of (snd r) = Some similarity /\
    ((SIMILARITY_THRESHOLD <=? similarity)%float = true ->
     exists d, In d new /\ d_signal_id d = signal_id /\ d_issue_id d = fst r).

(** A candidate the loop leaves aside: already stored, or scored below
    the threshold. *)
Definition candidate_passed_over (db : DB) (signal_id : Z) (r : string * float) : Prop :=
  existsb (same_pair signal_id (fst r)) (associations db) = true \/
  exists similarity,
    Chroma.similarity_of (snd r) = Some similarity /\
    (SIMILARITY_THRESHOLD <=? similarity)%float = false.

(** A candidate of the run: a result of the query for a signal that has
    an embedding. *)
Definition candidate (db : DB) (coll : Chroma.collection) (sigs : list signal)
           (s : Z) (i : string) : Prop :=
  exists sig emb r,
    In sig sigs /\ s_id sig = s /\
    Chroma.signal_embedding_of db s = Some emb /\
    In r (coll emb TOP_K) /\ fst r = i.

(** The signal has a row in [signal_embeddings]. *)
Definition has_signal_embedding (tbl : list signal_embedding) (id : Z) : Prop :=
  exists e, In e tbl /\ se_signal_id e = id.

(** The write loop of [generate_signal_embeddings]. *)
Definition store_signal_embeddings
           (rows : list (signal * list float)) (tbl : list signal_embedding)
  : list signal_embedding :=
  fold_left
    (fun tbl se =>
       replace_signal_embedding tbl
         {| se_signal_id := s_id (fst se); se_embedding := snd se;
            se_model := MODEL_NAME |})
    rows tbl.

(** The issue has a row in [issue_embeddings]. *)
Definition has_issue_embedding (tbl : list issue_embedding) (id : string) : Prop :=
  exists e, In e tbl /\ ie_issue_id e = id.

(** The write loop of [generate_issue_embeddings]. *)
Definition store_issue_embeddings
           (rows : list (issue * list float)) (tbl : list issue_embedding)
  : list issue_embedding :=
  fold_left
    (fun tbl ie =>
       replace_issue_embedding tbl
         {| ie_issue_id := i_identifier (fst ie); ie_embedding := snd ie;
            ie_model := MODEL_NAME |})
    rows tbl.

(** A store in which signal 1 has an embedding and signal 2, imported
    later, has none. *)
Definition partly_embedded_db : DB :=
  {| signals := [sample_signal 1 "login fails"; sample_signal 2 "slow search"];
     issues := [];
     signal_embeddings :=
       [ {| se_signal_id := 1; se_embedding := [1; 0]%float; se_model := MODEL_NAME |} ];
     issue_embeddings := [];
     associations := [] |}.

(** An encoder that returns one vector per text. *)
Definition sample_encode : list string -> list (list float) :=
  map (fun _ => [0; 1]%float).

(** Modelled from the spec: the constraints that section 6 of the
    specification puts on [signal_embeddings], whose [CREATE TABLE]
    statement is not among the sources: [signal_id] is unique, and it is a
    foreign key into [signals]. *)
Definition signal_embedding_constraints (db : DB) : Prop :=
  NoDup (map se_signal_id (signal_embeddings db)) /\
  incl (map se_signal_id (signal_embeddings db)) (map s_id (signals db)).

(** [x] is ranked no lower than [y]. *)
Definition ranks_before {A : Type} (score : A -> float) (x y : A) : Prop :=
  (score y <=? score x)%float = true.


(** What it takes for a row to be returned by [get_issues_for_signal]. *)
Definition issue_hit_of (db : DB) (signal_id : Z) (min_score : float)
           (h : Db.issue_hit) : Prop :=
  exists a,
    In a (associations db) /\
    In (Db.ih_issue h) (issues db) /\
    a_issue_id a = i_identifier (Db.ih_issue h) /\
    a_signal_id a = signal_id /\
    (min_score <=? a_score a)%float = true /\
    Db.ih_score h = a_score a /\
    Db.ih_reason h = a_reason a /\
    Db.ih_method h = a_method a.

(** A store with three associations of one issue, stored in an order
    that is not the order of their scores. *)
Definition ranked_db : DB :=
  {| signals := [sample_signal 1 "a"; sample_signal 2 "b"; sample_signal 3 "c"];
     issues := [sample_issue "ENG-1" "Login button unresponsive"];
     signal_embeddings := [];
     issue_embeddings := [];
     associations :=
       [ {| a_id := 1; a_signal_id := 1; a_issue_id := "ENG-1"%string;
            a_score := 0.625%float; a_reason := EmptyString; a_method := EmptyString |};
         {| a_id := 2; a_signal_id := 2; a_issue_id := "ENG-1"%string;
            a_score := 0.875%float; a_reason := EmptyString; a_method := EmptyString |};
         {| a_id := 3; a_signal_id := 3; a_issue_id := "ENG-1"%string;
            a_score := 0.5%float; a_reason := EmptyString; a_method := EmptyString |} ] |}.

(* ================================================================== *)
(** * Vocabulary and sample data of the loaders, listings and pages *)

(** A store with two signals and two issues and no embedding yet. *)
Definition unembedded_db : DB :=
  {| signals := [sample_signal 1 "login fails"; sample_signal 2 "search is slow"];
     issues := [sample_issue "ENG-1" "Login button unresponsive";
                sample_issue "ENG-2" "Dark mode"];
     signal_embeddings := [];
     issue_embeddings := [];
     associations := [] |}.

(** An encoder that returns one vector per text, by the length of the
    text. *)
Definition length_encode : list string -> list (list float) :=
  map (fun t => if Nat.even (String.length t) then [1; 0]%float else [0; 1]%float).

(** The row of a signal in [get_all_signals_with_counts]: five of its
    columns and the number of its associations. *)
Definition signal_count_row_of (db : DB) (s : signal) : Db.signal_count_row :=
  {| Db.sc_id := s_id s;
     Db.sc_summary := s_summary s;
     Db.sc_context := s_context s;
     Db.sc_sentiment := s_sentiment s;
     Db.sc_severity := s_severity s;
     Db.sc_date := s_date s;
     Db.sc_issue_count :=
       List.length (filter (fun a => Z.eqb (a_signal_id a) (s_id s)) (associations db)) |}.

(** The row of an issue in [get_all_issues_with_counts]: eight of its
    columns and the number of associations of its identifier. *)
Definition issue_count_row_of (db : DB) (i : issue) : Db.issue_count_row :=
  {| Db.ic_identifier := i_identifier i;
     Db.ic_title := i_title i;
     Db.ic_description := i_description i;
     Db.ic_state_name := i_state_name i;
     Db.ic_team_name := i_team_name i;
     Db.ic_assignee_name := i_assignee_name i;
     Db.ic_created_at := i_created_at i;
     Db.ic_priority := i_priority i;
     Db.ic_signal_count :=
       List.length (filter (fun a => String.eqb (a_issue_id a) (i_identifier i))
                           (associations db)) |}.

(** A signal with the given identifier and date. *)
Definition dated_signal (id : Z) (date : string) : signal :=
  {| s_id := id; s_summary := "summary"%string; s_context := "context"%string;
     s_sentiment := 0; s_severity := 1; s_bias := 0;
     s_date := date; s_boundary := "b"%string;
     s_method := "m"%string; s_topics := None; s_keywords := None;
     s_impacts := None; s_emotions := None |}.

(** An issue with the given identifier and creation time. *)
Definition dated_issue (identifier created_at : string) : issue :=
  {| i_id := identifier; i_identifier := identifier; i_title := "title"%string;
     i_description := None; i_state_name := None; i_state_type := None;
     i_team_name := None; i_team_key := None; i_assignee_name := None;
     i_assignee_email := None; i_creator_name := None; i_creator_email := None;
     i_priority := None; i_estimate := None; i_labels := None;
     i_created_at := created_at; i_updated_at := created_at;
     i_completed_at := None |}.

(** A pair stored with the given score. *)
Definition stored_pair (id signal_id : Z) (issue_id : string) (score : float)
  : association :=
  {| a_id := id; a_signal_id := signal_id; a_issue_id := issue_id;
     a_score := score; a_reason := EmptyString; a_method := EmptyString |}.

(** A store in which signal 2 has two associations, signal 3 one, and
    signals 1 and 4 none; issue ENG-2 has two, ENG-1 one and ENG-3 none. *)
Definition listing_db : DB :=
  {| signals := [dated_signal 1 "2024-01-05"; dated_signal 2 "2024-01-02";
                 dated_signal 3 "2024-01-03"; dated_signal 4 "2024-02-01"];
     issues := [dated_issue "ENG-1" "2024-03-01"; dated_issue "ENG-2" "2024-01-01";
                dated_issue "ENG-3" "2024-02-01"];
     signal_embeddings := [];
     issue_embeddings := [];
     associations :=
       [stored_pair 1 2 "ENG-1" 0.75; stored_pair 2 2 "ENG-2" 0.5;
        stored_pair 3 3 "ENG-2" 0.625] |}.

(** The rows the query of [print_sample_associations] joins. *)
Definition joined_sample_rows (db : DB) : list Local.sample_row :=
  flat_map
    (fun a =>
       flat_map
         (fun s =>
            map (fun i => {| Local.sr_score := a_score a;
                             Local.sr_summary := s_summary s;
                             Local.sr_identifier := i_identifier i;
                             Local.sr_title := i_title i |})
                (filter (fun i => String.eqb (a_issue_id a) (i_identifier i))
                        (issues db)))
         (filter (fun s => Z.eqb (a_signal_id a) (s_id s)) (signals db)))
    (associations db).

(** The shape of every [INSERT OR REPLACE] of the scripts, on a table
    with the primary key [key]: the row that holds the key of the new
    row is removed and the new row is added. *)
Definition upsert {A K : Type} (key : A -> K) (eqb : K -> K -> bool)
  (tbl : list A) (r : A) : list A :=
  filter (fun x => negb (eqb (key x) (key r))) tbl ++ [r].

(** The rows that [import_signals] writes for an array: one per object
    that has the nine required keys, in the order of the array. *)
Definition complete_rows (json_dumps : list string -> string)
  (batch : list ImportSignals.json_signal) : list signal :=
  flat_map (fun s => match ImportSignals.row_of json_dumps s with
                     | Some r => [r]
                     | None => []
                     end) batch.

(** The errors that [import_signals] counts for one object: none when no
    required key is absent, otherwise one per absent key and one more for
    the [KeyError]. *)
Definition errors_of (s : ImportSignals.json_signal) : nat :=
  match ImportSignals.missing_required_fields s with
  | O => O
  | S k => S (S k)
  end.

(** A signal object with every required key and no array. *)
Definition json_of (id : Z) (summary : string) : ImportSignals.json_signal :=
  {| ImportSignals.j_id := Some id;
     ImportSignals.j_summary := Some summary;
     ImportSignals.j_context := Some "context"%string;
     ImportSignals.j_sentiment := Some 0%Z;
     ImportSignals.j_severity := Some 1%Z;
     ImportSignals.j_bias := Some 0%Z;
     ImportSignals.j_date := Some "2024-01-01"%string;
     ImportSignals.j_boundary := Some "b"%string;
     ImportSignals.j_method := Some "m"%string;
     ImportSignals.j_topics := None;
     ImportSignals.j_keywords := None;
     ImportSignals.j_impacts := None;
     ImportSignals.j_emotions := None |}.

(** A signal object that lacks [summary] and [date]. *)
Definition json_without_summary_and_date (id : Z) : ImportSignals.json_signal :=
  {| ImportSignals.j_id := Some id;
     ImportSignals.j_summary := None;
     ImportSignals.j_context := Some "context"%string;
     ImportSignals.j_sentiment := Some 0%Z;
     ImportSignals.j_severity := Some 1%Z;
     ImportSignals.j_bias := Some 0%Z;
     ImportSignals.j_date := None;
     ImportSignals.j_boundary := Some "b"%string;
     ImportSignals.j_method := Some "m"%string;
     ImportSignals.j_topics := None;
     ImportSignals.j_keywords := None;
     ImportSignals.j_impacts := None;
     ImportSignals.j_emotions := None |}.

(** A [json.dumps] for lists of names. *)
Definition sample_dumps (names : list string) : string :=
  String.concat ","%string names.

(** An array with a changed text for signal 1, an object that lacks two
    keys, and a new signal 7. *)
Definition sample_batch : list ImportSignals.json_signal :=
  [json_of 1 "login fails on mobile"; json_without_summary_and_date 9;
   json_of 7 "export is slow"].

(** A node with the given id, title and labels. *)
Definition linear_node (id title : string) (labels : list string)
  : FetchLinear.linear_issue :=
  {| FetchLinear.l_id := id;
     FetchLinear.l_identifier := id;
     FetchLinear.l_title := title;
     FetchLinear.l_description := None;
     FetchLinear.l_state := Some ("Todo"%string, "unstarted"%string);
     FetchLinear.l_team := None;
     FetchLinear.l_assignee := None;
     FetchLinear.l_creator := None;
     FetchLinear.l_priority := Some 2%Z;
     FetchLinear.l_estimate := None;
     FetchLinear.l_labels := labels;
     FetchLinear.l_created_at := "2024-01-01"%string;
     FetchLinear.l_updated_at := "2024-02-01"%string;
     FetchLinear.l_completed_at := None |}.

(** A fetch that returns a stored issue with a new title and a new
    issue. *)
Definition sample_nodes : list FetchLinear.linear_issue :=
  [linear_node "ENG-1" "Login button dead on mobile" ["bug"%string];
   linear_node "ENG-9" "Export to CSV" []].

(** An array of two new, complete signals. *)
Definition clean_batch : list ImportSignals.json_signal :=
  [json_of 7 "export is slow"; json_of 8 "search misses results"].


(** The same row from the signal's side. *)
Definition sample_issue_hit : Db.issue_hit :=
  {| Db.ih_issue := sample_issue "ENG-1" "Login button unresponsive";
     Db.ih_score := 0x1.999999999999ap-1%float;
     Db.ih_reason := "Semantic similarity: "%string;
     Db.ih_method := "local-all-MiniLM-L6-v2"%string |}.

(* ================================================================== *)
(** * Sample evaluations *)

Example cosine_orthogonal :
  cosine_similarity [1; 0]%float [0; 1]%float = Some 0%float.
Proof. vm_compute. reflexivity. Qed.

Example cosine_parallel :
  cosine_similarity [3; 4]%float [6; 8]%float = Some 1%float.
Proof. vm_compute. reflexivity. Qed.

Example cosine_shape_mismatch :
  cosine_similarity [1; 0]%float [1]%float = None.
Proof. vm_compute. reflexivity. Qed.

Example similarity_of_distance_one :
  Chroma.similarity_of 1%float = Some 0.5%float.
Proof. vm_compute. reflexivity. Qed.

(* ================================================================== *)
(** * binary64 facts used below *)

Section Binary64.
Open Scope float_scope.

















End Binary64.

(* ================================================================== *)
(** * Zero-norm vectors in the exhaustive strategy *)




(* ================================================================== *)
(** * Bounds of the two similarity scales *)


Section ExactArithmetic.
Open Scope R_scope.




End ExactArithmetic.



(* ================================================================== *)
(** * [INSERT OR IGNORE] on [associations] *)

Lemma same_pair_true s i a :
  same_pair s i a = true <-> a_signal_id a = s /\ a_issue_id a = i.
Proof.
  unfold same_pair. rewrite andb_true_iff, Z.eqb_eq, String.eqb_eq. tauto.
Qed.

(** A conflicting insert leaves the table as it is. *)
Lemma insert_or_ignore_collision tbl d :
  existsb (same_pair (d_signal_id d) (d_issue_id d)) tbl = true ->
  insert_or_ignore tbl d = tbl.
Proof. unfold insert_or_ignore. intros ->. reflexivity. Qed.

(** An insert only ever appends. *)
Lemma insert_or_ignore_extends tbl d :
  exists new, insert_or_ignore tbl d = tbl ++ new.
Proof.
  unfold insert_or_ignore.
  destruct (existsb _ tbl).
  - exists []. now rewrite app_nil_r.
  - eexists. reflexivity.
Qed.

Lemma save_extends found : forall tbl,
  exists new, fold_left insert_or_ignore found tbl = tbl ++ new.
Proof.
  induction found as [|d found IH]; intros tbl; simpl.
  - exists []. now rewrite app_nil_r.
  - destruct (insert_or_ignore_extends tbl d) as [n1 ->].
    destruct (IH (tbl ++ n1)) as [n2 ->].
    exists (n1 ++ n2). now rewrite app_assoc.
Qed.

Lemma find_app_some {A} (f : A -> bool) l l' r :
  find f l = Some r -> find f (l ++ l') = Some r.
Proof.
  induction l as [|x l IH]; simpl; [discriminate|].
  destruct (f x); auto.
Qed.

Lemma find_some_first {A} (f : A -> bool) l :
  (exists x, In x l /\ f x = true) ->
  exists row, find f l = Some row /\ In row l /\ f row = true.
Proof.
  intros [x [Hx Hf]].
  destruct (find f l) as [row|] eqn:E.
  - exists row. apply find_some in E. tauto.
  - rewrite (find_none _ _ E x Hx) in Hf. discriminate.
Qed.

Lemma find_none_iff {A} (f : A -> bool) l :
  find f l = None <-> forall x, In x l -> f x = false.
Proof.
  split; [apply find_none|].
  intros H. destruct (find f l) as [row|] eqn:E; [|reflexivity].
  apply find_some in E. destruct E as [Hin Hf]. rewrite (H _ Hin) in Hf. discriminate.
Qed.

Lemma existsb_app_true {A} (f : A -> bool) l l' :
  existsb f l = true -> existsb f (l ++ l') = true.
Proof. rewrite existsb_app. intros ->. reflexivity. Qed.

(** After an insert, the pair has a row. *)
Lemma insert_or_ignore_present tbl d :
  existsb (same_pair (d_signal_id d) (d_issue_id d)) (insert_or_ignore tbl d) = true.
Proof.
  unfold insert_or_ignore.
  destruct (existsb _ tbl) eqn:E; [exact E|].
  rewrite existsb_app. simpl. unfold same_pair at 2. simpl.
  rewrite Z.eqb_refl, String.eqb_refl. simpl. now rewrite orb_true_r.
Qed.

Lemma save_present found : forall tbl d,
  In d found ->
  existsb (same_pair (d_signal_id d) (d_issue_id d))
          (fold_left insert_or_ignore found tbl) = true.
Proof.
  induction found as [|d0 found IH]; intros tbl d Hin; [contradiction|].
  simpl. destruct Hin as [->|Hin].
  - destruct (save_extends found (insert_or_ignore tbl d)) as [new ->].
    apply existsb_app_true. apply insert_or_ignore_present.
  - now apply IH.
Qed.

Lemma filter_none {A} (f : A -> bool) l :
  existsb f l = false -> filter f l = [].
Proof.
  induction l as [|x l IH]; simpl; [reflexivity|].
  destruct (f x); simpl; [discriminate|exact IH].
Qed.

Lemma insert_or_ignore_unique tbl d :
  unique_pairs tbl -> unique_pairs (insert_or_ignore tbl d).
Proof.
  intros Hu s i. unfold insert_or_ignore.
  destruct (existsb _ tbl) eqn:E; [apply Hu|].
  rewrite filter_app, length_app. simpl.
  match goal with |- context [same_pair s i ?r] => destruct (same_pair s i r) eqn:Er end.
  - apply same_pair_true in Er. simpl in Er. destruct Er as [<- <-].
    rewrite (filter_none _ _ E). simpl. lia.
  - simpl. specialize (Hu s i). lia.
Qed.

Lemma save_unique found : forall tbl,
  unique_pairs tbl -> unique_pairs (fold_left insert_or_ignore found tbl).
Proof.
  induction found as [|d found IH]; intros tbl Hu; simpl; [exact Hu|].
  apply IH. now apply insert_or_ignore_unique.
Qed.

(** Rows an insert adds come from the dictionary. *)
Lemma insert_or_ignore_In tbl d a :
  In a (insert_or_ignore tbl d) ->
  In a tbl \/
  (a_signal_id a = d_signal_id d /\ a_issue_id a = d_issue_id d /\
   a_score a = d_score d /\ a_reason a = d_reason d /\ a_method a = d_method d).
Proof.
  unfold insert_or_ignore. destruct (existsb _ tbl); [now left|].
  rewrite in_app_iff. simpl. intros [H|[<-|[]]]; [now left|right].
  simpl. repeat split.
Qed.

Lemma save_In found : forall tbl a,
  In a (fold_left insert_or_ignore found tbl) ->
  In a tbl \/
  exists d, In d found /\
    a_signal_id a = d_signal_id d /\ a_issue_id a = d_issue_id d /\
    a_score a = d_score d /\ a_reason a = d_reason d /\ a_method a = d_method d.
Proof.
  induction found as [|d found IH]; intros tbl a Hin; simpl in Hin; [now left|].
  destruct (IH _ _ Hin) as [H|[d' [Hd' H]]].
  - destruct (insert_or_ignore_In _ _ _ H) as [H'|H']; [now left|].
    right. exists d. split; [now left|exact H'].
  - right. exists d'. split; [now right|exact H].
Qed.

(* ================================================================== *)
(** * What one invocation writes *)

Section Invocations.
Variable format_2f : float -> string.

(** Every invocation leaves [associations] as the result of a sequence of
    [INSERT OR IGNORE]s, possibly empty. *)
Lemma invoke_saves db i :
  exists found,
    associations (invoke format_2f db i) =
    fold_left insert_or_ignore found (associations db).
Proof.
  destruct i as [|coll|sigs iss sembs iembs]; simpl.
  - unfold Local.run_associations, Local.compute_associations.
    destruct (Local.pairs_to_process db) as [|p ps]; [now exists []|].
    destruct (Local.score_pairs _ _ _) as [found|]; [|now exists []].
    exists found. reflexivity.
  - unfold Chroma.run_associations, Chroma.generate_associations_with_chroma.
    destruct (Chroma.process_signals _ _ _ _ _) as [found|]; [|now exists []].
    exists found. reflexivity.
  - now exists [].
Qed.

Lemma invoke_all_unique runs : forall db,
  unique_pairs (associations db) ->
  unique_pairs (associations (invoke_all format_2f db runs)).
Proof.
  induction runs as [|i runs IH]; intros db Hu; simpl; [exact Hu|].
  apply IH. destruct (invoke_saves db i) as [found ->]. now apply save_unique.
Qed.

Lemma invoke_all_extends runs : forall db,
  exists new,
    associations (invoke_all format_2f db runs) = associations db ++ new.
Proof.
  induction runs as [|i runs IH]; intros db; simpl.
  - exists []. now rewrite app_nil_r.
  - destruct (IH (invoke format_2f db i)) as [n2 ->].
    destruct (invoke_saves db i) as [found ->].
    destruct (save_extends found (associations db)) as [n1 ->].
    exists (n1 ++ n2). now rewrite app_assoc.
Qed.
End Invocations.

(* ================================================================== *)
(** * Uniqueness of associations *)

(** C1: starting from a table with at most one row per
    [(signal_id, issue_id)] pair, any sequence of association runs of
    either script, interleaved with arbitrary changes of the corpus,
    leaves at most one row per pair; the row [get_association] returned for
    a pair before the runs is the row it returns after them; and an insert
    that collides with a stored pair returns the table unchanged, with no
    error. *)
Theorem association_uniqueness_first_write_wins
  (format_2f : float -> string) (db : DB) (runs : list invocation) :
  (forall s i, (List.length (rows_of_pair db s i) <= 1)%nat) ->
  (forall s i,
      (List.length (rows_of_pair (invoke_all format_2f db runs) s i) <= 1)%nat) /\
  (forall s i row,
      Db.get_association db s i = Some row ->
      Db.get_association (invoke_all format_2f db runs) s i = Some row) /\
  (forall tbl d,
      existsb (same_pair (d_signal_id d) (d_issue_id d)) tbl = true ->
      insert_or_ignore tbl d = tbl).
Proof.
  intros Hu. split; [|split].
  - apply invoke_all_unique. exact Hu.
  - intros s i row Hget. unfold Db.get_association in *.
    destruct (invoke_all_extends format_2f runs db) as [new ->].
    now apply find_app_some.
  - apply insert_or_ignore_collision.
Qed.

(** The theorem at the sample store, after a first run has stored the
    pair (1, ENG-1). *)
Lemma association_uniqueness_first_write_wins_witness :
  let db := Local.run_associations no_format sample_db in
  let runs := [RunLocal; RunChroma sample_collection; RunLocal] in
  (forall s i,
      (List.length (rows_of_pair (invoke_all no_format db runs) s i) <= 1)%nat) /\
  (forall s i row,
      Db.get_association db s i = Some row ->
      Db.get_association (invoke_all no_format db runs) s i = Some row) /\
  (forall tbl d,
      existsb (same_pair (d_signal_id d) (d_issue_id d)) tbl = true ->
      insert_or_ignore tbl d = tbl).
Proof.
  intros db runs.
  apply (association_uniqueness_first_write_wins no_format db runs).
  intros s i. unfold rows_of_pair. simpl.
  destruct (same_pair s i _); simpl; lia.
Defined.

Example sample_run_local :
  map (fun a => (a_id a, a_signal_id a, a_issue_id a, a_score a))
      (associations (Local.run_associations no_format sample_db))
  = [(1%Z, 1%Z, "ENG-1"%string, 0x1.999999999999ap-1%float)].
Proof. vm_compute. reflexivity. Qed.

Example sample_run_chroma :
  map (fun a => (a_id a, a_signal_id a, a_issue_id a, a_score a))
      (associations (Chroma.run_associations no_format sample_db sample_collection))
  = [(1%Z, 1%Z, "ENG-1"%string, 0x1.999999999999ap-1%float)].
Proof. vm_compute. reflexivity. Qed.

(* ================================================================== *)
(** * The scoring loop of the exhaustive script *)

Section LocalLoop.
Variable format_2f : float -> string.

Lemma local_origin_cons p pairs d :
  local_origin pairs d -> local_origin (p :: pairs) d.
Proof.
  intros [q [Hq H]]. exists q. split; [now right|exact H].
Qed.

Lemma score_pairs_spec pairs : forall acc found,
  Local.score_pairs format_2f pairs acc = Some found ->
  exists new,
    found = acc ++ new /\
    Forall (local_origin pairs) new /\
    (forall p, In p pairs ->
       exists score,
         cosine_similarity (Local.p_signal_embedding p) (Local.p_issue_embedding p)
           = Some score /\
         ((SIMILARITY_THRESHOLD <=? score)%float = true ->
          exists d, In d new /\
                    d_signal_id d = Local.p_signal_id p /\
                    d_issue_id d = Local.p_issue_id p)).
Proof.
  induction pairs as [|p pairs IH]; intros acc found Hrun; simpl in Hrun.
  - injection Hrun as <-. exists []. rewrite app_nil_r.
    split; [reflexivity|]. split; [constructor|]. intros p [].
  - destruct (cosine_similarity _ _) as [score|] eqn:Hcos; [|discriminate].
    destruct (SIMILARITY_THRESHOLD <=? score)%float eqn:Hthr.
    + destruct (IH _ _ Hrun) as [new [-> [Hnew Hall]]].
      exists (Local.make_association format_2f (Local.p_signal_id p)
                (Local.p_issue_id p) score :: new).
      split; [now rewrite <- app_assoc|]. split.
      * constructor.
        -- exists p. simpl. repeat split; auto.
        -- eapply Forall_impl; [|exact Hnew]. intros d. apply local_origin_cons.
      * intros q [<-|Hq].
        -- exists score. split; [exact Hcos|]. intros _.
           eexists. split; [now left|]. split; reflexivity.
        -- destruct (Hall q Hq) as [sc [Hsc Hd]]. exists sc. split; [exact Hsc|].
           intros Hpass. destruct (Hd Hpass) as [d [Hin Hkey]].
           exists d. split; [now right|exact Hkey].
    + destruct (IH _ _ Hrun) as [new [-> [Hnew Hall]]].
      exists new. split; [reflexivity|]. split.
      * eapply Forall_impl; [|exact Hnew]. intros d. apply local_origin_cons.
      * intros q [<-|Hq].
        -- exists score. split; [exact Hcos|]. rewrite Hthr. discriminate.
        -- exact (Hall q Hq).
Qed.

Lemma score_pairs_none_pass pairs : forall acc,
  (forall p, In p pairs ->
     exists score,
       cosine_similarity (Local.p_signal_embedding p) (Local.p_issue_embedding p)
         = Some score /\
       (SIMILARITY_THRESHOLD <=? score)%float = false) ->
  Local.score_pairs format_2f pairs acc = Some acc.
Proof.
  induction pairs as [|p pairs IH]; intros acc Hall; simpl; [reflexivity|].
  destruct (Hall p (or_introl eq_refl)) as [score [-> ->]].
  apply IH. intros q Hq. apply Hall. now right.
Qed.

Lemma pairs_to_process_In db p :
  In p (Local.pairs_to_process db) <->
  exists se ie,
    In se (signal_embeddings db) /\ In ie (issue_embeddings db) /\
    existsb (same_pair (se_signal_id se) (ie_issue_id ie)) (associations db) = false /\
    p = {| Local.p_signal_id := se_signal_id se;
           Local.p_signal_embedding := se_embedding se;
           Local.p_issue_id := ie_issue_id ie;
           Local.p_issue_embedding := ie_embedding ie |}.
Proof.
  unfold Local.pairs_to_process. rewrite in_flat_map. split.
  - intros [se [Hse Hin]]. apply in_flat_map in Hin. destruct Hin as [ie [Hie Hin]].
    destruct (existsb _ _) eqn:E; [contradiction|].
    destruct Hin as [<-|[]]. exists se, ie. auto.
  - intros [se [ie [Hse [Hie [E ->]]]]]. exists se. split; [exact Hse|].
    apply in_flat_map. exists ie. split; [exact Hie|]. rewrite E. now left.
Qed.

Lemma pairs_to_process_not_associated db p :
  In p (Local.pairs_to_process db) ->
  existsb (same_pair (Local.p_signal_id p) (Local.p_issue_id p)) (associations db) = false.
Proof.
  rewrite pairs_to_process_In. intros [se [ie [_ [_ [E ->]]]]]. exact E.
Qed.

(** What a run of [compute_associations] leaves in [associations]. *)
Lemma local_run_cases db :
  Local.run_associations format_2f db = db \/
  exists found,
    Local.score_pairs format_2f (Local.pairs_to_process db) [] = Some found /\
    Local.run_associations format_2f db = save_associations db found.
Proof.
  unfold Local.run_associations, Local.compute_associations.
  destruct (Local.pairs_to_process db) as [|p ps] eqn:E; [now left|].
  destruct (Local.score_pairs _ _ _) as [found|] eqn:Hs; [|now left].
  right. exists found. split; reflexivity.
Qed.

Lemma save_associations_nil db : save_associations db [] = db.
Proof. destruct db. reflexivity. Qed.

Lemma local_run_nothing_to_add db :
  Local.score_pairs format_2f (Local.pairs_to_process db) [] = Some [] ->
  Local.run_associations format_2f db = db.
Proof.
  intros Hs. unfold Local.run_associations, Local.compute_associations.
  destruct (Local.pairs_to_process db) as [|p ps]; [reflexivity|].
  rewrite Hs. apply save_associations_nil.
Qed.

Lemma existsb_app_false {A} (f : A -> bool) l l' :
  existsb f (l ++ l') = false -> existsb f l = false.
Proof. rewrite existsb_app, orb_false_iff. tauto. Qed.

Lemma save_not_present found tbl s i :
  existsb (same_pair s i) (fold_left insert_or_ignore found tbl) = false ->
  existsb (same_pair s i) tbl = false.
Proof.
  destruct (save_extends found tbl) as [new ->]. apply existsb_app_false.
Qed.

Lemma local_run_idempotent db :
  Local.run_associations format_2f (Local.run_associations format_2f db)
  = Local.run_associations format_2f db.
Proof.
  destruct (local_run_cases db) as [Hsame|[found [Hs Hrun]]].
  - rewrite Hsame. exact Hsame.
  - rewrite Hrun. apply local_run_nothing_to_add.
    apply score_pairs_none_pass. intros p Hp.
    destruct (score_pairs_spec _ _ _ Hs) as [new [Hfound [_ Hall]]].
    simpl in Hfound. subst new.
    pose proof (pairs_to_process_not_associated _ _ Hp) as Habsent.
    simpl in Habsent.
    assert (Hp0 : In p (Local.pairs_to_process db)).
    { apply pairs_to_process_In in Hp. apply pairs_to_process_In.
      destruct Hp as [se [ie [Hse [Hie [E ->]]]]]. exists se, ie.
      simpl in *. repeat split; auto. eapply save_not_present; eassumption. }
    destruct (Hall p Hp0) as [score [Hcos Hpass]].
    exists score. split; [exact Hcos|].
    destruct (SIMILARITY_THRESHOLD <=? score)%float eqn:Hthr; [|reflexivity].
    destruct (Hpass eq_refl) as [d [Hd [Hs1 Hi1]]].
    pose proof (save_present found (associations db) d Hd) as Hpres.
    rewrite Hs1, Hi1 in Hpres. rewrite Hpres in Habsent. discriminate.
Qed.
End LocalLoop.

(* ================================================================== *)
(** * The candidate loop of the indexed script *)

Section ChromaLoop.
Variable format_2f : float -> string.

Lemma candidate_scored_more new new' signal_id r :
  (forall d, In d new -> In d new') ->
  candidate_scored new signal_id r -> candidate_scored new' signal_id r.
Proof.
  intros Hsub [sim [Hsim Hd]]. exists sim. split; [exact Hsim|].
  intros Hpass. destruct (Hd Hpass) as [d [Hin Hkey]].
  exists d. split; [now apply Hsub|exact Hkey].
Qed.

Lemma process_results_spec db signal_id results : forall acc found,
  Chroma.process_results format_2f db signal_id results acc = Some found ->
  exists new,
    found = acc ++ new /\
    Forall (candidate_origin db signal_id results) new /\
    (forall r, In r results ->
       existsb (same_pair signal_id (fst r)) (associations db) = false ->
       candidate_scored new signal_id r).
Proof.
  induction results as [|[issue_id distance] results IH];
    intros acc found Hrun; simpl in Hrun.
  - injection Hrun as <-. exists []. rewrite app_nil_r.
    split; [reflexivity|]. split; [constructor|]. intros r [].
  - assert (Hweak : forall new,
               Forall (candidate_origin db signal_id results) new ->
               Forall (candidate_origin db signal_id ((issue_id, distance) :: results)) new).
    { intros new. apply Forall_impl. intros d [r [Hr H]].
      exists r. split; [now right|exact H]. }
    destruct (existsb _ _) eqn:Hex.
    + destruct (IH _ _ Hrun) as [new [-> [Hnew Hall]]].
      exists new. split; [reflexivity|]. split; [now apply Hweak|].
      intros r [<-|Hr] Habs; [simpl in Habs; congruence|now apply Hall].
    + destruct (Chroma.similarity_of distance) as [sim|] eqn:Hsim; [|discriminate].
      destruct (SIMILARITY_THRESHOLD <=? sim)%float eqn:Hthr.
      * destruct (IH _ _ Hrun) as [new [-> [Hnew Hall]]].
        exists (Chroma.make_association format_2f signal_id issue_id sim :: new).
        split; [now rewrite <- app_assoc|]. split.
        -- constructor; [|now apply Hweak].
           exists (issue_id, distance). simpl. repeat split; auto.
        -- intros r [<-|Hr] Habs.
           ++ exists sim. split; [exact Hsim|]. intros _.
              eexists. split; [now left|]. split; reflexivity.
           ++ eapply candidate_scored_more; [|now apply Hall].
              intros d Hd. now right.
      * destruct (IH _ _ Hrun) as [new [-> [Hnew Hall]]].
        exists new. split; [reflexivity|]. split; [now apply Hweak|].
        intros r [<-|Hr] Habs; [|now apply Hall].
        exists sim. split; [exact Hsim|]. simpl. rewrite Hthr. discriminate.
Qed.

Lemma process_signals_spec db coll sigs : forall acc found,
  Chroma.process_signals format_2f db coll sigs acc = Some found ->
  exists new,
    found = acc ++ new /\
    Forall (chroma_origin db coll sigs) new /\
    (forall s emb r,
       In s sigs ->
       Chroma.signal_embedding_of db (s_id s) = Some emb ->
       In r (coll emb TOP_K) ->
       existsb (same_pair (s_id s) (fst r)) (associations db) = false ->
       candidate_scored new (s_id s) r).
Proof.
  induction sigs as [|s sigs IH]; intros acc found Hrun; simpl in Hrun.
  - injection Hrun as <-. exists []. rewrite app_nil_r.
    split; [reflexivity|]. split; [constructor|]. intros s emb r [].
  - assert (Hweak : forall new,
               Forall (chroma_origin db coll sigs) new ->
               Forall (chroma_origin db coll (s :: sigs)) new).
    { intros new. apply Forall_impl. intros d [s' [emb [Hs' H]]].
      exists s', emb. split; [now right|exact H]. }
    destruct (Chroma.signal_embedding_of db (s_id s)) as [emb|] eqn:Hemb.
    + destruct (Chroma.process_results _ _ _ _ _) as [mid|] eqn:Hres; [|discriminate].
      destruct (process_results_spec _ _ _ _ _ Hres) as [n1 [-> [Hn1 Hall1]]].
      destruct (IH _ _ Hrun) as [n2 [-> [Hn2 Hall2]]].
      exists (n1 ++ n2). split; [now rewrite app_assoc|]. split.
      * apply Forall_app. split; [|now apply Hweak].
        eapply Forall_impl; [|exact Hn1]. intros d Hd.
        exists s, emb. split; [now left|]. split; [exact Hemb|exact Hd].
      * intros s' emb' r [<-|Hs'] Hemb' Hr Habs.
        -- rewrite Hemb in Hemb'. injection Hemb' as <-.
           eapply candidate_scored_more; [|now apply Hall1].
           intros d Hd. apply in_or_app. now left.
        -- eapply candidate_scored_more; [|now apply (Hall2 s' emb' r)].
           intros d Hd. apply in_or_app. now right.
    + destruct (IH _ _ Hrun) as [new [-> [Hnew Hall]]].
      exists new. split; [reflexivity|]. split; [now apply Hweak|].
      intros s' emb' r [<-|Hs'] Hemb' Hr Habs; [congruence|].
      now apply (Hall s' emb' r).
Qed.

Lemma process_results_none_pass db signal_id results : forall acc,
  (forall r, In r results -> candidate_passed_over db signal_id r) ->
  Chroma.process_results format_2f db signal_id results acc = Some acc.
Proof.
  induction results as [|[issue_id distance] results IH]; intros acc Hall; simpl;
    [reflexivity|].
  assert (IH' : Chroma.process_results format_2f db signal_id results acc = Some acc).
  { apply IH. intros r Hr. apply Hall. now right. }
  destruct (Hall _ (or_introl eq_refl)) as [Hex|[sim [Hsim Hthr]]]; simpl in *.
  - rewrite Hex. exact IH'.
  - destruct (existsb _ _); [exact IH'|]. rewrite Hsim, Hthr. exact IH'.
Qed.

Lemma process_signals_none_pass db coll sigs : forall acc,
  (forall s emb r,
     In s sigs ->
     Chroma.signal_embedding_of db (s_id s) = Some emb ->
     In r (coll emb TOP_K) ->
     candidate_passed_over db (s_id s) r) ->
  Chroma.process_signals format_2f db coll sigs acc = Some acc.
Proof.
  induction sigs as [|s sigs IH]; intros acc Hall; simpl; [reflexivity|].
  assert (IH' : Chroma.process_signals format_2f db coll sigs acc = Some acc).
  { apply IH. intros s' emb r Hs'. apply Hall. now right. }
  destruct (Chroma.signal_embedding_of db (s_id s)) as [emb|] eqn:Hemb; [|exact IH'].
  rewrite process_results_none_pass; [exact IH'|].
  intros r Hr. apply (Hall s emb r); auto. now left.
Qed.

Lemma chroma_run_cases db coll :
  Chroma.run_associations format_2f db coll = db \/
  exists found,
    Chroma.process_signals format_2f db coll (signals db) [] = Some found /\
    Chroma.run_associations format_2f db coll = save_associations db found.
Proof.
  unfold Chroma.run_associations, Chroma.generate_associations_with_chroma.
  destruct (Chroma.process_signals _ _ _ _ _) as [found|]; [|now left].
  right. exists found. split; reflexivity.
Qed.

Lemma chroma_run_idempotent db coll :
  Chroma.run_associations format_2f (Chroma.run_associations format_2f db coll) coll
  = Chroma.run_associations format_2f db coll.
Proof.
  destruct (chroma_run_cases db coll) as [Hsame|[found [Hs Hrun]]].
  - rewrite Hsame. exact Hsame.
  - rewrite Hrun.
    unfold Chroma.run_associations, Chroma.generate_associations_with_chroma.
    rewrite process_signals_none_pass; [apply save_associations_nil|].
    intros s emb r Hin Hemb Hr.
    destruct (process_signals_spec _ _ _ _ _ Hs) as [new [Hfound [_ Hall]]].
    simpl in Hfound. subst new.
    unfold candidate_passed_over.
    destruct (existsb (same_pair (s_id s) (fst r))
                      (associations (save_associations db found))) eqn:Hex;
      [now left|right].
    simpl in Hex, Hin.
    pose proof (save_not_present _ _ _ _ Hex) as Habs.
    destruct (Hall s emb r Hin Hemb Hr Habs) as [sim [Hsim Hpass]].
    exists sim. split; [exact Hsim|].
    destruct (SIMILARITY_THRESHOLD <=? sim)%float eqn:Hthr; [|reflexivity].
    destruct (Hpass eq_refl) as [d [Hd [Hs1 Hi1]]].
    pose proof (save_present found (associations db) d Hd) as Hpres.
    rewrite Hs1, Hi1 in Hpres. rewrite Hpres in Hex. discriminate.
Qed.
End ChromaLoop.

(* ================================================================== *)
(** * Idempotence of association computation *)

(** C3: a second run of association computation, right after a first
    one on the same signals, issues, embeddings and threshold (and, for the
    indexed script, the same index), leaves the store exactly as the first
    run left it: no row is added.  This holds for [compute_associations]
    and for [generate_associations_with_chroma]. *)
Theorem association_runs_idempotent
  (format_2f : float -> string) (db : DB) (issues_collection : Chroma.collection) :
  let after_local := Local.run_associations format_2f db in
  let after_chroma := Chroma.run_associations format_2f db issues_collection in
  Local.run_associations format_2f after_local = after_local /\
  Db.get_associations_count (Local.run_associations format_2f after_local)
    = Db.get_associations_count after_local /\
  Chroma.run_associations format_2f after_chroma issues_collection = after_chroma /\
  Db.get_associations_count
    (Chroma.run_associations format_2f after_chroma issues_collection)
    = Db.get_associations_count after_chroma.
Proof.
  cbv zeta.
  rewrite local_run_idempotent, chroma_run_idempotent. repeat split.
Qed.

(* ================================================================== *)
(** * Threshold correctness *)

Section Provenance.
Variable format_2f : float -> string.

Lemma local_run_provenance db a :
  In a (associations (Local.run_associations format_2f db)) ->
  In a (associations db) \/
  exists p,
    In p (Local.pairs_to_process db) /\
    a_signal_id a = Local.p_signal_id p /\
    a_issue_id a = Local.p_issue_id p /\
    cosine_similarity (Local.p_signal_embedding p) (Local.p_issue_embedding p)
      = Some (a_score a) /\
    (SIMILARITY_THRESHOLD <=? a_score a)%float = true.
Proof.
  destruct (local_run_cases format_2f db) as [->|[found [Hs ->]]]; [now left|].
  simpl. intros Hin.
  destruct (save_In _ _ _ Hin) as [H|[d [Hd [Hsid [Hiid [Hsc _]]]]]]; [now left|right].
  destruct (score_pairs_spec _ _ _ _ Hs) as [new [Hfound [Hnew _]]].
  simpl in Hfound. subst new.
  rewrite Forall_forall in Hnew.
  destruct (Hnew d Hd) as [p [Hp [H1 [H2 [H3 H4]]]]].
  exists p. rewrite Hsid, Hiid, Hsc. auto.
Qed.

Lemma chroma_run_provenance db coll a :
  In a (associations (Chroma.run_associations format_2f db coll)) ->
  In a (associations db) \/
  exists s emb r,
    In s (signals db) /\
    Chroma.signal_embedding_of db (s_id s) = Some emb /\
    In r (coll emb TOP_K) /\
    a_signal_id a = s_id s /\
    a_issue_id a = fst r /\
    Chroma.similarity_of (snd r) = Some (a_score a) /\
    (SIMILARITY_THRESHOLD <=? a_score a)%float = true.
Proof.
  destruct (chroma_run_cases format_2f db coll) as [->|[found [Hs ->]]]; [now left|].
  simpl. intros Hin.
  destruct (save_In _ _ _ Hin) as [H|[d [Hd [Hsid [Hiid [Hsc _]]]]]]; [now left|right].
  destruct (process_signals_spec _ _ _ _ _ _ Hs) as [new [Hfound [Hnew _]]].
  simpl in Hfound. subst new.
  rewrite Forall_forall in Hnew.
  destruct (Hnew d Hd) as [s [emb [Hin_s [Hemb [r [Hr [_ [H1 [H2 [H3 H4]]]]]]]]]].
  exists s, emb, r. rewrite Hsid, Hiid, Hsc. auto 10.
Qed.

Lemma invoke_keeps_threshold db i :
  (forall a, In a (associations db) ->
             (SIMILARITY_THRESHOLD <=? a_score a)%float = true) ->
  forall a, In a (associations (invoke format_2f db i)) ->
            (SIMILARITY_THRESHOLD <=? a_score a)%float = true.
Proof.
  intros Hall a Hin. destruct i as [|coll|sigs iss sembs iembs]; simpl in Hin.
  - destruct (local_run_provenance _ _ Hin) as [H|[p [_ [_ [_ [_ H]]]]]]; auto.
  - destruct (chroma_run_provenance _ _ _ Hin)
      as [H|[s [emb [r [_ [_ [_ [_ [_ [_ H]]]]]]]]]]; auto.
  - auto.
Qed.

Lemma invoke_all_keeps_threshold runs : forall db,
  (forall a, In a (associations db) ->
             (SIMILARITY_THRESHOLD <=? a_score a)%float = true) ->
  forall a, In a (associations (invoke_all format_2f db runs)) ->
            (SIMILARITY_THRESHOLD <=? a_score a)%float = true.
Proof.
  induction runs as [|i runs IH]; intros db Hall; simpl; [exact Hall|].
  apply IH. now apply invoke_keeps_threshold.
Qed.

Lemma NoDup_map_eq {A B} (f : A -> B) l x y :
  NoDup (map f l) -> In x l -> In y l -> f x = f y -> x = y.
Proof.
  induction l as [|z l IH]; simpl; [contradiction|].
  intros Hnd Hx Hy Hf. inversion Hnd as [|? ? Hz Hl]; subst.
  destruct Hx as [->|Hx], Hy as [->|Hy]; auto.
  - exfalso. apply Hz. rewrite Hf. now apply in_map.
  - exfalso. apply Hz. rewrite <- Hf. now apply in_map.
Qed.

Lemma save_stored_origin found tbl s i :
  existsb (same_pair s i) (fold_left insert_or_ignore found tbl) = true ->
  existsb (same_pair s i) tbl = true \/
  exists d, In d found /\ d_signal_id d = s /\ d_issue_id d = i.
Proof.
  intros Hex. apply existsb_exists in Hex. destruct Hex as [a [Ha Hp]].
  apply same_pair_true in Hp. destruct Hp as [Hs Hi].
  destruct (save_In _ _ _ Ha) as [H|[d [Hd [Hsid [Hiid _]]]]].
  - left. apply existsb_exists. exists a. split; [exact H|].
    now apply same_pair_true.
  - right. exists d. split; [exact Hd|]. split; congruence.
Qed.

(** With one embedding per signal and per issue, a pair that the
    exhaustive run scores below the threshold has no row after the run. *)
Lemma local_below_threshold_not_stored db p score :
  NoDup (map se_signal_id (signal_embeddings db)) ->
  NoDup (map ie_issue_id (issue_embeddings db)) ->
  In p (Local.pairs_to_process db) ->
  cosine_similarity (Local.p_signal_embedding p) (Local.p_issue_embedding p)
    = Some score ->
  (SIMILARITY_THRESHOLD <=? score)%float = false ->
  Db.get_association (Local.run_associations format_2f db)
                     (Local.p_signal_id p) (Local.p_issue_id p) = None.
Proof.
  intros Hse Hie Hp Hcos Hthr.
  pose proof (pairs_to_process_not_associated _ _ Hp) as Habs.
  unfold Db.get_association. apply find_none_iff. intros a Ha.
  destruct (same_pair _ _ a) eqn:Hpair; [exfalso|reflexivity].
  assert (Hex : existsb (same_pair (Local.p_signal_id p) (Local.p_issue_id p))
                        (associations (Local.run_associations format_2f db)) = true)
    by (apply existsb_exists; eauto).
  destruct (local_run_cases format_2f db) as [Hr|[found [Hs Hr]]];
    rewrite Hr in Hex; [congruence|].
  simpl in Hex.
  destruct (save_stored_origin _ _ _ _ Hex) as [H|[d [Hd [Hsid Hiid]]]]; [congruence|].
  destruct (score_pairs_spec _ _ _ _ Hs) as [new [Hfound [Hnew _]]].
  simpl in Hfound. subst new. rewrite Forall_forall in Hnew.
  destruct (Hnew d Hd) as [q [Hq [Hqs [Hqi [Hqcos Hqthr]]]]].
  assert (Heq : q = p).
  { apply pairs_to_process_In in Hp. apply pairs_to_process_In in Hq.
    destruct Hp as [se [ie [Hse1 [Hie1 [_ ->]]]]].
    destruct Hq as [se' [ie' [Hse2 [Hie2 [_ ->]]]]]. simpl in *.
    assert (se' = se) by (eapply NoDup_map_eq; eauto; congruence).
    assert (ie' = ie) by (eapply NoDup_map_eq; eauto; congruence).
    now subst. }
  subst q. rewrite Hcos in Hqcos. injection Hqcos as ->. congruence.
Qed.

(** When the query lists no issue twice, a candidate that the indexed
    run scores below the threshold has no row after the run. *)
Lemma chroma_below_threshold_not_stored db coll s emb r similarity :
  In s (signals db) ->
  Chroma.signal_embedding_of db (s_id s) = Some emb ->
  NoDup (map fst (coll emb TOP_K)) ->
  In r (coll emb TOP_K) ->
  Db.get_association db (s_id s) (fst r) = None ->
  Chroma.similarity_of (snd r) = Some similarity ->
  (SIMILARITY_THRESHOLD <=? similarity)%float = false ->
  Db.get_association (Chroma.run_associations format_2f db coll) (s_id s) (fst r)
  = None.
Proof.
  intros Hin Hemb Hnd Hr Hnone Hsim Hthr.
  destruct (chroma_run_cases format_2f db coll) as [->|[found [Hs ->]]]; [exact Hnone|].
  unfold Db.get_association in *. apply find_none_iff. intros a Ha.
  destruct (same_pair _ _ a) eqn:Hpair; [exfalso|reflexivity].
  assert (Hex : existsb (same_pair (s_id s) (fst r))
                        (associations (save_associations db found)) = true)
    by (apply existsb_exists; eauto).
  simpl in Hex.
  destruct (save_stored_origin _ _ _ _ Hex) as [H|[d [Hd [Hsid Hiid]]]].
  - apply existsb_exists in H. destruct H as [a0 [Ha0 Hp0]].
    rewrite (find_none _ _ Hnone a0 Ha0) in Hp0. discriminate.
  - destruct (process_signals_spec _ _ _ _ _ _ Hs) as [new [Hfound [Hnew _]]].
    simpl in Hfound. subst new. rewrite Forall_forall in Hnew.
    destruct (Hnew d Hd) as [s' [emb' [_ [Hemb' [r' [Hr' [_ [Hds [Hdi [Hdsim Hdthr]]]]]]]]]].
    assert (Hids : s_id s' = s_id s) by congruence.
    rewrite Hids, Hemb in Hemb'. injection Hemb' as <-.
    assert (Heq : r' = r) by (eapply NoDup_map_eq; eauto; congruence).
    subst r'. rewrite Hsim in Hdsim. injection Hdsim as ->. congruence.
Qed.
End Provenance.

(** C2: if every stored association has a score at or above
    [SIMILARITY_THRESHOLD] (as in the empty table), so has every association
    stored after any sequence of runs of either script; a row that a run
    adds carries the similarity that this run computed for its pair, which
    passed the threshold test; and a pair that a run scores below the
    threshold has no row after the run (with one embedding per signal and
    per issue in the exhaustive script, and a query that lists no issue
    twice in the indexed one, so that the pair has one score). *)
Theorem threshold_correctness
  (format_2f : float -> string) (db : DB) (runs : list invocation)
  (issues_collection : Chroma.collection) :
  (forall a, In a (associations db) ->
             (SIMILARITY_THRESHOLD <=? a_score a)%float = true) ->
  (forall a, In a (associations (invoke_all format_2f db runs)) ->
             (SIMILARITY_THRESHOLD <=? a_score a)%float = true) /\
  (forall a, In a (associations (Local.run_associations format_2f db)) ->
     In a (associations db) \/
     exists p,
       In p (Local.pairs_to_process db) /\
       a_signal_id a = Local.p_signal_id p /\
       a_issue_id a = Local.p_issue_id p /\
       cosine_similarity (Local.p_signal_embedding p) (Local.p_issue_embedding p)
         = Some (a_score a) /\
       (SIMILARITY_THRESHOLD <=? a_score a)%float = true) /\
  (forall a,
     In a (associations (Chroma.run_associations format_2f db issues_collection)) ->
     In a (associations db) \/
     exists s emb r,
       In s (signals db) /\
       Chroma.signal_embedding_of db (s_id s) = Some emb /\
       In r (issues_collection emb TOP_K) /\
       a_signal_id a = s_id s /\
       a_issue_id a = fst r /\
       Chroma.similarity_of (snd r) = Some (a_score a) /\
       (SIMILARITY_THRESHOLD <=? a_score a)%float = true) /\
  (forall p score,
     NoDup (map se_signal_id (signal_embeddings db)) ->
     NoDup (map ie_issue_id (issue_embeddings db)) ->
     In p (Local.pairs_to_process db) ->
     cosine_similarity (Local.p_signal_embedding p) (Local.p_issue_embedding p)
       = Some score ->
     (SIMILARITY_THRESHOLD <=? score)%float = false ->
     Db.get_association (Local.run_associations format_2f db)
                        (Local.p_signal_id p) (Local.p_issue_id p) = None) /\
  (forall s emb r similarity,
     In s (signals db) ->
     Chroma.signal_embedding_of db (s_id s) = Some emb ->
     NoDup (map fst (issues_collection emb TOP_K)) ->
     In r (issues_collection emb TOP_K) ->
     Db.get_association db (s_id s) (fst r) = None ->
     Chroma.similarity_of (snd r) = Some similarity ->
     (SIMILARITY_THRESHOLD <=? similarity)%float = false ->
     Db.get_association
       (Chroma.run_associations format_2f db issues_collection) (s_id s) (fst r)
     = None).
Proof.
  intros Hall. split; [|split; [|split; [|split]]].
  - now apply invoke_all_keeps_threshold.
  - apply local_run_provenance.
  - apply chroma_run_provenance.
  - intros p score. apply local_below_threshold_not_stored.
  - intros s emb r similarity. apply chroma_below_threshold_not_stored.
Qed.

(** The theorem at the sample store, after a first run has stored the
    pair (1, ENG-1): three more runs keep every score at or above the
    threshold, and the pair (1, ENG-2), which scores 0 in the exhaustive
    script and 1/3 in the indexed one, gets no row. *)
Lemma threshold_correctness_witness :
  let db := Local.run_associations no_format sample_db in
  let runs := [RunLocal; RunChroma sample_collection; RunLocal] in
  (forall a, In a (associations (invoke_all no_format db runs)) ->
             (SIMILARITY_THRESHOLD <=? a_score a)%float = true) /\
  Db.get_association (Local.run_associations no_format db) 1 "ENG-2" = None /\
  Db.get_association
    (Chroma.run_associations no_format db sample_collection) 1 "ENG-2" = None.
Proof.
  intros db runs.
  destruct (threshold_correctness no_format db runs sample_collection)
    as [Hinv [_ [_ [Hlocal Hchroma]]]].
  { intros a [<-|[]]. reflexivity. }
  split; [exact Hinv|]. split.
  - apply (Hlocal {| Local.p_signal_id := 1%Z;
                     Local.p_signal_embedding := [1; 0]%float;
                     Local.p_issue_id := "ENG-2"%string;
                     Local.p_issue_embedding := [0; 1]%float |} 0%float).
    + repeat constructor; simpl; tauto.
    + repeat constructor; simpl; intuition discriminate.
    + left. reflexivity.
    + reflexivity.
    + reflexivity.
  - apply (Hchroma (sample_signal 1 "login fails") [1; 0]%float
                   ("ENG-2"%string, 2%float) (1 / 3)%float).
    + left. reflexivity.
    + reflexivity.
    + repeat constructor; simpl; intuition discriminate.
    + right. left. reflexivity.
    + reflexivity.
    + reflexivity.
    + reflexivity.
Defined.

(** A pair scored below the threshold leaves no row: of the two pairs
    of the sample store, only the one that scores 0.8 is written; the
    orthogonal pair, which scores 0, is not. *)
Example sample_below_threshold_not_stored :
  cosine_similarity [1; 0]%float [0; 1]%float = Some 0%float /\
  Db.get_association (Local.run_associations no_format sample_db) 1 "ENG-2" = None /\
  Db.get_association
    (Chroma.run_associations no_format sample_db sample_collection) 1 "ENG-2" = None.
Proof. repeat split; vm_compute; reflexivity. Qed.

(* ================================================================== *)
(** * Which pairs a run scores *)

(** C5, as stated, at a concrete input: in the sample store the pair
    (1, ENG-2) is scored by a first run of either script, gets no row
    because it scores below the threshold, and is scored again by a second
    run over the unchanged corpus. *)
Lemma rescoring_counterexample :
  let after_local := Local.run_associations no_format sample_db in
  let after_chroma := Chroma.run_associations no_format sample_db sample_collection in
  In (1%Z, "ENG-2"%string) (Local.scored_pairs sample_db) /\
  In (1%Z, "ENG-2"%string) (Local.scored_pairs after_local) /\
  In (1%Z, "ENG-2"%string) (Chroma.scored_pairs sample_db sample_collection) /\
  In (1%Z, "ENG-2"%string) (Chroma.scored_pairs after_chroma sample_collection).
Proof.
  vm_compute. intuition.
Qed.

Section Scoring.
Variable format_2f : float -> string.

Lemma get_association_none db s i :
  Db.get_association db s i = None <->
  existsb (same_pair s i) (associations db) = false.
Proof.
  unfold Db.get_association. rewrite find_none_iff. split.
  - intros H. destruct (existsb _ _) eqn:E; [|reflexivity].
    apply existsb_exists in E. destruct E as [a [Ha Hp]].
    rewrite (H a Ha) in Hp. discriminate.
  - intros E a Ha. destruct (same_pair s i a) eqn:Hp; [|reflexivity].
    assert (Hex : existsb (same_pair s i) (associations db) = true)
      by (apply existsb_exists; eauto).
    congruence.
Qed.

(** ** The exhaustive script *)

Lemma scored_incl pairs k :
  In k (Local.scored pairs) ->
  exists p, In p pairs /\ k = (Local.p_signal_id p, Local.p_issue_id p).
Proof.
  induction pairs as [|p pairs IH]; simpl; [contradiction|].
  destruct (cosine_similarity _ _); [|contradiction].
  intros [<-|Hin].
  - exists p. split; [now left|reflexivity].
  - destruct (IH Hin) as [q [Hq ->]]. exists q. split; [now right|reflexivity].
Qed.

Lemma scored_all pairs :
  (forall p, In p pairs ->
     exists score,
       cosine_similarity (Local.p_signal_embedding p) (Local.p_issue_embedding p)
       = Some score) ->
  Local.scored pairs
  = map (fun p => (Local.p_signal_id p, Local.p_issue_id p)) pairs.
Proof.
  induction pairs as [|p pairs IH]; intros Hall; simpl; [reflexivity|].
  destruct (Hall p (or_introl eq_refl)) as [score ->].
  f_equal. apply IH. intros q Hq. apply Hall. now right.
Qed.

Lemma local_scored_not_stored db s i :
  In (s, i) (Local.scored_pairs db) ->
  existsb (same_pair s i) (associations db) = false.
Proof.
  intros Hin. apply scored_incl in Hin. destruct Hin as [p [Hp Hkey]].
  injection Hkey as -> ->. now apply pairs_to_process_not_associated.
Qed.

Lemma pairs_after_save db found p :
  In p (Local.pairs_to_process (save_associations db found)) ->
  In p (Local.pairs_to_process db).
Proof.
  rewrite !pairs_to_process_In. intros [se [ie [Hse [Hie [E ->]]]]].
  exists se, ie. simpl in *. repeat split; auto.
  eapply save_not_present; eassumption.
Qed.

Lemma local_rescored db s i :
  In (s, i) (Local.scored_pairs db) ->
  Db.get_association (Local.run_associations format_2f db) s i = None ->
  In (s, i) (Local.scored_pairs (Local.run_associations format_2f db)).
Proof.
  intros Hin Hnone.
  destruct (local_run_cases format_2f db) as [->|[found [Hs Hrun]]]; [exact Hin|].
  rewrite Hrun in *. apply get_association_none in Hnone.
  destruct (score_pairs_spec _ _ _ _ Hs) as [new [_ [_ Hall]]].
  unfold Local.scored_pairs. rewrite scored_all.
  - apply scored_incl in Hin. destruct Hin as [p [Hp Hkey]].
    apply in_map_iff. exists p. split; [now symmetry|].
    injection Hkey as -> ->.
    apply pairs_to_process_In in Hp. apply pairs_to_process_In.
    destruct Hp as [se [ie [Hse [Hie [_ ->]]]]]. exists se, ie. auto.
  - intros p Hp. apply pairs_after_save in Hp.
    destruct (Hall p Hp) as [score [Hcos _]]. now exists score.
Qed.

(** ** The indexed script *)

Lemma scored_results_incl db signal_id results k :
  In k (fst (Chroma.scored_results db signal_id results)) ->
  exists r, In r results /\
            existsb (same_pair signal_id (fst r)) (associations db) = false /\
            k = (signal_id, fst r).
Proof.
  induction results as [|[issue_id distance] results IH]; simpl; [contradiction|].
  destruct (existsb _ _) eqn:E.
  - intros Hin. destruct (IH Hin) as [r [Hr H]]. exists r. split; [now right|exact H].
  - destruct (Chroma.similarity_of distance); [|contradiction].
    destruct (Chroma.scored_results db signal_id results) as [l completed].
    simpl in *. intros [<-|Hin].
    + exists (issue_id, distance). split; [now left|]. split; [exact E|reflexivity].
    + destruct (IH Hin) as [r [Hr H]]. exists r. split; [now right|exact H].
Qed.

Lemma scored_signals_incl db coll sigs s i :
  In (s, i) (Chroma.scored_signals db coll sigs) ->
  existsb (same_pair s i) (associations db) = false /\ candidate db coll sigs s i.
Proof.
  induction sigs as [|sig sigs IH]; simpl; [contradiction|].
  assert (Hweak : candidate db coll sigs s i -> candidate db coll (sig :: sigs) s i).
  { intros [sg [emb [r [Hsg H]]]]. exists sg, emb, r. split; [now right|exact H]. }
  destruct (Chroma.signal_embedding_of db (s_id sig)) as [emb|] eqn:Hemb.
  - destruct (Chroma.scored_results db (s_id sig) (coll emb TOP_K))
      as [l completed] eqn:Hsr.
    assert (Hhere : In (s, i) l ->
              existsb (same_pair s i) (associations db) = false /\
              candidate db coll (sig :: sigs) s i).
    { intros Hin.
      destruct (scored_results_incl db (s_id sig) (coll emb TOP_K) (s, i))
        as [r [Hr [E Hkey]]]; [now rewrite Hsr|].
      injection Hkey as -> ->. split; [exact E|].
      exists sig, emb, r. split; [now left|]. auto. }
    destruct completed; [|exact Hhere].
    rewrite in_app_iff. intros [Hin|Hin]; [now apply Hhere|].
    destruct (IH Hin) as [E Hc]. split; [exact E|now apply Hweak].
  - intros Hin. destruct (IH Hin) as [E Hc]. split; [exact E|now apply Hweak].
Qed.

Lemma scored_results_covers db signal_id results :
  (forall r, In r results ->
     existsb (same_pair signal_id (fst r)) (associations db) = false ->
     exists similarity, Chroma.similarity_of (snd r) = Some similarity) ->
  snd (Chroma.scored_results db signal_id results) = true /\
  (forall r, In r results ->
     existsb (same_pair signal_id (fst r)) (associations db) = false ->
     In (signal_id, fst r) (fst (Chroma.scored_results db signal_id results))).
Proof.
  induction results as [|[issue_id distance] results IH]; intros Hall; simpl.
  - split; [reflexivity|]. intros r [].
  - destruct IH as [Hdone Hcov]; [intros r Hr; apply Hall; now right|].
    destruct (existsb _ _) eqn:E.
    + split; [exact Hdone|]. intros r [<-|Hr] Habs; [simpl in Habs; congruence|].
      now apply Hcov.
    + destruct (Hall _ (or_introl eq_refl) E) as [sim Hsim]. simpl in Hsim.
      rewrite Hsim.
      destruct (Chroma.scored_results db signal_id results) as [l completed].
      simpl in *. split; [exact Hdone|].
      intros r [<-|Hr] Habs; [now left|]. right. now apply Hcov.
Qed.

Lemma scored_signals_covers db coll sigs s i :
  (forall sig emb r,
     In sig sigs -> Chroma.signal_embedding_of db (s_id sig) = Some emb ->
     In r (coll emb TOP_K) ->
     existsb (same_pair (s_id sig) (fst r)) (associations db) = false ->
     exists similarity, Chroma.similarity_of (snd r) = Some similarity) ->
  candidate db coll sigs s i ->
  existsb (same_pair s i) (associations db) = false ->
  In (s, i) (Chroma.scored_signals db coll sigs).
Proof.
  induction sigs as [|sig sigs IH]; intros Hall [sg [emb [r [Hsg [Hid [Hemb [Hr Hi]]]]]]] E;
    [contradiction|]. simpl.
  assert (IH' : In sg sigs -> In (s, i) (Chroma.scored_signals db coll sigs)).
  { intros Hin. apply IH; [|exists sg, emb, r; auto|exact E].
    intros sig' emb' r' Hs'. apply Hall. now right. }
  destruct (Chroma.signal_embedding_of db (s_id sig)) as [emb0|] eqn:Hemb0.
  - destruct (scored_results_covers db (s_id sig) (coll emb0 TOP_K)) as [Hdone Hcov].
    { intros r' Hr'. apply (Hall sig emb0 r'); auto. now left. }
    destruct (Chroma.scored_results db (s_id sig) (coll emb0 TOP_K)) as [l completed].
    simpl in *. subst completed. apply in_or_app.
    destruct Hsg as [->|Hsg]; [left|right; now apply IH'].
    subst s i. rewrite Hemb0 in Hemb. injection Hemb as ->.
    now apply Hcov.
  - destruct Hsg as [->|Hsg]; [subst s; congruence|now apply IH'].
Qed.

Lemma chroma_scored_not_stored db coll s i :
  In (s, i) (Chroma.scored_pairs db coll) ->
  existsb (same_pair s i) (associations db) = false.
Proof. intros Hin. now apply scored_signals_incl in Hin. Qed.

Lemma chroma_rescored db coll s i :
  In (s, i) (Chroma.scored_pairs db coll) ->
  Db.get_association (Chroma.run_associations format_2f db coll) s i = None ->
  In (s, i) (Chroma.scored_pairs (Chroma.run_associations format_2f db coll) coll).
Proof.
  intros Hin Hnone.
  destruct (chroma_run_cases format_2f db coll) as [->|[found [Hs Hrun]]]; [exact Hin|].
  rewrite Hrun in *. apply get_association_none in Hnone.
  destruct (process_signals_spec _ _ _ _ _ _ Hs) as [new [_ [_ Hall]]].
  apply scored_signals_incl in Hin. destruct Hin as [_ Hcand].
  unfold Chroma.scored_pairs. apply scored_signals_covers.
  - intros sig emb r Hsig Hemb Hr Habs. simpl in *.
    pose proof (save_not_present _ _ _ _ Habs) as Habs0.
    destruct (Hall sig emb r Hsig Hemb Hr Habs0) as [sim [Hsim _]]. now exists sim.
  - exact Hcand.
  - exact Hnone.
Qed.

Lemma invoke_all_keeps_pair runs db s i :
  existsb (same_pair s i) (associations db) = true ->
  existsb (same_pair s i) (associations (invoke_all format_2f db runs)) = true.
Proof.
  intros H. destruct (invoke_all_extends format_2f runs db) as [new ->].
  now apply existsb_app_true.
Qed.
End Scoring.

(** C5 (amended): a pair that has a stored association is not scored
    by any later run of either script, whatever runs and corpus changes come
    in between; a pair that a run scores without storing a row for it (it
    scored below the threshold) is scored once more by the next run over the
    unchanged corpus. *)
Theorem stored_pairs_never_rescored
  (format_2f : float -> string) (db : DB) (runs : list invocation)
  (issues_collection : Chroma.collection) (s : Z) (i : string) :
  (existsb (same_pair s i) (associations db) = true ->
   ~ In (s, i) (Local.scored_pairs (invoke_all format_2f db runs)) /\
   ~ In (s, i) (Chroma.scored_pairs (invoke_all format_2f db runs) issues_collection)) /\
  (In (s, i) (Local.scored_pairs db) ->
   Db.get_association (Local.run_associations format_2f db) s i = None ->
   In (s, i) (Local.scored_pairs (Local.run_associations format_2f db))) /\
  (In (s, i) (Chroma.scored_pairs db issues_collection) ->
   Db.get_association
     (Chroma.run_associations format_2f db issues_collection) s i = None ->
   In (s, i) (Chroma.scored_pairs
                (Chroma.run_associations format_2f db issues_collection)
                issues_collection)).
Proof.
  split; [|split].
  - intros Hstored.
    pose proof (invoke_all_keeps_pair format_2f runs db s i Hstored) as Hkept.
    split; intros Hin.
    + apply local_scored_not_stored in Hin. congruence.
    + apply chroma_scored_not_stored in Hin. congruence.
  - apply local_rescored.
  - apply chroma_rescored.
Qed.

(** The theorem at the sample store: the stored pair (1, ENG-1) is not
    scored again, the pair (1, ENG-2) is. *)
Lemma stored_pairs_never_rescored_witness :
  let stored := Local.run_associations no_format sample_db in
  let runs := [RunChroma sample_collection; RunLocal] in
  (~ In (1%Z, "ENG-1"%string) (Local.scored_pairs (invoke_all no_format stored runs)) /\
   ~ In (1%Z, "ENG-1"%string)
        (Chroma.scored_pairs (invoke_all no_format stored runs) sample_collection)) /\
  In (1%Z, "ENG-2"%string)
     (Local.scored_pairs (Local.run_associations no_format sample_db)) /\
  In (1%Z, "ENG-2"%string)
     (Chroma.scored_pairs
        (Chroma.run_associations no_format sample_db sample_collection)
        sample_collection).
Proof.
  intros stored runs.
  destruct (stored_pairs_never_rescored no_format stored runs sample_collection
              1%Z "ENG-1"%string) as [Hstored _].
  destruct (stored_pairs_never_rescored no_format sample_db runs sample_collection
              1%Z "ENG-2"%string) as [_ [Hlocal Hchroma]].
  split; [apply Hstored; reflexivity|]. split.
  - apply Hlocal; [right; left|]; reflexivity.
  - apply Hchroma; [right; left|]; reflexivity.
Defined.

(* ================================================================== *)
(** * Embedding generation *)

Section Embeddings.
Variable encode : list string -> list (list float).

Lemma replace_signal_embedding_In tbl r e :
  In e (replace_signal_embedding tbl r) <->
  (In e tbl /\ se_signal_id e <> se_signal_id r) \/ e = r.
Proof.
  unfold replace_signal_embedding. rewrite in_app_iff, filter_In. simpl.
  rewrite negb_true_iff, Z.eqb_neq. intuition congruence.
Qed.

Lemma replace_keeps_signal_key tbl r id :
  has_signal_embedding tbl id ->
  has_signal_embedding (replace_signal_embedding tbl r) id.
Proof.
  intros [e [He <-]].
  destruct (Z.eq_dec (se_signal_id e) (se_signal_id r)) as [Heq|Hne].
  - exists r. split; [|now symmetry]. apply replace_signal_embedding_In. now right.
  - exists e. split; [|reflexivity]. apply replace_signal_embedding_In. now left.
Qed.

Lemma store_signal_embeddings_keeps_key rows : forall tbl id,
  has_signal_embedding tbl id ->
  has_signal_embedding (store_signal_embeddings rows tbl) id.
Proof.
  induction rows as [|r rows IH]; intros tbl id H; simpl; [exact H|].
  apply IH. now apply replace_keeps_signal_key.
Qed.

Lemma store_signal_embeddings_covers rows : forall tbl s emb,
  In (s, emb) rows ->
  has_signal_embedding (store_signal_embeddings rows tbl) (s_id s).
Proof.
  induction rows as [|r rows IH]; intros tbl s emb Hin; [contradiction|].
  simpl. destruct Hin as [->|Hin].
  - apply store_signal_embeddings_keeps_key. eexists. split.
    + apply replace_signal_embedding_In. right. reflexivity.
    + reflexivity.
  - eapply IH. exact Hin.
Qed.

Lemma store_signal_embeddings_keeps_row rows : forall tbl e,
  In e tbl ->
  (forall r, In r rows -> s_id (fst r) <> se_signal_id e) ->
  In e (store_signal_embeddings rows tbl).
Proof.
  induction rows as [|r rows IH]; intros tbl e He Hfresh; simpl; [exact He|].
  apply IH.
  - apply replace_signal_embedding_In. left. split; [exact He|].
    simpl. intros Heq. apply (Hfresh r (or_introl eq_refl)). now symmetry.
  - intros r' Hr'. apply Hfresh. now right.
Qed.

Lemma In_combine_total {A B} (l : list A) (l' : list B) x :
  List.length l' = List.length l -> In x l -> exists y, In (x, y) (combine l l').
Proof.
  revert l'. induction l as [|a l IH]; intros [|b l'] Hlen Hin;
    try discriminate; [contradiction|].
  simpl. destruct Hin as [->|Hin].
  - exists b. now left.
  - injection Hlen as Hlen. destruct (IH l' Hlen Hin) as [y Hy].
    exists y. now right.
Qed.

Lemma signals_without_embeddings_In db s :
  In s (Local.signals_without_embeddings db) <->
  In s (signals db) /\ ~ has_signal_embedding (signal_embeddings db) (s_id s).
Proof.
  unfold Local.signals_without_embeddings. rewrite filter_In, negb_true_iff.
  split; intros [Hin H]; (split; [exact Hin|]).
  - intros [e [He Hid]].
    assert (Hex : existsb (fun e => (s_id s =? se_signal_id e)%Z)
                          (signal_embeddings db) = true).
    { apply existsb_exists. exists e. split; [exact He|]. apply Z.eqb_eq. now symmetry. }
    congruence.
  - destruct (existsb _ _) eqn:E; [|reflexivity]. exfalso. apply H.
    apply existsb_exists in E. destruct E as [e [He Hid]].
    exists e. split; [exact He|]. apply Z.eqb_eq in Hid. now symmetry.
Qed.

Lemma generate_signal_embeddings_table db :
  signal_embeddings (Local.generate_signal_embeddings encode db) =
  store_signal_embeddings
    (combine (Local.signals_without_embeddings db)
             (encode (map signal_text (Local.signals_without_embeddings db))))
    (signal_embeddings db).
Proof.
  unfold Local.generate_signal_embeddings.
  destruct (Local.signals_without_embeddings db); reflexivity.
Qed.

(** The exhaustive script's generator: with one vector returned per
    text, it encodes the texts of exactly the signals that have no
    embedding row, leaves every signal with a row, and keeps every row that
    was stored. *)
Lemma generate_signal_embeddings_fills_missing db :
  (forall texts, List.length (encode texts) = List.length texts) ->
  let db' := Local.generate_signal_embeddings encode db in
  (forall s, In s (signals db) ->
             has_signal_embedding (signal_embeddings db') (s_id s)) /\
  (forall e, In e (signal_embeddings db) -> In e (signal_embeddings db')) /\
  Local.signals_without_embeddings db' = [] /\
  signals db' = signals db.
Proof.
  intros Hlen db'.
  assert (Hcover : forall s, In s (signals db) ->
                             has_signal_embedding (signal_embeddings db') (s_id s)).
  { intros s Hs. unfold db'. rewrite generate_signal_embeddings_table.
    destruct (existsb (fun e => (s_id s =? se_signal_id e)%Z) (signal_embeddings db))
      eqn:E.
    - apply store_signal_embeddings_keeps_key.
      apply existsb_exists in E. destruct E as [e [He Hid]].
      exists e. split; [exact He|]. apply Z.eqb_eq in Hid. now symmetry.
    - assert (Htodo : In s (Local.signals_without_embeddings db)).
      { unfold Local.signals_without_embeddings. apply filter_In.
        split; [exact Hs|]. now rewrite E. }
      destruct (In_combine_total (Local.signals_without_embeddings db)
                  (encode (map signal_text (Local.signals_without_embeddings db))) s)
        as [emb Hemb]; auto.
      + now rewrite Hlen, length_map.
      + eapply store_signal_embeddings_covers. exact Hemb. }
  assert (Hsig : signals db' = signals db).
  { unfold db', Local.generate_signal_embeddings.
    destruct (Local.signals_without_embeddings db); reflexivity. }
  split; [exact Hcover|]. split; [|split; [|exact Hsig]].
  - intros e He. unfold db'. rewrite generate_signal_embeddings_table.
    apply store_signal_embeddings_keeps_row; [exact He|].
    intros [s emb] Hr Heq. simpl in Heq. apply in_combine_l in Hr.
    apply signals_without_embeddings_In in Hr. destruct Hr as [_ Hno].
    apply Hno. exists e. split; [exact He|now symmetry].
  - destruct (Local.signals_without_embeddings db') as [|s rest] eqn:E; [reflexivity|].
    assert (Hs : In s (Local.signals_without_embeddings db')) by (rewrite E; now left).
    apply signals_without_embeddings_In in Hs. destruct Hs as [Hin Hno].
    exfalso. apply Hno. apply Hcover. now rewrite <- Hsig.
Qed.

(** The indexed script's generator writes no signal embedding once the
    table holds a row. *)
Lemma load_or_create_embeddings_only_when_empty db :
  signal_embeddings db <> [] ->
  signal_embeddings (Chroma.load_or_create_embeddings encode db) = signal_embeddings db.
Proof.
  intros Hne. unfold Chroma.load_or_create_embeddings.
  destruct (signal_embeddings db) as [|e tbl] eqn:E; [congruence|]. simpl.
  destruct (Nat.eqb _ 0); simpl; exact E.
Qed.

Lemma replace_issue_embedding_In tbl r e :
  In e (replace_issue_embedding tbl r) <->
  (In e tbl /\ ie_issue_id e <> ie_issue_id r) \/ e = r.
Proof.
  unfold replace_issue_embedding. rewrite in_app_iff, filter_In. simpl.
  rewrite negb_true_iff, String.eqb_neq. intuition congruence.
Qed.

Lemma store_issue_embeddings_keeps_key rows : forall tbl id,
  has_issue_embedding tbl id ->
  has_issue_embedding (store_issue_embeddings rows tbl) id.
Proof.
  induction rows as [|r rows IH]; intros tbl id H; simpl; [exact H|].
  apply IH. destruct H as [e [He <-]].
  destruct (string_dec (ie_issue_id e) (i_identifier (fst r))) as [Heq|Hne].
  - eexists. split; [apply replace_issue_embedding_In; right; reflexivity|].
    simpl. now symmetry.
  - exists e. split; [|reflexivity]. apply replace_issue_embedding_In. now left.
Qed.

Lemma store_issue_embeddings_covers rows : forall tbl i emb,
  In (i, emb) rows ->
  has_issue_embedding (store_issue_embeddings rows tbl) (i_identifier i).
Proof.
  induction rows as [|r rows IH]; intros tbl i emb Hin; [contradiction|].
  simpl. destruct Hin as [->|Hin].
  - apply store_issue_embeddings_keeps_key. eexists. split.
    + apply replace_issue_embedding_In. right. reflexivity.
    + reflexivity.
  - eapply IH. exact Hin.
Qed.

Lemma store_issue_embeddings_keeps_row rows : forall tbl e,
  In e tbl ->
  (forall r, In r rows -> i_identifier (fst r) <> ie_issue_id e) ->
  In e (store_issue_embeddings rows tbl).
Proof.
  induction rows as [|r rows IH]; intros tbl e He Hfresh; simpl; [exact He|].
  apply IH.
  - apply replace_issue_embedding_In. left. split; [exact He|].
    simpl. intros Heq. apply (Hfresh r (or_introl eq_refl)). now symmetry.
  - intros r' Hr'. apply Hfresh. now right.
Qed.

Lemma issues_without_embeddings_In db i :
  In i (Local.issues_without_embeddings db) <->
  In i (issues db) /\ ~ has_issue_embedding (issue_embeddings db) (i_identifier i).
Proof.
  unfold Local.issues_without_embeddings. rewrite filter_In, negb_true_iff.
  split; intros [Hin H]; (split; [exact Hin|]).
  - intros [e [He Hid]].
    assert (Hex : existsb (fun e => String.eqb (i_identifier i) (ie_issue_id e))
                          (issue_embeddings db) = true).
    { apply existsb_exists. exists e. split; [exact He|]. apply String.eqb_eq.
      now symmetry. }
    congruence.
  - destruct (existsb _ _) eqn:E; [|reflexivity]. exfalso. apply H.
    apply existsb_exists in E. destruct E as [e [He Hid]].
    exists e. split; [exact He|]. apply String.eqb_eq in Hid. now symmetry.
Qed.

Lemma generate_issue_embeddings_table db :
  issue_embeddings (Local.generate_issue_embeddings encode db) =
  store_issue_embeddings
    (combine (Local.issues_without_embeddings db)
             (encode (map issue_text (Local.issues_without_embeddings db))))
    (issue_embeddings db).
Proof.
  unfold Local.generate_issue_embeddings.
  destruct (Local.issues_without_embeddings db); reflexivity.
Qed.

(** The same for issues, which are matched on [identifier]. *)
Lemma generate_issue_embeddings_fills_missing db :
  (forall texts, List.length (encode texts) = List.length texts) ->
  let db' := Local.generate_issue_embeddings encode db in
  (forall i, In i (issues db) ->
             has_issue_embedding (issue_embeddings db') (i_identifier i)) /\
  (forall e, In e (issue_embeddings db) -> In e (issue_embeddings db')) /\
  Local.issues_without_embeddings db' = [] /\
  issues db' = issues db.
Proof.
  intros Hlen db'.
  assert (Hcover : forall i, In i (issues db) ->
                             has_issue_embedding (issue_embeddings db') (i_identifier i)).
  { intros i Hi. unfold db'. rewrite generate_issue_embeddings_table.
    destruct (existsb (fun e => String.eqb (i_identifier i) (ie_issue_id e))
                      (issue_embeddings db)) eqn:E.
    - apply store_issue_embeddings_keeps_key.
      apply existsb_exists in E. destruct E as [e [He Hid]].
      exists e. split; [exact He|]. apply String.eqb_eq in Hid. now symmetry.
    - assert (Htodo : In i (Local.issues_without_embeddings db)).
      { unfold Local.issues_without_embeddings. apply filter_In.
        split; [exact Hi|]. now rewrite E. }
      destruct (In_combine_total (Local.issues_without_embeddings db)
                  (encode (map issue_text (Local.issues_without_embeddings db))) i)
        as [emb Hemb]; auto.
      + now rewrite Hlen, length_map.
      + eapply store_issue_embeddings_covers. exact Hemb. }
  assert (Hiss : issues db' = issues db).
  { unfold db', Local.generate_issue_embeddings.
    destruct (Local.issues_without_embeddings db); reflexivity. }
  split; [exact Hcover|]. split; [|split; [|exact Hiss]].
  - intros e He. unfold db'. rewrite generate_issue_embeddings_table.
    apply store_issue_embeddings_keeps_row; [exact He|].
    intros [i emb] Hr Heq. simpl in Heq. apply in_combine_l in Hr.
    apply issues_without_embeddings_In in Hr. destruct Hr as [_ Hno].
    apply Hno. exists e. split; [exact He|now symmetry].
  - destruct (Local.issues_without_embeddings db') as [|i rest] eqn:E; [reflexivity|].
    assert (Hi : In i (Local.issues_without_embeddings db')) by (rewrite E; now left).
    apply issues_without_embeddings_In in Hi. destruct Hi as [Hin Hno].
    exfalso. apply Hno. apply Hcover. now rewrite <- Hiss.
Qed.

(** The indexed script's generator writes no issue embedding once the
    table holds a row. *)
Lemma load_or_create_issue_embeddings_only_when_empty db :
  issue_embeddings db <> [] ->
  issue_embeddings (Chroma.load_or_create_embeddings encode db) = issue_embeddings db.
Proof.
  intros Hne. unfold Chroma.load_or_create_embeddings.
  destruct (issue_embeddings db) as [|e tbl] eqn:E; [congruence|]. simpl.
  destruct (Nat.eqb _ 0); simpl; exact E.
Qed.
End Embeddings.

(** C4 at a concrete store: with signal 1 embedded and signal 2 not,
    [load_or_create_embeddings] of the indexed script writes nothing and
    signal 2 is left without an embedding, while
    [generate_signal_embeddings] of the exhaustive script embeds it and
    keeps the row of signal 1. *)
Theorem chroma_generation_skips_missing_signal :
  map s_id (Local.signals_without_embeddings partly_embedded_db) = [2%Z] /\
  Chroma.load_or_create_embeddings sample_encode partly_embedded_db
    = partly_embedded_db /\
  map s_id (Local.signals_without_embeddings
              (Chroma.load_or_create_embeddings sample_encode partly_embedded_db))
    = [2%Z] /\
  signal_embeddings (Local.generate_signal_embeddings sample_encode partly_embedded_db)
    = [ {| se_signal_id := 1; se_embedding := [1; 0]%float; se_model := MODEL_NAME |};
        {| se_signal_id := 2; se_embedding := [0; 1]%float; se_model := MODEL_NAME |} ].
Proof. repeat split; vm_compute; reflexivity. Qed.

(* ================================================================== *)
(** * Lookups by identifier *)



(* ================================================================== *)
(** * Coverage accounting *)

Lemma NoDup_map_filter {A B} (f : A -> B) (g : A -> bool) l :
  NoDup (map f l) -> NoDup (map f (filter g l)).
Proof.
  induction l as [|x l IH]; simpl; [auto|].
  intros Hnd. inversion Hnd as [|? ? Hx Hl]; subst.
  destruct (g x); simpl; [|now apply IH].
  constructor; [|now apply IH].
  intros Hin. apply Hx. apply in_map_iff in Hin. destruct Hin as [y [Hy Hin]].
  apply filter_In in Hin. apply in_map_iff. exists y. tauto.
Qed.

Lemma replace_signal_embedding_keeps_constraints tbl r ids :
  NoDup (map se_signal_id tbl) ->
  incl (map se_signal_id tbl) ids ->
  In (se_signal_id r) ids ->
  NoDup (map se_signal_id (replace_signal_embedding tbl r)) /\
  incl (map se_signal_id (replace_signal_embedding tbl r)) ids.
Proof.
  intros Hnd Hincl Hr. unfold replace_signal_embedding. rewrite map_app. simpl. split.
  - apply NoDup_app.
    + now apply NoDup_map_filter.
    + repeat constructor. intros [].
    + intros id Hin [<-|[]].
      apply in_map_iff in Hin. destruct Hin as [e [He Hin]].
      apply filter_In in Hin. destruct Hin as [_ Hne].
      apply negb_true_iff, Z.eqb_neq in Hne. congruence.
  - intros id Hin. apply in_app_or in Hin. destruct Hin as [Hin|[<-|[]]]; [|exact Hr].
    apply Hincl. apply in_map_iff in Hin. destruct Hin as [e [He Hin]].
    apply filter_In in Hin. apply in_map_iff. exists e. tauto.
Qed.

Lemma store_signal_embeddings_keeps_constraints rows ids : forall tbl,
  NoDup (map se_signal_id tbl) ->
  incl (map se_signal_id tbl) ids ->
  (forall r, In r rows -> In (s_id (fst r)) ids) ->
  NoDup (map se_signal_id (store_signal_embeddings rows tbl)) /\
  incl (map se_signal_id (store_signal_embeddings rows tbl)) ids.
Proof.
  induction rows as [|r rows IH]; intros tbl Hnd Hincl Hrows; simpl; [auto|].
  destruct (replace_signal_embedding_keeps_constraints tbl
              {| se_signal_id := s_id (fst r); se_embedding := snd r;
                 se_model := MODEL_NAME |} ids Hnd Hincl) as [Hnd' Hincl'].
  { apply Hrows. now left. }
  apply IH; auto. intros r' Hr'. apply Hrows. now right.
Qed.

(** The writers of the two scripts keep the constraints, which hold in
    the empty store. *)
Lemma signal_embedding_constraints_empty :
  signal_embedding_constraints Store.empty.
Proof. split; [constructor|intros id []]. Qed.

Lemma generate_signal_embeddings_keeps_constraints encode db :
  signal_embedding_constraints db ->
  signal_embedding_constraints (Local.generate_signal_embeddings encode db).
Proof.
  intros [Hnd Hincl]. unfold signal_embedding_constraints.
  rewrite generate_signal_embeddings_table.
  replace (signals (Local.generate_signal_embeddings encode db)) with (signals db)
    by (unfold Local.generate_signal_embeddings;
        destruct (Local.signals_without_embeddings db); reflexivity).
  apply store_signal_embeddings_keeps_constraints; auto.
  intros [s emb] Hr. simpl. apply in_combine_l in Hr.
  apply filter_In in Hr. apply in_map. tauto.
Qed.

Lemma load_or_create_embeddings_keeps_constraints encode db :
  signal_embedding_constraints db ->
  signal_embedding_constraints (Chroma.load_or_create_embeddings encode db).
Proof.
  intros [Hnd Hincl]. unfold signal_embedding_constraints, Chroma.load_or_create_embeddings.
  assert (Hfill :
    NoDup (map se_signal_id
      (store_signal_embeddings (combine (signals db) (encode (map signal_text (signals db))))
                               (signal_embeddings db))) /\
    incl (map se_signal_id
      (store_signal_embeddings (combine (signals db) (encode (map signal_text (signals db))))
                               (signal_embeddings db)))
         (map s_id (signals db))).
  { apply store_signal_embeddings_keeps_constraints; auto.
    intros [s emb] Hr. simpl. apply in_combine_l in Hr. now apply in_map. }
  destruct (Nat.eqb (List.length (signal_embeddings db)) 0);
    destruct (Nat.eqb (List.length (issue_embeddings db)) 0); simpl; auto.
Qed.

Lemma invoke_run_keeps_constraints format_2f db i :
  match i with CorpusChange _ _ _ _ => False | _ => True end ->
  signal_embedding_constraints db ->
  signal_embedding_constraints (invoke format_2f db i).
Proof.
  intros Hrun Hc. destruct i as [|coll|sigs iss sembs iembs]; simpl; [| |contradiction].
  - destruct (local_run_cases format_2f db) as [->|[found [_ ->]]]; exact Hc.
  - destruct (chroma_run_cases format_2f db coll) as [->|[found [_ ->]]]; exact Hc.
Qed.

(** C9: under the constraints of the [signal_embeddings] table, the
    [signal_embedded] count of [get_embeddings_status] is at most
    [signal_total], and it is the number of distinct signal identifiers
    that have an embedding row. *)
Theorem coverage_accounting (db : DB) :
  signal_embedding_constraints db ->
  (Db.signal_embedded (Db.get_embeddings_status db)
   <= Db.signal_total (Db.get_embeddings_status db))%nat /\
  Db.signal_embedded (Db.get_embeddings_status db)
  = List.length (nodup Z.eq_dec (map se_signal_id (signal_embeddings db))).
Proof.
  intros [Hnodup Hincl]. simpl. split.
  - rewrite <- (length_map se_signal_id), <- (length_map s_id).
    now apply NoDup_incl_length.
  - rewrite (nodup_fixed_point Z.eq_dec Hnodup). now rewrite length_map.
Qed.

(** The theorem at the store the exhaustive generator leaves. *)
Lemma coverage_accounting_witness :
  let db := Local.generate_signal_embeddings sample_encode partly_embedded_db in
  (Db.signal_embedded (Db.get_embeddings_status db)
   <= Db.signal_total (Db.get_embeddings_status db))%nat /\
  Db.signal_embedded (Db.get_embeddings_status db)
  = List.length (nodup Z.eq_dec (map se_signal_id (signal_embeddings db))).
Proof.
  intro db. apply (coverage_accounting db). split.
  - repeat constructor; simpl; intuition discriminate.
  - intros id Hid. simpl in *. tauto.
Defined.

(* ================================================================== *)
(** * The order of scores *)

Section ScoreOrder.
Open Scope float_scope.

Lemma is_nan_false_spec x : is_nan x = false -> Prim2SF x <> S754_nan.
Proof.
  unfold is_nan. rewrite negb_false_iff, eqb_spec. intros H E.
  rewrite E in H. discriminate.
Qed.

Lemma SFleb_total x y :
  x <> S754_nan -> y <> S754_nan -> SFleb x y = false -> SFleb y x = true.
Proof.
  unfold SFleb, SFcompare.
  destruct x as [s1|s1| |s1 m1 e1], y as [s2|s2| |s2 m2 e2]; intros Hx Hy;
    try congruence; try (destruct s1; discriminate);
    try (destruct s2; discriminate);
    try (destruct s1, s2; discriminate || reflexivity).
  destruct s1, s2; try discriminate; try reflexivity.
  all: rewrite (Z.compare_antisym e1 e2);
    destruct (e1 ?= e2)%Z; simpl; try discriminate; try reflexivity.
  all: change (PosDef.Pos.compare_cont Eq m2 m1) with (Pos.compare m2 m1);
       change (PosDef.Pos.compare_cont Eq m1 m2) with (Pos.compare m1 m2);
       rewrite (Pos.compare_antisym m1 m2);
       destruct (Pos.compare m1 m2); simpl; try discriminate; reflexivity.
Qed.

Lemma SFleb_trans x y z :
  SFleb x y = true -> SFleb y z = true -> SFleb x z = true.
Proof.
  unfold SFleb, SFcompare.
  destruct x as [s1|s1| |s1 m1 e1], y as [s2|s2| |s2 m2 e2], z as [s3|s3| |s3 m3 e3];
    try discriminate; try reflexivity;
    try (destruct s1; try discriminate; try reflexivity;
         destruct s2; try discriminate; try reflexivity;
         destruct s3; try discriminate; reflexivity);
    try (destruct s1, s2; try discriminate; reflexivity);
    try (destruct s2, s3; try discriminate; reflexivity);
    try (destruct s1, s3; try discriminate; reflexivity).
  all: try (destruct s1, s2, s3; try discriminate; try reflexivity).
  all: change PosDef.Pos.compare_cont with Pos.compare_cont;
       fold (Pos.compare m1 m2); fold (Pos.compare m2 m3); fold (Pos.compare m1 m3).
  all: destruct (Z.compare_spec e1 e2), (Z.compare_spec e2 e3), (Z.compare_spec e1 e3);
       try lia; try discriminate; try reflexivity; simpl.
  all: destruct (Pos.compare_spec m1 m2), (Pos.compare_spec m2 m3),
         (Pos.compare_spec m1 m3);
       simpl; try lia; try discriminate; try reflexivity.
Qed.

(** On scores that are numbers, [<=] is total and transitive. *)
Lemma leb_total x y :
  is_nan x = false -> is_nan y = false -> (x <=? y) = false -> (y <=? x) = true.
Proof.
  rewrite !leb_spec. intros Hx Hy.
  apply SFleb_total; now apply is_nan_false_spec.
Qed.

Lemma leb_trans x y z : (x <=? y) = true -> (y <=? z) = true -> (x <=? z) = true.
Proof. rewrite !leb_spec. apply SFleb_trans. Qed.


Context {A : Type} (score : A -> float).

Lemma insert_desc_perm x l : Permutation (x :: l) (Db.insert_desc score x l).
Proof.
  induction l as [|y l IH]; simpl; [reflexivity|].
  destruct (score y <=? score x); [reflexivity|].
  rewrite perm_swap. now constructor.
Qed.

Lemma order_by_score_desc_perm l : Permutation l (Db.order_by_score_desc score l).
Proof.
  induction l as [|x l IH]; simpl; [constructor|].
  rewrite <- insert_desc_perm. now constructor.
Qed.

Lemma insert_desc_sorted x l :
  is_nan (score x) = false ->
  Forall (fun y => is_nan (score y) = false) l ->
  StronglySorted (ranks_before score) l ->
  StronglySorted (ranks_before score) (Db.insert_desc score x l).
Proof.
  intros Hx Hl Hs. induction Hs as [|y l Hs IH Hy]; simpl.
  - repeat constructor.
  - inversion Hl as [|? ? Hny Hl']; subst.
    destruct (score y <=? score x) eqn:E.
    + constructor; [now constructor|].
      constructor; [exact E|].
      eapply Forall_impl; [|exact Hy]. intros z Hz. unfold ranks_before in *.
      eapply leb_trans; eassumption.
    + constructor; [now apply IH|].
      eapply Permutation_Forall; [apply insert_desc_perm|].
      constructor; [|exact Hy].
      unfold ranks_before. now apply leb_total.
Qed.

Lemma order_by_score_desc_sorted l :
  Forall (fun y => is_nan (score y) = false) l ->
  StronglySorted (ranks_before score) (Db.order_by_score_desc score l).
Proof.
  induction l as [|x l IH]; intros Hl; simpl; [constructor|].
  inversion Hl; subst. apply insert_desc_sorted; auto.
  eapply Permutation_Forall; [apply order_by_score_desc_perm|]. assumption.
Qed.
End ScoreOrder.

(* ================================================================== *)
(** * The ranked queries *)


Lemma get_issues_for_signal_In db signal_id min_score h :
  In h (Db.get_issues_for_signal db signal_id min_score) <->
  issue_hit_of db signal_id min_score h.
Proof.
  unfold Db.get_issues_for_signal, issue_hit_of.
  rewrite <- (Permutation_in' eq_refl (order_by_score_desc_perm Db.ih_score _)).
  rewrite in_flat_map. split.
  - intros [a [Ha Hin]].
    destruct (Z.eqb (a_signal_id a) signal_id && (min_score <=? a_score a)%float)
      eqn:E; [|contradiction].
    apply andb_true_iff in E. destruct E as [Hid Hmin]. apply Z.eqb_eq in Hid.
    apply in_map_iff in Hin. destruct Hin as [i [<- Hi]].
    apply filter_In in Hi. destruct Hi as [Hi Heq]. apply String.eqb_eq in Heq.
    exists a. simpl. auto 10.
  - intros [a [Ha [Hi [Hiid [Hid [Hmin [H1 [H2 H3]]]]]]]].
    exists a. split; [exact Ha|].
    rewrite Hmin, (proj2 (Z.eqb_eq _ _) Hid). simpl.
    apply in_map_iff. exists (Db.ih_issue h). split.
    + destruct h; simpl in *. now subst.
    + apply filter_In. split; [exact Hi|]. now apply String.eqb_eq.
Qed.



Example ranked_db_signals_for_issue :
  map (fun h => (s_id (Db.sh_signal h), Db.sh_score h))
      (Db.get_signals_for_issue ranked_db "ENG-1" 0.5625%float)
  = [(2%Z, 0.875%float); (1%Z, 0.625%float)].
Proof. vm_compute. reflexivity. Qed.

Example ranked_db_issues_for_signal :
  map (fun h => (i_identifier (Db.ih_issue h), Db.ih_score h))
      (Db.get_issues_for_signal ranked_db 3 0%float)
  = [("ENG-1"%string, 0.5%float)].
Proof. vm_compute. reflexivity. Qed.


(* ================================================================== *)
(** * Embedding generation: what it writes and what it leaves *)

Section GenerationFacts.
Variable encode : list string -> list (list float).

Lemma generate_signal_embeddings_frame db :
  signals (Local.generate_signal_embeddings encode db) = signals db /\
  issues (Local.generate_signal_embeddings encode db) = issues db /\
  issue_embeddings (Local.generate_signal_embeddings encode db) = issue_embeddings db /\
  associations (Local.generate_signal_embeddings encode db) = associations db.
Proof.
  unfold Local.generate_signal_embeddings.
  destruct (Local.signals_without_embeddings db); repeat split.
Qed.

Lemma generate_issue_embeddings_frame db :
  signals (Local.generate_issue_embeddings encode db) = signals db /\
  issues (Local.generate_issue_embeddings encode db) = issues db /\
  signal_embeddings (Local.generate_issue_embeddings encode db) = signal_embeddings db /\
  associations (Local.generate_issue_embeddings encode db) = associations db.
Proof.
  unfold Local.generate_issue_embeddings.
  destruct (Local.issues_without_embeddings db); repeat split.
Qed.

Lemma signals_without_embeddings_ext db db' :
  signals db' = signals db ->
  signal_embeddings db' = signal_embeddings db ->
  Local.signals_without_embeddings db' = Local.signals_without_embeddings db.
Proof. unfold Local.signals_without_embeddings. now intros -> ->. Qed.

Lemma issues_without_embeddings_ext db db' :
  issues db' = issues db ->
  issue_embeddings db' = issue_embeddings db ->
  Local.issues_without_embeddings db' = Local.issues_without_embeddings db.
Proof. unfold Local.issues_without_embeddings. now intros -> ->. Qed.

Lemma generate_signal_embeddings_nothing_missing db :
  Local.signals_without_embeddings db = [] ->
  Local.generate_signal_embeddings encode db = db.
Proof. unfold Local.generate_signal_embeddings. now intros ->. Qed.

Lemma generate_issue_embeddings_nothing_missing db :
  Local.issues_without_embeddings db = [] ->
  Local.generate_issue_embeddings encode db = db.
Proof. unfold Local.generate_issue_embeddings. now intros ->. Qed.

Lemma filter_all {A} (f : A -> bool) l :
  (forall x, In x l -> f x = true) -> filter f l = l.
Proof.
  induction l as [|x l IH]; intros H; simpl; [reflexivity|].
  rewrite (H x (or_introl eq_refl)). f_equal. apply IH. intros y Hy. apply H. now right.
Qed.

(** An [INSERT OR REPLACE] whose key is not in the table is an append. *)
Lemma replace_signal_embedding_fresh tbl r :
  ~ In (se_signal_id r) (map se_signal_id tbl) ->
  replace_signal_embedding tbl r = tbl ++ [r].
Proof.
  intros Hfresh. unfold replace_signal_embedding. f_equal.
  apply filter_all. intros e He. apply negb_true_iff, Z.eqb_neq.
  intros Heq. apply Hfresh. rewrite <- Heq. now apply in_map.
Qed.

Lemma replace_issue_embedding_fresh tbl r :
  ~ In (ie_issue_id r) (map ie_issue_id tbl) ->
  replace_issue_embedding tbl r = tbl ++ [r].
Proof.
  intros Hfresh. unfold replace_issue_embedding. f_equal.
  apply filter_all. intros e He. apply negb_true_iff, String.eqb_neq.
  intros Heq. apply Hfresh. rewrite <- Heq. now apply in_map.
Qed.

(** With distinct keys that are new to the table, the write loop appends
    one row per pair, in order. *)
Lemma store_signal_embeddings_appends rows : forall tbl,
  NoDup (map (fun r => s_id (fst r)) rows) ->
  (forall r, In r rows -> ~ In (s_id (fst r)) (map se_signal_id tbl)) ->
  store_signal_embeddings rows tbl =
  tbl ++ map (fun r => {| se_signal_id := s_id (fst r); se_embedding := snd r;
                          se_model := MODEL_NAME |}) rows.
Proof.
  induction rows as [|r rows IH]; intros tbl Hnd Hfresh; simpl.
  - now rewrite app_nil_r.
  - inversion Hnd as [|? ? Hr Hnd']; subst.
    rewrite replace_signal_embedding_fresh by (apply Hfresh; now left).
    rewrite IH; [now rewrite <- app_assoc|exact Hnd'|].
    intros r' Hr' Hin. rewrite map_app, in_app_iff in Hin. simpl in Hin.
    destruct Hin as [Hin|[Heq|[]]].
    + apply (Hfresh r' (or_intror Hr')). exact Hin.
    + apply Hr. rewrite Heq. now apply (in_map (fun r => s_id (fst r))).
Qed.

Lemma store_issue_embeddings_appends rows : forall tbl,
  NoDup (map (fun r => i_identifier (fst r)) rows) ->
  (forall r, In r rows -> ~ In (i_identifier (fst r)) (map ie_issue_id tbl)) ->
  store_issue_embeddings rows tbl =
  tbl ++ map (fun r => {| ie_issue_id := i_identifier (fst r); ie_embedding := snd r;
                          ie_model := MODEL_NAME |}) rows.
Proof.
  induction rows as [|r rows IH]; intros tbl Hnd Hfresh; simpl.
  - now rewrite app_nil_r.
  - inversion Hnd as [|? ? Hr Hnd']; subst.
    rewrite replace_issue_embedding_fresh by (apply Hfresh; now left).
    rewrite IH; [now rewrite <- app_assoc|exact Hnd'|].
    intros r' Hr' Hin. rewrite map_app, in_app_iff in Hin. simpl in Hin.
    destruct Hin as [Hin|[Heq|[]]].
    + apply (Hfresh r' (or_intror Hr')). exact Hin.
    + apply Hr. rewrite Heq. now apply (in_map (fun r => i_identifier (fst r))).
Qed.

Lemma NoDup_map_combine_l {A B C} (f : A -> C) (l : list A) (l' : list B) :
  NoDup (map f l) -> NoDup (map (fun r => f (fst r)) (combine l l')).
Proof.
  revert l'. induction l as [|x l IH]; intros [|y l'] Hnd; simpl; try constructor.
  - inversion Hnd as [|? ? Hx Hl]; subst. intros Hin. apply Hx.
    apply in_map_iff in Hin. destruct Hin as [[x' y'] [Heq Hin]]. simpl in Heq.
    rewrite <- Heq. apply in_map. eapply in_combine_l; eauto.
  - inversion Hnd; subst. now apply IH.
Qed.
End GenerationFacts.

Lemma sample_encode_length texts :
  List.length (sample_encode texts) = List.length texts.
Proof. unfold sample_encode. apply length_map. Qed.

(** X1: with one vector returned per text, the two generators of the
    exhaustive script, run as [main] runs them, leave every signal and every
    issue with an embedding row, keep every embedding row that was stored,
    and leave signals, issues and associations as they were. *)
Theorem local_generation_embeds_every_entity
  (encode : list string -> list (list float)) (db : DB) :
  (forall texts, List.length (encode texts) = List.length texts) ->
  let db' := Local.generate_issue_embeddings encode
               (Local.generate_signal_embeddings encode db) in
  (forall s, In s (signals db) ->
             has_signal_embedding (signal_embeddings db') (s_id s)) /\
  (forall i, In i (issues db) ->
             has_issue_embedding (issue_embeddings db') (i_identifier i)) /\
  (forall e, In e (signal_embeddings db) -> In e (signal_embeddings db')) /\
  (forall e, In e (issue_embeddings db) -> In e (issue_embeddings db')) /\
  signals db' = signals db /\ issues db' = issues db /\
  associations db' = associations db.
Proof.
  intros Hlen db'.
  destruct (generate_signal_embeddings_frame encode db) as [Hs1 [Hi1 [Hie1 Ha1]]].
  destruct (generate_issue_embeddings_frame encode
              (Local.generate_signal_embeddings encode db)) as [Hs2 [Hi2 [Hse2 Ha2]]].
  destruct (generate_signal_embeddings_fills_missing encode db Hlen)
    as [Hcs [Hks _]].
  destruct (generate_issue_embeddings_fills_missing encode
              (Local.generate_signal_embeddings encode db) Hlen) as [Hci [Hki _]].
  unfold db'. rewrite Hse2, Hs2, Hi2, Ha2, Hs1, Hi1, Ha1.
  repeat split; auto.
  - intros i Hi. apply Hci. now rewrite Hi1.
  - intros e He. apply Hki. now rewrite Hie1.
Qed.

(** The theorem at the partly embedded store: both of its signals have
    an embedding afterwards. *)
Lemma local_generation_embeds_every_entity_witness :
  let db' := Local.generate_issue_embeddings sample_encode
               (Local.generate_signal_embeddings sample_encode partly_embedded_db) in
  (forall s, In s (signals partly_embedded_db) ->
             has_signal_embedding (signal_embeddings db') (s_id s)) /\
  (forall i, In i (issues partly_embedded_db) ->
             has_issue_embedding (issue_embeddings db') (i_identifier i)) /\
  (forall e, In e (signal_embeddings partly_embedded_db) ->
             In e (signal_embeddings db')) /\
  (forall e, In e (issue_embeddings partly_embedded_db) ->
             In e (issue_embeddings db')) /\
  signals db' = signals partly_embedded_db /\
  issues db' = issues partly_embedded_db /\
  associations db' = associations partly_embedded_db.
Proof.
  apply (local_generation_embeds_every_entity sample_encode partly_embedded_db).
  apply sample_encode_length.
Defined.

(** X2: with one vector returned per text, running the two generators
    of the exhaustive script a second time changes nothing: no row is added,
    none is replaced, and the encoder is given no text of an entity that
    has an embedding. *)
Theorem local_generation_idempotent
  (encode : list string -> list (list float)) (db : DB) :
  (forall texts, List.length (encode texts) = List.length texts) ->
  let generate := fun d => Local.generate_issue_embeddings encode
                             (Local.generate_signal_embeddings encode d) in
  generate (generate db) = generate db /\
  Local.signals_without_embeddings (generate db) = [] /\
  Local.issues_without_embeddings (generate db) = [].
Proof.
  intros Hlen generate. unfold generate.
  set (db1 := Local.generate_signal_embeddings encode db).
  set (db2 := Local.generate_issue_embeddings encode db1).
  destruct (generate_signal_embeddings_fills_missing encode db Hlen)
    as [_ [_ [Hnone1 _]]]. fold db1 in Hnone1.
  destruct (generate_issue_embeddings_fills_missing encode db1 Hlen)
    as [_ [_ [Hnone2 _]]]. fold db2 in Hnone2.
  destruct (generate_issue_embeddings_frame encode db1) as [Hs2 [_ [Hse2 _]]].
  fold db2 in Hs2, Hse2.
  assert (Hnone : Local.signals_without_embeddings db2 = []).
  { rewrite (signals_without_embeddings_ext db1 db2 Hs2 Hse2). exact Hnone1. }
  split; [|split; assumption].
  rewrite (generate_signal_embeddings_nothing_missing encode db2 Hnone).
  now apply generate_issue_embeddings_nothing_missing.
Qed.

(** The theorem at the partly embedded store. *)
Lemma local_generation_idempotent_witness :
  let generate := fun d => Local.generate_issue_embeddings sample_encode
                             (Local.generate_signal_embeddings sample_encode d) in
  generate (generate partly_embedded_db) = generate partly_embedded_db /\
  Local.signals_without_embeddings (generate partly_embedded_db) = [] /\
  Local.issues_without_embeddings (generate partly_embedded_db) = [].
Proof.
  apply (local_generation_idempotent sample_encode partly_embedded_db).
  apply sample_encode_length.
Defined.

(** X3: when signal ids are distinct (the primary key of [signals]),
    [generate_signal_embeddings] appends to [signal_embeddings] one row per
    signal that had none, in the order of the query, holding the vector the
    encoder returned at that signal's position and the model name; no stored
    row is replaced.  With one vector per text the [signal_embedded] count
    of [get_embeddings_status] grows by the number of signals that had no
    embedding. *)
Theorem local_generation_appends_encoded_rows
  (encode : list string -> list (list float)) (db : DB) :
  NoDup (map s_id (signals db)) ->
  let missing := Local.signals_without_embeddings db in
  let db' := Local.generate_signal_embeddings encode db in
  signal_embeddings db' =
    signal_embeddings db ++
    map (fun r => {| se_signal_id := s_id (fst r); se_embedding := snd r;
                     se_model := MODEL_NAME |})
        (combine missing (encode (map signal_text missing))) /\
  ((forall texts, List.length (encode texts) = List.length texts) ->
   Db.signal_embedded (Db.get_embeddings_status db')
   = (Db.signal_embedded (Db.get_embeddings_status db) + List.length missing)%nat).
Proof.
  intros Hnd missing db'.
  assert (Htbl : signal_embeddings db' =
    signal_embeddings db ++
    map (fun r => {| se_signal_id := s_id (fst r); se_embedding := snd r;
                     se_model := MODEL_NAME |})
        (combine missing (encode (map signal_text missing)))).
  { unfold db'. rewrite generate_signal_embeddings_table.
    apply store_signal_embeddings_appends.
    - apply NoDup_map_combine_l. unfold missing, Local.signals_without_embeddings.
      now apply NoDup_map_filter.
    - intros [s v] Hr Hin. simpl in Hin. apply in_combine_l in Hr.
      apply signals_without_embeddings_In in Hr. destruct Hr as [_ Hno].
      apply Hno. apply in_map_iff in Hin. destruct Hin as [e [He Hin]].
      exists e. split; assumption. }
  split; [exact Htbl|].
  intros Hlen. simpl. rewrite Htbl, length_app, length_map, length_combine.
  rewrite Hlen, length_map, Nat.min_id. reflexivity.
Qed.

(** The theorem at the partly embedded store: the one missing signal
    gets the one encoded vector. *)
Lemma local_generation_appends_encoded_rows_witness :
  signal_embeddings (Local.generate_signal_embeddings sample_encode partly_embedded_db)
  = signal_embeddings partly_embedded_db ++
    [ {| se_signal_id := 2; se_embedding := [0; 1]%float; se_model := MODEL_NAME |} ] /\
  Db.signal_embedded
    (Db.get_embeddings_status
       (Local.generate_signal_embeddings sample_encode partly_embedded_db)) = 2%nat.
Proof.
  destruct (local_generation_appends_encoded_rows sample_encode partly_embedded_db)
    as [Htbl Hcount].
  { repeat constructor; simpl; intuition discriminate. }
  split; [exact Htbl|]. apply Hcount. apply sample_encode_length.
Defined.

(* ================================================================== *)
(** * The loader of the indexed script *)

Section LoaderFacts.
Variable encode : list string -> list (list float).

Lemma DB_ext (d1 d2 : DB) :
  signals d1 = signals d2 -> issues d1 = issues d2 ->
  signal_embeddings d1 = signal_embeddings d2 ->
  issue_embeddings d1 = issue_embeddings d2 ->
  associations d1 = associations d2 -> d1 = d2.
Proof. destruct d1, d2; simpl; intros; subst; reflexivity. Qed.

Lemma load_or_create_embeddings_fields db :
  let db' := Chroma.load_or_create_embeddings encode db in
  signals db' = signals db /\ issues db' = issues db /\
  associations db' = associations db /\
  signal_embeddings db' =
    (if Nat.eqb (List.length (signal_embeddings db)) 0
     then store_signal_embeddings
            (combine (signals db) (encode (map signal_text (signals db))))
            (signal_embeddings db)
     else signal_embeddings db) /\
  issue_embeddings db' =
    (if Nat.eqb (List.length (issue_embeddings db)) 0
     then store_issue_embeddings
            (combine (issues db) (encode (map issue_text (issues db))))
            (issue_embeddings db)
     else issue_embeddings db).
Proof.
  unfold Chroma.load_or_create_embeddings.
  destruct (Nat.eqb (List.length (signal_embeddings db)) 0);
    destruct (Nat.eqb (List.length (issue_embeddings db)) 0); simpl; repeat split.
Qed.

(** Filling an embedding table is stable: doing it again on the result
    gives the result. *)
Lemma fill_signal_embeddings_stable sigs tbl :
  let fill t :=
    if Nat.eqb (List.length t) 0
    then store_signal_embeddings (combine sigs (encode (map signal_text sigs))) t
    else t in
  fill (fill tbl) = fill tbl.
Proof.
  intros fill. destruct (fill tbl) as [|x l] eqn:Hf; [|reflexivity].
  assert (Htbl : tbl = [])
    by (destruct tbl; [reflexivity|unfold fill in Hf; simpl in Hf; discriminate]).
  subst tbl. exact Hf.
Qed.

Lemma fill_issue_embeddings_stable iss tbl :
  let fill t :=
    if Nat.eqb (List.length t) 0
    then store_issue_embeddings (combine iss (encode (map issue_text iss))) t
    else t in
  fill (fill tbl) = fill tbl.
Proof.
  intros fill. destruct (fill tbl) as [|x l] eqn:Hf; [|reflexivity].
  assert (Htbl : tbl = [])
    by (destruct tbl; [reflexivity|unfold fill in Hf; simpl in Hf; discriminate]).
  subst tbl. exact Hf.
Qed.

Lemma find_unique_key (tbl : list signal_embedding) e :
  NoDup (map se_signal_id tbl) -> In e tbl ->
  find (fun x => Z.eqb (se_signal_id x) (se_signal_id e)) tbl = Some e.
Proof.
  induction tbl as [|x tbl IH]; intros Hnd Hin; [contradiction|]. simpl.
  inversion Hnd as [|? ? Hx Hnd']; subst.
  destruct Hin as [->|Hin]; [now rewrite Z.eqb_refl|].
  destruct (Z.eqb_spec (se_signal_id x) (se_signal_id e)) as [Heq|_].
  - exfalso. apply Hx. rewrite Heq. now apply in_map.
  - now apply IH.
Qed.
End LoaderFacts.

(** X4: started on empty embedding tables, with one vector returned per
    text, [load_or_create_embeddings] leaves every signal and every issue
    with an embedding row and touches no other table; when signal ids are
    distinct (the primary key), the lookup the association loop uses,
    [SELECT embedding FROM signal_embeddings WHERE signal_id = ?], then
    returns for each signal the vector the encoder returned for its text. *)
Theorem chroma_loader_fills_empty_tables
  (encode : list string -> list (list float)) (db : DB) :
  signal_embeddings db = [] ->
  issue_embeddings db = [] ->
  (forall texts, List.length (encode texts) = List.length texts) ->
  let db' := Chroma.load_or_create_embeddings encode db in
  (forall s, In s (signals db) ->
             has_signal_embedding (signal_embeddings db') (s_id s)) /\
  (forall i, In i (issues db) ->
             has_issue_embedding (issue_embeddings db') (i_identifier i)) /\
  signals db' = signals db /\ issues db' = issues db /\
  associations db' = associations db /\
  (NoDup (map s_id (signals db)) ->
   forall s v,
     In (s, v) (combine (signals db) (encode (map signal_text (signals db)))) ->
     Chroma.signal_embedding_of db' (s_id s) = Some v).
Proof.
  intros Hse Hie Hlen db'.
  destruct (load_or_create_embeddings_fields encode db)
    as [Hs [Hi [Ha [Htse Htie]]]].
  fold db' in Hs, Hi, Ha, Htse, Htie.
  rewrite Hse in Htse. rewrite Hie in Htie. simpl in Htse, Htie.
  split; [|split; [|split; [|split; [|split]]]]; auto.
  - intros s Hin. rewrite Htse.
    destruct (In_combine_total (signals db) (encode (map signal_text (signals db))) s)
      as [v Hv]; [now rewrite Hlen, length_map|exact Hin|].
    eapply store_signal_embeddings_covers. exact Hv.
  - intros i Hin. rewrite Htie.
    destruct (In_combine_total (issues db) (encode (map issue_text (issues db))) i)
      as [v Hv]; [now rewrite Hlen, length_map|exact Hin|].
    eapply store_issue_embeddings_covers. exact Hv.
  - intros Hnd s v Hin. unfold Chroma.signal_embedding_of. rewrite Htse.
    rewrite store_signal_embeddings_appends;
      [|now apply NoDup_map_combine_l|intros r _ []]. simpl.
    set (row := {| se_signal_id := s_id s; se_embedding := v; se_model := MODEL_NAME |}).
    change (s_id s) with (se_signal_id row).
    rewrite find_unique_key; [reflexivity| |].
    + rewrite map_map. simpl. now apply NoDup_map_combine_l.
    + apply in_map_iff. exists (s, v). split; [reflexivity|exact Hin].
Qed.

Lemma length_encode_length texts :
  List.length (length_encode texts) = List.length texts.
Proof. unfold length_encode. apply length_map. Qed.

(** The theorem at the store without embeddings. *)
Lemma chroma_loader_fills_empty_tables_witness :
  let db' := Chroma.load_or_create_embeddings length_encode unembedded_db in
  (forall s, In s (signals unembedded_db) ->
             has_signal_embedding (signal_embeddings db') (s_id s)) /\
  (forall i, In i (issues unembedded_db) ->
             has_issue_embedding (issue_embeddings db') (i_identifier i)) /\
  Chroma.signal_embedding_of db' 1 = Some [0; 1]%float /\
  Chroma.signal_embedding_of db' 2 = Some [1; 0]%float.
Proof.
  intro db'.
  destruct (chroma_loader_fills_empty_tables length_encode unembedded_db)
    as [Hs [Hi [_ [_ [_ Hlookup]]]]];
    [reflexivity|reflexivity|apply length_encode_length|].
  split; [exact Hs|]. split; [exact Hi|].
  assert (Hnd : NoDup (map s_id (signals unembedded_db)))
    by (repeat constructor; simpl; intuition discriminate).
  split.
  - apply (Hlookup Hnd (sample_signal 1 "login fails") [0; 1]%float).
    left. reflexivity.
  - apply (Hlookup Hnd (sample_signal 2 "search is slow") [1; 0]%float).
    right. left. reflexivity.
Defined.

(** X5: [load_or_create_embeddings] run a second time changes nothing,
    whatever the encoder returns: a table it filled is not empty and is
    left alone, and a table it left empty is filled with the same rows. *)
Theorem chroma_loader_idempotent
  (encode : list string -> list (list float)) (db : DB) :
  Chroma.load_or_create_embeddings encode (Chroma.load_or_create_embeddings encode db)
  = Chroma.load_or_create_embeddings encode db.
Proof.
  set (db1 := Chroma.load_or_create_embeddings encode db).
  destruct (load_or_create_embeddings_fields encode db)
    as [Hs [Hi [Ha [Htse Htie]]]].
  destruct (load_or_create_embeddings_fields encode db1)
    as [Hs1 [Hi1 [Ha1 [Htse1 Htie1]]]].
  fold db1 in Hs, Hi, Ha, Htse, Htie.
  apply DB_ext; auto.
  - rewrite Htse1, Hs, Htse.
    apply (fill_signal_embeddings_stable encode (signals db) (signal_embeddings db)).
  - rewrite Htie1, Hi, Htie.
    apply (fill_issue_embeddings_stable encode (issues db) (issue_embeddings db)).
Qed.

(* ================================================================== *)
(** * Association runs: completeness, failure, and what a row carries *)

Section RunFacts.
Variable format_2f : float -> string.

Lemma existsb_find {A} (f : A -> bool) l :
  existsb f l = true -> exists row, find f l = Some row.
Proof.
  intros H. apply existsb_exists in H.
  destruct (find_some_first f l H) as [row [Hf _]]. now exists row.
Qed.

(** The scoring loop raises exactly when [cosine_similarity] raises on
    a pair of the work list. *)
Lemma score_pairs_none_iff pairs : forall acc,
  Local.score_pairs format_2f pairs acc = None <->
  exists p, In p pairs /\
    cosine_similarity (Local.p_signal_embedding p) (Local.p_issue_embedding p) = None.
Proof.
  induction pairs as [|p pairs IH]; intros acc; simpl.
  - split; [discriminate|intros [p [[] _]]].
  - destruct (cosine_similarity _ _) as [score|] eqn:Hcos.
    + assert (Hrest : forall acc',
                 Local.score_pairs format_2f pairs acc' = None <->
                 exists q, In q (p :: pairs) /\
                   cosine_similarity (Local.p_signal_embedding q)
                                     (Local.p_issue_embedding q) = None).
      { intros acc'. rewrite IH. split.
        - intros [q [Hq H]]. exists q. split; [now right|exact H].
        - intros [q [[<-|Hq] H]]; [congruence|]. exists q. auto. }
      destruct (SIMILARITY_THRESHOLD <=? score)%float; apply Hrest.
    + split; [|reflexivity]. intros _. exists p. split; [now left|exact Hcos].
Qed.

Lemma score_pairs_made pairs : forall acc found,
  Forall (fun d => d = Local.make_association format_2f
                        (d_signal_id d) (d_issue_id d) (d_score d)) acc ->
  Local.score_pairs format_2f pairs acc = Some found ->
  Forall (fun d => d = Local.make_association format_2f
                        (d_signal_id d) (d_issue_id d) (d_score d)) found.
Proof.
  induction pairs as [|p pairs IH]; intros acc found Hacc Hrun; simpl in Hrun.
  - now injection Hrun as <-.
  - destruct (cosine_similarity _ _) as [score|]; [|discriminate].
    destruct (SIMILARITY_THRESHOLD <=? score)%float; [|exact (IH acc found Hacc Hrun)].
    eapply IH; [|exact Hrun].
    apply Forall_app; split; [exact Hacc|repeat constructor].
Qed.

Lemma process_results_made db signal_id results : forall acc found,
  Forall (fun d => d = Chroma.make_association format_2f
                        (d_signal_id d) (d_issue_id d) (d_score d)) acc ->
  Chroma.process_results format_2f db signal_id results acc = Some found ->
  Forall (fun d => d = Chroma.make_association format_2f
                        (d_signal_id d) (d_issue_id d) (d_score d)) found.
Proof.
  induction results as [|[issue_id distance] results IH];
    intros acc found Hacc Hrun; simpl in Hrun.
  - now injection Hrun as <-.
  - destruct (existsb _ _); [exact (IH acc found Hacc Hrun)|].
    destruct (Chroma.similarity_of distance) as [sim|]; [|discriminate].
    destruct (SIMILARITY_THRESHOLD <=? sim)%float; [|exact (IH acc found Hacc Hrun)].
    eapply IH; [|exact Hrun].
    apply Forall_app; split; [exact Hacc|repeat constructor].
Qed.

Lemma process_signals_made db coll sigs : forall acc found,
  Forall (fun d => d = Chroma.make_association format_2f
                        (d_signal_id d) (d_issue_id d) (d_score d)) acc ->
  Chroma.process_signals format_2f db coll sigs acc = Some found ->
  Forall (fun d => d = Chroma.make_association format_2f
                        (d_signal_id d) (d_issue_id d) (d_score d)) found.
Proof.
  induction sigs as [|s sigs IH]; intros acc found Hacc Hrun; simpl in Hrun.
  - now injection Hrun as <-.
  - destruct (Chroma.signal_embedding_of db (s_id s)) as [emb|];
      [|exact (IH acc found Hacc Hrun)].
    destruct (Chroma.process_results _ _ _ _ _) as [mid|] eqn:Hres; [|discriminate].
    apply (IH mid found); [|exact Hrun].
    eapply process_results_made; eassumption.
Qed.

(** The inner loop of the indexed script raises only on a candidate
    without a stored row whose similarity cannot be computed. *)
Lemma process_results_none db signal_id results : forall acc,
  Chroma.process_results format_2f db signal_id results acc = None ->
  exists r, In r results /\
    existsb (same_pair signal_id (fst r)) (associations db) = false /\
    Chroma.similarity_of (snd r) = None.
Proof.
  induction results as [|[issue_id distance] results IH]; intros acc Hrun;
    simpl in Hrun; [discriminate|].
  assert (Hrest : forall acc',
             Chroma.process_results format_2f db signal_id results acc' = None ->
             exists r, In r ((issue_id, distance) :: results) /\
               existsb (same_pair signal_id (fst r)) (associations db) = false /\
               Chroma.similarity_of (snd r) = None).
  { intros acc' H. destruct (IH _ H) as [r [Hr H']]. exists r. split; [now right|exact H']. }
  destruct (existsb _ _) eqn:E; [now apply (Hrest acc)|].
  destruct (Chroma.similarity_of distance) as [sim|] eqn:Hsim.
  - destruct (SIMILARITY_THRESHOLD <=? sim)%float; eapply Hrest; eassumption.
  - exists (issue_id, distance). split; [now left|]. split; assumption.
Qed.

Lemma process_signals_none db coll sigs : forall acc,
  Chroma.process_signals format_2f db coll sigs acc = None ->
  exists s emb r,
    In s sigs /\ Chroma.signal_embedding_of db (s_id s) = Some emb /\
    In r (coll emb TOP_K) /\
    existsb (same_pair (s_id s) (fst r)) (associations db) = false /\
    Chroma.similarity_of (snd r) = None.
Proof.
  induction sigs as [|s sigs IH]; intros acc Hrun; simpl in Hrun; [discriminate|].
  assert (Hrest : forall acc',
             Chroma.process_signals format_2f db coll sigs acc' = None ->
             exists s' emb r,
               In s' (s :: sigs) /\ Chroma.signal_embedding_of db (s_id s') = Some emb /\
               In r (coll emb TOP_K) /\
               existsb (same_pair (s_id s') (fst r)) (associations db) = false /\
               Chroma.similarity_of (snd r) = None).
  { intros acc' H. destruct (IH _ H) as [s' [emb [r [Hs' H']]]].
    exists s', emb, r. split; [now right|exact H']. }
  destruct (Chroma.signal_embedding_of db (s_id s)) as [emb|] eqn:Hemb;
    [|now apply (Hrest acc)].
  destruct (Chroma.process_results _ _ _ _ _) as [mid|] eqn:Hres;
    [now apply (Hrest mid)|].
  destruct (process_results_none _ _ _ _ Hres) as [r [Hr [Habs Hsim]]].
  exists s, emb, r. split; [now left|]. auto.
Qed.
End RunFacts.

(** X6: the writers of both scripts keep [signal_embeddings] with one
    row per signal id, each for a stored signal: if that holds before, it
    holds after either script's embedding generation, after either script's
    association run, and after the whole [main] of either script. *)
Theorem scripts_keep_one_embedding_per_signal
  (encode : list string -> list (list float)) (format_2f : float -> string)
  (build_index : list (string * list float) -> Chroma.collection)
  (issues_collection : Chroma.collection) (db : DB) :
  signal_embedding_constraints db ->
  signal_embedding_constraints (Local.generate_signal_embeddings encode db) /\
  signal_embedding_constraints (Local.generate_issue_embeddings encode db) /\
  signal_embedding_constraints (Chroma.load_or_create_embeddings encode db) /\
  signal_embedding_constraints (Local.run_associations format_2f db) /\
  signal_embedding_constraints (Chroma.run_associations format_2f db issues_collection) /\
  signal_embedding_constraints (Local.main encode format_2f db) /\
  signal_embedding_constraints (Chroma.main encode format_2f build_index db).
Proof.
  intros Hc.
  assert (Hgi : forall d, signal_embedding_constraints d ->
                  signal_embedding_constraints (Local.generate_issue_embeddings encode d)).
  { intros d Hd. unfold signal_embedding_constraints in *.
    destruct (generate_issue_embeddings_frame encode d) as [-> [_ [-> _]]]. exact Hd. }
  assert (Hrl : forall d, signal_embedding_constraints d ->
                  signal_embedding_constraints (Local.run_associations format_2f d)).
  { intros d. apply (invoke_run_keeps_constraints format_2f d RunLocal I). }
  assert (Hrc : forall d coll, signal_embedding_constraints d ->
                  signal_embedding_constraints (Chroma.run_associations format_2f d coll)).
  { intros d coll. apply (invoke_run_keeps_constraints format_2f d (RunChroma coll) I). }
  repeat split; try (apply generate_signal_embeddings_keeps_constraints; exact Hc);
    try (apply Hgi; exact Hc); try (apply Hrl; exact Hc); try (apply Hrc; exact Hc);
    try (apply load_or_create_embeddings_keeps_constraints; exact Hc).
  - apply Hrl, Hgi, generate_signal_embeddings_keeps_constraints, Hc.
  - apply Hrl, Hgi, generate_signal_embeddings_keeps_constraints, Hc.
  - apply Hrc, load_or_create_embeddings_keeps_constraints, Hc.
  - apply Hrc, load_or_create_embeddings_keeps_constraints, Hc.
Qed.

(** The theorem at the partly embedded store. *)
Lemma scripts_keep_one_embedding_per_signal_witness :
  let db := partly_embedded_db in
  signal_embedding_constraints (Local.generate_signal_embeddings sample_encode db) /\
  signal_embedding_constraints (Local.generate_issue_embeddings sample_encode db) /\
  signal_embedding_constraints (Chroma.load_or_create_embeddings sample_encode db) /\
  signal_embedding_constraints (Local.run_associations no_format db) /\
  signal_embedding_constraints (Chroma.run_associations no_format db sample_collection) /\
  signal_embedding_constraints (Local.main sample_encode no_format db) /\
  signal_embedding_constraints
    (Chroma.main sample_encode no_format (fun _ => sample_collection) db).
Proof.
  intro db.
  apply (scripts_keep_one_embedding_per_signal sample_encode no_format
           (fun _ => sample_collection) sample_collection db).
  split.
  - repeat constructor; simpl; tauto.
  - intros id Hid. simpl in *. tauto.
Defined.

(** X7: [compute_associations] either raises before it writes anything,
    which happens exactly when [cosine_similarity] raises on a pair without
    an association (embeddings of different lengths), or it returns with
    every other table unchanged, the stored associations kept in place, and
    an association stored for every embedded (signal, issue) pair whose
    cosine similarity is at or above the threshold. *)
Theorem exhaustive_run_complete_or_untouched
  (format_2f : float -> string) (db : DB) :
  match Local.compute_associations format_2f db with
  | Some db' =>
      signals db' = signals db /\ issues db' = issues db /\
      signal_embeddings db' = signal_embeddings db /\
      issue_embeddings db' = issue_embeddings db /\
      (exists new, associations db' = associations db ++ new) /\
      (forall se ie score,
         In se (signal_embeddings db) -> In ie (issue_embeddings db) ->
         cosine_similarity (se_embedding se) (ie_embedding ie) = Some score ->
         (SIMILARITY_THRESHOLD <=? score)%float = true ->
         exists row,
           Db.get_association db' (se_signal_id se) (ie_issue_id ie) = Some row)
  | None => Local.run_associations format_2f db = db
  end /\
  (Local.compute_associations format_2f db = None <->
   exists p, In p (Local.pairs_to_process db) /\
     cosine_similarity (Local.p_signal_embedding p) (Local.p_issue_embedding p) = None).
Proof.
  split.
  - unfold Local.run_associations.
    destruct (Local.compute_associations format_2f db) as [db'|] eqn:Hrun;
      [|reflexivity].
    unfold Local.compute_associations in Hrun.
    assert (Hcomplete : forall found,
      Local.score_pairs format_2f (Local.pairs_to_process db) [] = Some found ->
      forall se ie score,
        In se (signal_embeddings db) -> In ie (issue_embeddings db) ->
        cosine_similarity (se_embedding se) (ie_embedding ie) = Some score ->
        (SIMILARITY_THRESHOLD <=? score)%float = true ->
        exists row,
          find (same_pair (se_signal_id se) (ie_issue_id ie))
               (fold_left insert_or_ignore found (associations db)) = Some row).
    { intros found Hs se ie score Hse Hie Hcos Hthr. apply existsb_find.
      destruct (existsb (same_pair (se_signal_id se) (ie_issue_id ie)) (associations db))
        eqn:E.
      - destruct (save_extends found (associations db)) as [new ->].
        now apply existsb_app_true.
      - destruct (score_pairs_spec _ _ _ _ Hs) as [new [Hfound [_ Hall]]].
        simpl in Hfound. subst new.
        destruct (Hall {| Local.p_signal_id := se_signal_id se;
                          Local.p_signal_embedding := se_embedding se;
                          Local.p_issue_id := ie_issue_id ie;
                          Local.p_issue_embedding := ie_embedding ie |})
          as [sc [Hsc Hd]].
        { apply pairs_to_process_In. exists se, ie. auto. }
        simpl in Hsc. rewrite Hcos in Hsc. injection Hsc as <-.
        destruct (Hd Hthr) as [d [Hd1 [Hd2 Hd3]]]. simpl in Hd2, Hd3.
        rewrite <- Hd2, <- Hd3. now apply save_present. }
    destruct (Local.pairs_to_process db) as [|p ps] eqn:Hpairs.
    + injection Hrun as <-. repeat split; auto.
      * exists []. now rewrite app_nil_r.
      * intros se ie score Hse Hie Hcos Hthr.
        destruct (Hcomplete [] eq_refl se ie score Hse Hie Hcos Hthr) as [row Hrow].
        exists row. exact Hrow.
    + destruct (Local.score_pairs format_2f (p :: ps) []) as [found|] eqn:Hs;
        [|discriminate].
      injection Hrun as <-. simpl. repeat split; auto.
      * apply save_extends.
      * intros se ie score Hse Hie Hcos Hthr.
        exact (Hcomplete found eq_refl se ie score Hse Hie Hcos Hthr).
  - unfold Local.compute_associations.
    destruct (Local.pairs_to_process db) as [|p ps] eqn:Hpairs.
    + split; [discriminate|intros [q [[] _]]].
    + rewrite <- (score_pairs_none_iff format_2f (p :: ps) []).
      destruct (Local.score_pairs format_2f (p :: ps) []); split; congruence.
Qed.

(** X8: [generate_associations_with_chroma] either raises before it
    writes anything, and then some candidate without a stored row has a
    distance of -1 (the divisor [1 + distance] is zero), or it returns with
    every other table unchanged, the stored associations kept in place, and
    an association stored for every candidate that the index returns for a
    signal with an embedding and whose similarity is at or above the
    threshold. *)
Theorem indexed_run_complete_or_untouched
  (format_2f : float -> string) (db : DB) (issues_collection : Chroma.collection) :
  match Chroma.generate_associations_with_chroma format_2f db issues_collection with
  | Some db' =>
      signals db' = signals db /\ issues db' = issues db /\
      signal_embeddings db' = signal_embeddings db /\
      issue_embeddings db' = issue_embeddings db /\
      (exists new, associations db' = associations db ++ new) /\
      (forall s emb r similarity,
         In s (signals db) ->
         Chroma.signal_embedding_of db (s_id s) = Some emb ->
         In r (issues_collection emb TOP_K) ->
         Chroma.similarity_of (snd r) = Some similarity ->
         (SIMILARITY_THRESHOLD <=? similarity)%float = true ->
         exists row, Db.get_association db' (s_id s) (fst r) = Some row)
  | None =>
      Chroma.run_associations format_2f db issues_collection = db /\
      exists s emb r,
        In s (signals db) /\ Chroma.signal_embedding_of db (s_id s) = Some emb /\
        In r (issues_collection emb TOP_K) /\
        Db.get_association db (s_id s) (fst r) = None /\
        (1 + snd r =? 0)%float = true
  end.
Proof.
  unfold Chroma.run_associations.
  destruct (Chroma.generate_associations_with_chroma format_2f db issues_collection)
    as [db'|] eqn:Hrun; unfold Chroma.generate_associations_with_chroma in Hrun.
  - destruct (Chroma.process_signals _ _ _ _ _) as [found|] eqn:Hs; [|discriminate].
    injection Hrun as <-. simpl. repeat split; auto.
    + apply save_extends.
    + intros s emb r sim Hin Hemb Hr Hsim Hthr. apply existsb_find.
      cbn [associations save_associations set_associations].
      destruct (existsb (same_pair (s_id s) (fst r)) (associations db)) eqn:E.
      * destruct (save_extends found (associations db)) as [new ->].
        now apply existsb_app_true.
      * destruct (process_signals_spec _ _ _ _ _ _ Hs) as [new [Hfound [_ Hall]]].
        simpl in Hfound. subst new.
        destruct (Hall s emb r Hin Hemb Hr E) as [sim' [Hsim' Hd]].
        rewrite Hsim in Hsim'. injection Hsim' as <-.
        destruct (Hd Hthr) as [d [Hd1 [Hd2 Hd3]]].
        rewrite <- Hd2, <- Hd3. now apply save_present.
  - split; [reflexivity|].
    destruct (Chroma.process_signals _ _ _ _ _) as [found|] eqn:Hs; [discriminate|].
    destruct (process_signals_none _ _ _ _ _ Hs) as [s [emb [r [Hin [Hemb [Hr [E Hsim]]]]]]].
    exists s, emb, r. repeat split; auto.
    + now apply get_association_none.
    + unfold Chroma.similarity_of in Hsim.
      destruct (1 + snd r =? 0)%float; [reflexivity|discriminate].
Qed.

(** X9: a row that an association run adds names its backend and the
    embedding model in [method] ("local-all-MiniLM-L6-v2" for the exhaustive
    script, "chroma-all-MiniLM-L6-v2" for the indexed one), and its [reason]
    is "Semantic similarity: " followed by the two-decimal rendering of the
    very score it stores. *)
Theorem written_rows_name_backend_and_score
  (format_2f : float -> string) (db : DB) (issues_collection : Chroma.collection) :
  (forall a, In a (associations (Local.run_associations format_2f db)) ->
     In a (associations db) \/
     (a_method a = "local-all-MiniLM-L6-v2"%string /\
      a_reason a = ("Semantic similarity: " ++ format_2f (a_score a))%string)) /\
  (forall a,
     In a (associations (Chroma.run_associations format_2f db issues_collection)) ->
     In a (associations db) \/
     (a_method a = "chroma-all-MiniLM-L6-v2"%string /\
      a_reason a = ("Semantic similarity: " ++ format_2f (a_score a))%string)).
Proof.
  split; intros a Hin.
  - destruct (local_run_cases format_2f db) as [Hr|[found [Hs Hr]]];
      rewrite Hr in Hin; [now left|].
    simpl in Hin.
    destruct (save_In _ _ _ Hin) as [H|[d [Hd [_ [_ [Hsc [Hre Hme]]]]]]]; [now left|right].
    pose proof (score_pairs_made format_2f _ [] found (Forall_nil _) Hs) as Hmade.
    rewrite Forall_forall in Hmade. specialize (Hmade d Hd).
    rewrite Hre, Hme, Hsc, Hmade. simpl. split; reflexivity.
  - destruct (chroma_run_cases format_2f db issues_collection) as [Hr|[found [Hs Hr]]];
      rewrite Hr in Hin; [now left|].
    simpl in Hin.
    destruct (save_In _ _ _ Hin) as [H|[d [Hd [_ [_ [Hsc [Hre Hme]]]]]]]; [now left|right].
    pose proof (process_signals_made format_2f _ _ _ [] found (Forall_nil _) Hs) as Hmade.
    rewrite Forall_forall in Hmade. specialize (Hmade d Hd).
    rewrite Hre, Hme, Hsc, Hmade. simpl. split; reflexivity.
Qed.

(* ================================================================== *)
(** * The listing queries with counts *)

Section OrderFacts.
Context {A : Type} (before : A -> A -> bool).

Lemma insert_by_perm x l : Permutation (x :: l) (Db.insert_by before x l).
Proof.
  induction l as [|y l IH]; simpl; [reflexivity|].
  destruct (before x y); [reflexivity|].
  rewrite perm_swap. now constructor.
Qed.

Lemma order_by_perm l : Permutation l (Db.order_by before l).
Proof.
  induction l as [|x l IH]; simpl; [constructor|].
  rewrite <- insert_by_perm. now constructor.
Qed.

Hypothesis before_total : forall x y, before x y = false -> before y x = true.
Hypothesis before_trans :
  forall x y z, before x y = true -> before y z = true -> before x z = true.

Lemma insert_by_sorted x l :
  StronglySorted (fun a b => before a b = true) l ->
  StronglySorted (fun a b => before a b = true) (Db.insert_by before x l).
Proof.
  intros Hs. induction Hs as [|y l Hs IH Hy]; simpl.
  - repeat constructor.
  - destruct (before x y) eqn:E.
    + constructor; [now constructor|].
      constructor; [exact E|].
      eapply Forall_impl; [|exact Hy]. intros z Hz. now apply (before_trans x y z).
    + constructor; [exact IH|].
      eapply Permutation_Forall; [apply insert_by_perm|].
      constructor; [now apply before_total|exact Hy].
Qed.

Lemma order_by_sorted l :
  StronglySorted (fun a b => before a b = true) (Db.order_by before l).
Proof.
  induction l as [|x l IH]; simpl; [constructor|]. now apply insert_by_sorted.
Qed.
End OrderFacts.

Lemma string_leb_trans s1 s2 s3 :
  String.leb s1 s2 = true -> String.leb s2 s3 = true -> String.leb s1 s3 = true.
Proof.
  unfold String.leb. revert s2 s3.
  induction s1 as [|c1 s1 IH]; intros [|c2 s2] [|c3 s3]; simpl;
    try discriminate; try reflexivity.
  unfold Ascii.compare.
  destruct (N.compare_spec (Ascii.N_of_ascii c1) (Ascii.N_of_ascii c2)),
           (N.compare_spec (Ascii.N_of_ascii c2) (Ascii.N_of_ascii c3)),
           (N.compare_spec (Ascii.N_of_ascii c1) (Ascii.N_of_ascii c3));
    try lia; try discriminate; try reflexivity.
  apply IH.
Qed.

Lemma count_then_text_desc_total c1 t1 c2 t2 :
  Db.count_then_text_desc c1 t1 c2 t2 = false ->
  Db.count_then_text_desc c2 t2 c1 t1 = true.
Proof.
  unfold Db.count_then_text_desc. rewrite orb_false_iff, andb_false_iff.
  intros [Hlt Heq]. apply Nat.ltb_ge in Hlt.
  destruct (Nat.ltb_spec c1 c2) as [|Hge]; [reflexivity|]. simpl.
  assert (c1 = c2) by lia. subst c2. rewrite Nat.eqb_refl in *. simpl.
  destruct Heq as [Heq|Heq]; [discriminate|].
  destruct (String.leb_total t1 t2) as [H|H]; [exact H|congruence].
Qed.

Lemma count_then_text_desc_trans c1 t1 c2 t2 c3 t3 :
  Db.count_then_text_desc c1 t1 c2 t2 = true ->
  Db.count_then_text_desc c2 t2 c3 t3 = true ->
  Db.count_then_text_desc c1 t1 c3 t3 = true.
Proof.
  unfold Db.count_then_text_desc. rewrite !orb_true_iff, !andb_true_iff.
  rewrite !Nat.ltb_lt, !Nat.eqb_eq.
  intros [H1|[H1 L1]] [H2|[H2 L2]]; try (left; lia).
  right. split; [lia|]. eapply string_leb_trans; eassumption.
Qed.

Lemma count_then_text_desc_spec c1 t1 c2 t2 :
  Db.count_then_text_desc c1 t1 c2 t2 = true <->
  (c2 < c1)%nat \/ (c2 = c1 /\ String.leb t2 t1 = true).
Proof.
  unfold Db.count_then_text_desc.
  now rewrite orb_true_iff, andb_true_iff, Nat.ltb_lt, Nat.eqb_eq.
Qed.

(** With distinct keys every row opens a group of its own. *)
Lemma first_of_each_group_distinct {A K} (key : A -> K) (same : A -> A -> bool) l :
  (forall x y, same x y = true <-> key x = key y) ->
  forall seen,
    NoDup (map key l) ->
    (forall x, In x l -> ~ In (key x) (map key seen)) ->
    Db.first_of_each_group same seen l = l.
Proof.
  intros Hsame. induction l as [|x l IH]; intros seen Hnd Hfresh; simpl; [reflexivity|].
  inversion Hnd as [|? ? Hx Hnd']; subst.
  destruct (existsb (same x) seen) eqn:E.
  - exfalso. apply existsb_exists in E. destruct E as [y [Hy Hxy]].
    apply Hsame in Hxy. apply (Hfresh x (or_introl eq_refl)).
    rewrite Hxy. now apply in_map.
  - f_equal. apply IH; [exact Hnd'|].
    intros y Hy [Hin|Hin].
    + apply Hx. rewrite Hin. now apply in_map.
    + apply (Hfresh y (or_intror Hy)). exact Hin.
Qed.

Lemma filter_unique_key {A K} (key : A -> K) (eqb : K -> K -> bool) l x :
  (forall a b, eqb a b = true <-> a = b) ->
  NoDup (map key l) -> In x l ->
  filter (fun y => eqb (key y) (key x)) l = [x].
Proof.
  intros Heqb. induction l as [|y l IH]; intros Hnd Hin; [contradiction|]. simpl.
  inversion Hnd as [|? ? Hy Hnd']; subst.
  destruct Hin as [->|Hin].
  - rewrite (proj2 (Heqb _ _) eq_refl). f_equal.
    apply filter_none. destruct (existsb _ l) eqn:E; [|reflexivity].
    exfalso. apply existsb_exists in E. destruct E as [z [Hz Hk]].
    apply Heqb in Hk. apply Hy. rewrite <- Hk. now apply in_map.
  - destruct (eqb (key y) (key x)) eqn:E; [|now apply IH].
    exfalso. apply Heqb in E. apply Hy. rewrite E. now apply in_map.
Qed.

Lemma StronglySorted_weaken {A} (R R' : A -> A -> Prop) l :
  (forall x y, R x y -> R' x y) -> StronglySorted R l -> StronglySorted R' l.
Proof.
  intros Himp Hs. induction Hs as [|x l Hs IH Hx]; constructor; [exact IH|].
  eapply Forall_impl; [|exact Hx]. intros y. apply Himp.
Qed.

(** X10: when signal ids are distinct (the primary key),
    [get_all_signals_with_counts] returns one row per signal, carrying the
    number of associations of that signal (0 for a signal without any), and
    every row is followed only by rows with a smaller count, or with the
    same count and a date that is not later. *)
Theorem signals_with_counts_listed_and_ranked (db : DB) :
  NoDup (map s_id (signals db)) ->
  Permutation (Db.get_all_signals_with_counts db)
              (map (signal_count_row_of db) (signals db)) /\
  StronglySorted
    (fun x y =>
       (Db.sc_issue_count y < Db.sc_issue_count x)%nat \/
       (Db.sc_issue_count y = Db.sc_issue_count x /\
        String.leb (Db.sc_date y) (Db.sc_date x) = true))
    (Db.get_all_signals_with_counts db).
Proof.
  intros Hnd. unfold Db.get_all_signals_with_counts. split.
  - rewrite <- order_by_perm.
    rewrite (first_of_each_group_distinct s_id (fun x y => Z.eqb (s_id x) (s_id y)));
      [|intros x y; apply Z.eqb_eq|exact Hnd|intros x _ []].
    apply Permutation_refl'. apply map_ext_in. intros s Hs.
    unfold signal_count_row_of. f_equal.
    rewrite (filter_unique_key s_id Z.eqb (signals db) s Z.eqb_eq Hnd Hs).
    simpl. now rewrite app_nil_r.
  - eapply StronglySorted_weaken; [|apply order_by_sorted].
    + intros x y H. apply count_then_text_desc_spec in H. exact H.
    + intros x y. apply count_then_text_desc_total.
    + intros x y z. apply count_then_text_desc_trans.
Qed.

(** X11: when issue identifiers are distinct,
    [get_all_issues_with_counts] returns one row per issue, carrying the
    number of associations of its identifier (0 for an issue without any),
    and every row is followed only by rows with a smaller count, or with the
    same count and a creation time that is not later. *)
Theorem issues_with_counts_listed_and_ranked (db : DB) :
  NoDup (map i_identifier (issues db)) ->
  Permutation (Db.get_all_issues_with_counts db)
              (map (issue_count_row_of db) (issues db)) /\
  StronglySorted
    (fun x y =>
       (Db.ic_signal_count y < Db.ic_signal_count x)%nat \/
       (Db.ic_signal_count y = Db.ic_signal_count x /\
        String.leb (Db.ic_created_at y) (Db.ic_created_at x) = true))
    (Db.get_all_issues_with_counts db).
Proof.
  intros Hnd. unfold Db.get_all_issues_with_counts. split.
  - rewrite <- order_by_perm.
    rewrite (first_of_each_group_distinct i_identifier
               (fun x y => String.eqb (i_identifier x) (i_identifier y)));
      [|intros x y; apply String.eqb_eq|exact Hnd|intros x _ []].
    apply Permutation_refl'. apply map_ext_in. intros i Hi.
    unfold issue_count_row_of. f_equal.
    rewrite (filter_unique_key i_identifier String.eqb (issues db) i
               String.eqb_eq Hnd Hi).
    simpl. now rewrite app_nil_r.
  - eapply StronglySorted_weaken; [|apply order_by_sorted].
    + intros x y H. apply count_then_text_desc_spec in H. exact H.
    + intros x y. apply count_then_text_desc_total.
    + intros x y z. apply count_then_text_desc_trans.
Qed.

Example listing_db_signals :
  map (fun r => (Db.sc_id r, Db.sc_issue_count r, Db.sc_date r))
      (Db.get_all_signals_with_counts listing_db)
  = [(2%Z, 2%nat, "2024-01-02"%string); (3%Z, 1%nat, "2024-01-03"%string);
     (4%Z, 0%nat, "2024-02-01"%string); (1%Z, 0%nat, "2024-01-05"%string)].
Proof. vm_compute. reflexivity. Qed.

Example listing_db_issues :
  map (fun r => (Db.ic_identifier r, Db.ic_signal_count r))
      (Db.get_all_issues_with_counts listing_db)
  = [("ENG-2"%string, 2%nat); ("ENG-1"%string, 1%nat); ("ENG-3"%string, 0%nat)].
Proof. vm_compute. reflexivity. Qed.

(** The theorem at the listing store. *)
Lemma signals_with_counts_listed_and_ranked_witness :
  Permutation (Db.get_all_signals_with_counts listing_db)
              (map (signal_count_row_of listing_db) (signals listing_db)) /\
  StronglySorted
    (fun x y =>
       (Db.sc_issue_count y < Db.sc_issue_count x)%nat \/
       (Db.sc_issue_count y = Db.sc_issue_count x /\
        String.leb (Db.sc_date y) (Db.sc_date x) = true))
    (Db.get_all_signals_with_counts listing_db).
Proof.
  apply (signals_with_counts_listed_and_ranked listing_db).
  repeat constructor; simpl; intuition discriminate.
Defined.

(** The theorem at the listing store. *)
Lemma issues_with_counts_listed_and_ranked_witness :
  Permutation (Db.get_all_issues_with_counts listing_db)
              (map (issue_count_row_of listing_db) (issues listing_db)) /\
  StronglySorted
    (fun x y =>
       (Db.ic_signal_count y < Db.ic_signal_count x)%nat \/
       (Db.ic_signal_count y = Db.ic_signal_count x /\
        String.leb (Db.ic_created_at y) (Db.ic_created_at x) = true))
    (Db.get_all_issues_with_counts listing_db).
Proof.
  apply (issues_with_counts_listed_and_ranked listing_db).
  repeat constructor; simpl; intuition discriminate.
Defined.

(* ================================================================== *)
(** * The sample listing of the two scripts *)

Lemma StronglySorted_app_inv {A} (R : A -> A -> Prop) l1 l2 :
  StronglySorted R (l1 ++ l2) ->
  StronglySorted R l1 /\ forall x y, In x l1 -> In y l2 -> R x y.
Proof.
  induction l1 as [|a l1 IH]; simpl; intros Hs.
  - split; [constructor|]. intros x y [].
  - inversion Hs as [|? ? Hs' Ha]; subst. destruct (IH Hs') as [Hs1 Hcross].
    split.
    + constructor; [exact Hs1|]. apply Forall_app in Ha. tauto.
    + intros x y [<-|Hx] Hy.
      * rewrite Forall_forall in Ha. apply Ha. apply in_or_app. now right.
      * now apply Hcross.
Qed.

Lemma joined_sample_rows_score db r :
  In r (joined_sample_rows db) ->
  exists a, In a (associations db) /\ Local.sr_score r = a_score a.
Proof.
  unfold joined_sample_rows. rewrite in_flat_map. intros [a [Ha Hr]].
  apply in_flat_map in Hr. destruct Hr as [s [_ Hr]].
  apply in_map_iff in Hr. destruct Hr as [i [<- _]].
  exists a. split; [exact Ha|reflexivity].
Qed.

(** X12: when every stored score is a number, [print_sample_associations]
    with a limit [n >= 0] lists [min n m] of the [m] associations that have
    both their signal and their issue stored, in non-increasing order of
    score, and no association it leaves out has a higher score than one it
    lists; both scripts list the same rows. *)
Theorem sample_listing_shows_top_scores (db : DB) (limit : Z) :
  (forall a, In a (associations db) -> is_nan (a_score a) = false) ->
  (0 <= limit)%Z ->
  let shown := Local.print_sample_associations db limit in
  List.length shown = Nat.min (Z.to_nat limit) (List.length (joined_sample_rows db)) /\
  StronglySorted (fun x y => (Local.sr_score y <=? Local.sr_score x)%float = true) shown /\
  (exists rest,
     Permutation (shown ++ rest) (joined_sample_rows db) /\
     forall x y, In x shown -> In y rest ->
                 (Local.sr_score y <=? Local.sr_score x)%float = true) /\
  Chroma.print_sample_associations db limit = shown.
Proof.
  intros Hnan Hlimit shown.
  assert (Hsorted : StronglySorted (ranks_before Local.sr_score)
                      (Db.order_by_score_desc Local.sr_score (joined_sample_rows db))).
  { apply order_by_score_desc_sorted. apply Forall_forall. intros r Hr.
    destruct (joined_sample_rows_score db r Hr) as [a [Ha ->]]. now apply Hnan. }
  assert (Hshown : shown = firstn (Z.to_nat limit)
                     (Db.order_by_score_desc Local.sr_score (joined_sample_rows db))).
  { unfold shown, Local.print_sample_associations.
    destruct (Z.ltb_spec limit 0) as [Hneg|_]; [lia|reflexivity]. }
  set (sorted := Db.order_by_score_desc Local.sr_score (joined_sample_rows db)) in *.
  assert (Hsplit : sorted = shown ++ skipn (Z.to_nat limit) sorted)
    by (rewrite Hshown; symmetry; apply firstn_skipn).
  rewrite Hsplit in Hsorted. apply StronglySorted_app_inv in Hsorted.
  destruct Hsorted as [Hs Hcross].
  split; [|split; [exact Hs|split; [|reflexivity]]].
  - rewrite Hshown, length_firstn. unfold sorted.
    now rewrite <- (Permutation_length
                      (order_by_score_desc_perm Local.sr_score (joined_sample_rows db))).
  - exists (skipn (Z.to_nat limit) sorted). split; [|exact Hcross].
    rewrite <- Hsplit. unfold sorted. symmetry. apply order_by_score_desc_perm.
Qed.

(** The theorem at the listing store, with a limit of two. *)
Lemma sample_listing_shows_top_scores_witness :
  let shown := Local.print_sample_associations listing_db 2 in
  List.length shown = Nat.min 2 (List.length (joined_sample_rows listing_db)) /\
  StronglySorted (fun x y => (Local.sr_score y <=? Local.sr_score x)%float = true) shown /\
  (exists rest,
     Permutation (shown ++ rest) (joined_sample_rows listing_db) /\
     forall x y, In x shown -> In y rest ->
                 (Local.sr_score y <=? Local.sr_score x)%float = true) /\
  Chroma.print_sample_associations listing_db 2 = shown.
Proof.
  apply (sample_listing_shows_top_scores listing_db 2).
  - intros a [<-|[<-|[<-|[]]]]; reflexivity.
  - lia.
Defined.

Example listing_db_sample :
  map (fun r => (Local.sr_score r, Local.sr_identifier r))
      (Local.print_sample_associations listing_db 2)
  = [(0.75%float, "ENG-1"%string); (0.625%float, "ENG-2"%string)].
Proof. vm_compute. reflexivity. Qed.

(** After the two generators, with one vector per text, no signal and
    no issue is without an embedding. *)
Lemma generators_leave_nothing_missing
  (encode : list string -> list (list float)) (db : DB) :
  (forall texts, List.length (encode texts) = List.length texts) ->
  Local.signals_without_embeddings
    (Local.generate_issue_embeddings encode
       (Local.generate_signal_embeddings encode db)) = [] /\
  Local.issues_without_embeddings
    (Local.generate_issue_embeddings encode
       (Local.generate_signal_embeddings encode db)) = [].
Proof.
  intros Hlen.
  set (db1 := Local.generate_signal_embeddings encode db).
  set (db2 := Local.generate_issue_embeddings encode db1).
  destruct (generate_signal_embeddings_fills_missing encode db Hlen)
    as [_ [_ [Hnone1 _]]]. fold db1 in Hnone1.
  destruct (generate_issue_embeddings_fills_missing encode db1 Hlen)
    as [_ [_ [Hnone2 _]]]. fold db2 in Hnone2.
  destruct (generate_issue_embeddings_frame encode db1) as [Hs2 [_ [Hse2 _]]].
  fold db2 in Hs2, Hse2.
  split; [|exact Hnone2].
  rewrite (signals_without_embeddings_ext db1 db2 Hs2 Hse2). exact Hnone1.
Qed.

(* ================================================================== *)
(** * The two scripts end to end *)

Lemma local_run_frame format_2f db :
  signals (Local.run_associations format_2f db) = signals db /\
  issues (Local.run_associations format_2f db) = issues db /\
  signal_embeddings (Local.run_associations format_2f db) = signal_embeddings db /\
  issue_embeddings (Local.run_associations format_2f db) = issue_embeddings db.
Proof.
  destruct (local_run_cases format_2f db) as [->|[found [_ ->]]]; repeat split.
Qed.

Lemma chroma_run_frame format_2f db coll :
  signals (Chroma.run_associations format_2f db coll) = signals db /\
  issues (Chroma.run_associations format_2f db coll) = issues db /\
  signal_embeddings (Chroma.run_associations format_2f db coll) = signal_embeddings db /\
  issue_embeddings (Chroma.run_associations format_2f db coll) = issue_embeddings db.
Proof.
  destruct (chroma_run_cases format_2f db coll) as [->|[found [_ ->]]]; repeat split.
Qed.

(** X13: with one vector returned per text, the exhaustive script run
    from start to end a second time leaves the store exactly as the first
    run left it; and after a run every signal and every issue has an
    embedding. *)
Theorem local_main_idempotent
  (encode : list string -> list (list float)) (format_2f : float -> string) (db : DB) :
  (forall texts, List.length (encode texts) = List.length texts) ->
  let db' := Local.main encode format_2f db in
  Local.main encode format_2f db' = db' /\
  Local.signals_without_embeddings db' = [] /\
  Local.issues_without_embeddings db' = [].
Proof.
  intros Hlen db'. unfold db', Local.main.
  set (g := Local.generate_issue_embeddings encode
              (Local.generate_signal_embeddings encode db)).
  destruct (generators_leave_nothing_missing encode db Hlen) as [Hs0 Hi0].
  fold g in Hs0, Hi0.
  destruct (local_run_frame format_2f g) as [Hs [Hi [Hse Hie]]].
  assert (Hs1 : Local.signals_without_embeddings (Local.run_associations format_2f g) = [])
    by (rewrite (signals_without_embeddings_ext g _ Hs Hse); exact Hs0).
  assert (Hi1 : Local.issues_without_embeddings (Local.run_associations format_2f g) = [])
    by (rewrite (issues_without_embeddings_ext g _ Hi Hie); exact Hi0).
  split; [|split; assumption].
  rewrite (generate_signal_embeddings_nothing_missing encode _ Hs1).
  rewrite (generate_issue_embeddings_nothing_missing encode _ Hi1).
  apply local_run_idempotent.
Qed.

(** The theorem at the store without embeddings. *)
Lemma local_main_idempotent_witness :
  let db' := Local.main length_encode no_format unembedded_db in
  Local.main length_encode no_format db' = db' /\
  Local.signals_without_embeddings db' = [] /\
  Local.issues_without_embeddings db' = [].
Proof.
  apply (local_main_idempotent length_encode no_format unembedded_db).
  apply length_encode_length.
Defined.

Example local_main_on_unembedded_db :
  map (fun a => (a_signal_id a, a_issue_id a, a_score a))
      (associations (Local.main length_encode no_format unembedded_db))
  = [(2%Z, "ENG-1"%string, 1%float); (2%Z, "ENG-2"%string, 1%float)].
Proof. vm_compute. reflexivity. Qed.

(** X14: the indexed script run from start to end a second time, with
    the same encoder and index provider, leaves the store exactly as the
    first run left it. *)
Theorem chroma_main_idempotent
  (encode : list string -> list (list float)) (format_2f : float -> string)
  (build_index : list (string * list float) -> Chroma.collection) (db : DB) :
  let db' := Chroma.main encode format_2f build_index db in
  Chroma.main encode format_2f build_index db' = db'.
Proof.
  intros db'. unfold db', Chroma.main.
  set (db1 := Chroma.load_or_create_embeddings encode db).
  set (idx := Chroma.index_issues build_index db1).
  set (x := Chroma.run_associations format_2f db1 idx).
  destruct (chroma_run_frame format_2f db1 idx) as [Hs [Hi [Hse Hie]]].
  fold x in Hs, Hi, Hse, Hie.
  assert (Hload : Chroma.load_or_create_embeddings encode x = x).
  { destruct (load_or_create_embeddings_fields encode x)
      as [Hs1 [Hi1 [Ha1 [Htse1 Htie1]]]].
    destruct (load_or_create_embeddings_fields encode db)
      as [Hs0 [Hi0 [_ [Htse0 Htie0]]]].
    fold db1 in Hs0, Hi0, Htse0, Htie0.
    apply DB_ext; auto.
    - rewrite Htse1, Hse, Hs, Hs0, Htse0.
      apply (fill_signal_embeddings_stable encode (signals db) (signal_embeddings db)).
    - rewrite Htie1, Hie, Hi, Hi0, Htie0.
      apply (fill_issue_embeddings_stable encode (issues db) (issue_embeddings db)). }
  rewrite Hload.
  assert (Hidx : Chroma.index_issues build_index x = idx).
  { unfold idx, Chroma.index_issues. now rewrite Hi, Hie. }
  rewrite Hidx. apply chroma_run_idempotent.
Qed.

Example chroma_main_on_unembedded_db :
  map (fun a => (a_signal_id a, a_issue_id a, a_score a))
      (associations
         (Chroma.main length_encode no_format (fun _ => sample_collection) unembedded_db))
  = [(1%Z, "ENG-1"%string, 0x1.999999999999ap-1%float);
     (2%Z, "ENG-1"%string, 0x1.999999999999ap-1%float)].
Proof. vm_compute. reflexivity. Qed.

(* ================================================================== *)
(** * [INSERT OR REPLACE] on a keyed table *)

Section Upsert.
Context {A K : Type} (key : A -> K) (eqb : K -> K -> bool).
Hypothesis eqb_eq : forall a b, eqb a b = true <-> a = b.

Lemma eqb_neq a b : eqb a b = false <-> a <> b.
Proof.
  split.
  - intros H Hab. apply eqb_eq in Hab. congruence.
  - intros H. destruct (eqb a b) eqn:E; [|reflexivity].
    apply eqb_eq in E. contradiction.
Qed.

Lemma upsert_In tbl r x :
  In x (upsert key eqb tbl r) <-> (In x tbl /\ key x <> key r) \/ x = r.
Proof.
  unfold upsert. rewrite in_app_iff, filter_In, negb_true_iff, eqb_neq. simpl.
  intuition congruence.
Qed.

Lemma upsert_NoDup tbl r :
  NoDup (map key tbl) -> NoDup (map key (upsert key eqb tbl r)).
Proof.
  intros Hnd. unfold upsert. rewrite map_app. simpl. apply NoDup_app.
  - now apply NoDup_map_filter.
  - repeat constructor. intros [].
  - intros k Hin [<-|[]].
    apply in_map_iff in Hin. destruct Hin as [x [Hx Hin]].
    apply filter_In in Hin. destruct Hin as [_ Hne].
    apply negb_true_iff, eqb_neq in Hne. congruence.
Qed.

Lemma upsert_length tbl r :
  NoDup (map key tbl) ->
  List.length (upsert key eqb tbl r) =
  if existsb (fun x => eqb (key x) (key r)) tbl
  then List.length tbl else S (List.length tbl).
Proof.
  unfold upsert. rewrite length_app. simpl.
  induction tbl as [|x tbl IH]; intros Hnd; simpl; [reflexivity|].
  inversion Hnd as [|? ? Hx Hnd']; subst. specialize (IH Hnd').
  destruct (eqb (key x) (key r)) eqn:E; simpl.
  - apply eqb_eq in E.
    assert (Hnone : existsb (fun y => eqb (key y) (key r)) tbl = false).
    { destruct (existsb _ tbl) eqn:Ex; [|reflexivity]. exfalso.
      apply existsb_exists in Ex. destruct Ex as [y [Hy Hk]]. apply eqb_eq in Hk.
      apply Hx. rewrite E, <- Hk. now apply in_map. }
    rewrite Hnone in IH. lia.
  - destruct (existsb _ tbl); lia.
Qed.

Lemma upsert_all_NoDup rows : forall tbl,
  NoDup (map key tbl) -> NoDup (map key (fold_left (upsert key eqb) rows tbl)).
Proof.
  induction rows as [|r rows IH]; intros tbl Hnd; simpl; [exact Hnd|].
  apply IH. now apply upsert_NoDup.
Qed.

Lemma upsert_all_In rows : forall tbl x,
  In x (fold_left (upsert key eqb) rows tbl) -> In x tbl \/ In x rows.
Proof.
  induction rows as [|r rows IH]; intros tbl x Hin; simpl in *; [now left|].
  destruct (IH _ _ Hin) as [H|H]; [|now right; right].
  apply upsert_In in H. destruct H as [[H _]| ->]; [now left|right; now left].
Qed.

Lemma upsert_all_keeps rows : forall tbl x,
  In x tbl -> ~ In (key x) (map key rows) -> In x (fold_left (upsert key eqb) rows tbl).
Proof.
  induction rows as [|r rows IH]; intros tbl x Hin Hfresh; simpl; [exact Hin|].
  apply IH.
  - apply upsert_In. left. split; [exact Hin|].
    intros Heq. apply Hfresh. left. now symmetry.
  - intros H. apply Hfresh. now right.
Qed.

Lemma upsert_all_has_key rows : forall tbl r,
  In r rows ->
  exists r', In r' rows /\ key r' = key r /\ In r' (fold_left (upsert key eqb) rows tbl).
Proof.
  induction rows as [|r0 rows IH]; intros tbl r Hin; [contradiction|]. simpl.
  assert (Hlater : (exists r', In r' rows /\ key r' = key r) \/
                   ~ In (key r) (map key rows)).
  { destruct (in_dec (fun a b => match eqb a b as c return (eqb a b = c -> _) with
                                 | true => fun E => left (proj1 (eqb_eq a b) E)
                                 | false => fun E => right (proj1 (eqb_neq a b) E)
                                 end eq_refl)
                     (key r) (map key rows)) as [H|H]; [left|now right].
    apply in_map_iff in H. destruct H as [r' [Hk Hr']]. now exists r'. }
  destruct Hlater as [[r1 [Hr1 Hk1]]|Hfresh].
  - destruct (IH (upsert key eqb tbl r0) r1 Hr1) as [r' [Hr' [Hk' Hin']]].
    exists r'. split; [now right|]. split; [congruence|exact Hin'].
  - destruct Hin as [->|Hin].
    + exists r. split; [now left|]. split; [reflexivity|].
      apply upsert_all_keeps; [|exact Hfresh]. apply upsert_In. now right.
    + exfalso. apply Hfresh. now apply in_map.
Qed.

Lemma upsert_all_last_wins rows : forall tbl r,
  NoDup (map key rows) -> In r rows -> In r (fold_left (upsert key eqb) rows tbl).
Proof.
  induction rows as [|r0 rows IH]; intros tbl r Hnd Hin; [contradiction|]. simpl.
  inversion Hnd as [|? ? Hr0 Hnd']; subst.
  destruct Hin as [-> |Hin]; [|now apply IH].
  apply upsert_all_keeps; [|exact Hr0]. apply upsert_In. now right.
Qed.

Lemma find_by_key tbl x :
  NoDup (map key tbl) -> In x tbl ->
  find (fun y => eqb (key y) (key x)) tbl = Some x.
Proof.
  induction tbl as [|y tbl IH]; intros Hnd Hin; [contradiction|]. simpl.
  inversion Hnd as [|? ? Hy Hnd']; subst.
  destruct Hin as [->|Hin]; [now rewrite (proj2 (eqb_eq _ _) eq_refl)|].
  destruct (eqb (key y) (key x)) eqn:E; [|now apply IH].
  exfalso. apply eqb_eq in E. apply Hy. rewrite E. now apply in_map.
Qed.
End Upsert.

(* ================================================================== *)
(** * Importing signals *)

Section ImportFacts.
Variable json_dumps : list string -> string.

Lemma row_of_some s r :
  ImportSignals.row_of json_dumps s = Some r ->
  ImportSignals.missing_required_fields s = 0%nat /\
  ImportSignals.j_id s = Some (s_id r).
Proof.
  unfold ImportSignals.row_of, ImportSignals.missing_required_fields.
  destruct (ImportSignals.j_id s), (ImportSignals.j_summary s),
    (ImportSignals.j_context s), (ImportSignals.j_sentiment s),
    (ImportSignals.j_severity s), (ImportSignals.j_bias s),
    (ImportSignals.j_date s), (ImportSignals.j_boundary s),
    (ImportSignals.j_method s); try discriminate.
  intros H. injection H as <-. split; reflexivity.
Qed.

Lemma row_of_none s :
  ImportSignals.row_of json_dumps s = None ->
  ImportSignals.missing_required_fields s <> 0%nat.
Proof.
  unfold ImportSignals.row_of, ImportSignals.missing_required_fields.
  destruct (ImportSignals.j_id s), (ImportSignals.j_summary s),
    (ImportSignals.j_context s), (ImportSignals.j_sentiment s),
    (ImportSignals.j_severity s), (ImportSignals.j_bias s),
    (ImportSignals.j_date s), (ImportSignals.j_boundary s),
    (ImportSignals.j_method s); simpl; try discriminate; intros _; lia.
Qed.

Lemma row_of_without_id s :
  ImportSignals.j_id s = None -> ImportSignals.row_of json_dumps s = None.
Proof. unfold ImportSignals.row_of. now intros ->. Qed.

Lemma replace_signal_upsert tbl r :
  ImportSignals.replace_signal tbl r = upsert s_id Z.eqb tbl r.
Proof. reflexivity. Qed.

(** One pass of the loop, by whether the object is complete. *)
Lemma import_one_cases st s :
  match ImportSignals.row_of json_dumps s with
  | Some row =>
      ImportSignals.st_signals (ImportSignals.import_one json_dumps st s)
        = upsert s_id Z.eqb (ImportSignals.st_signals st) row /\
      ImportSignals.st_inserted (ImportSignals.import_one json_dumps st s)
        = (if existsb (fun r => Z.eqb (s_id r) (s_id row)) (ImportSignals.st_signals st)
           then ImportSignals.st_inserted st
           else S (ImportSignals.st_inserted st)) /\
      ImportSignals.st_updated (ImportSignals.import_one json_dumps st s)
        = (if existsb (fun r => Z.eqb (s_id r) (s_id row)) (ImportSignals.st_signals st)
           then S (ImportSignals.st_updated st)
           else ImportSignals.st_updated st)
  | None =>
      ImportSignals.st_signals (ImportSignals.import_one json_dumps st s)
        = ImportSignals.st_signals st /\
      ImportSignals.st_inserted (ImportSignals.import_one json_dumps st s)
        = ImportSignals.st_inserted st /\
      ImportSignals.st_updated (ImportSignals.import_one json_dumps st s)
        = ImportSignals.st_updated st
  end /\
  ImportSignals.st_errors (ImportSignals.import_one json_dumps st s)
    = (ImportSignals.st_errors st + errors_of s)%nat.
Proof.
  unfold ImportSignals.import_one, errors_of.
  destruct (ImportSignals.row_of json_dumps s) as [row|] eqn:Hrow.
  - destruct (row_of_some _ _ Hrow) as [Hzero Hid]. rewrite Hid, Hzero. simpl.
    repeat split; lia.
  - pose proof (row_of_none _ Hrow) as Hmiss.
    destruct (ImportSignals.j_id s); simpl;
      (repeat split;
       destruct (ImportSignals.missing_required_fields s); [contradiction|lia]).
Qed.

Lemma complete_rows_cons s batch :
  complete_rows json_dumps (s :: batch) =
  match ImportSignals.row_of json_dumps s with
  | Some r => [r]
  | None => []
  end ++ complete_rows json_dumps batch.
Proof. reflexivity. Qed.

Lemma import_fold batch : forall st,
  NoDup (map s_id (ImportSignals.st_signals st)) ->
  let st' := fold_left (ImportSignals.import_one json_dumps) batch st in
  ImportSignals.st_signals st'
    = fold_left (upsert s_id Z.eqb) (complete_rows json_dumps batch)
                (ImportSignals.st_signals st) /\
  (ImportSignals.st_inserted st' + ImportSignals.st_updated st'
   = ImportSignals.st_inserted st + ImportSignals.st_updated st
     + List.length (complete_rows json_dumps batch))%nat /\
  ImportSignals.st_errors st'
    = (ImportSignals.st_errors st + list_sum (map errors_of batch))%nat /\
  (List.length (ImportSignals.st_signals st') + ImportSignals.st_inserted st
   = List.length (ImportSignals.st_signals st) + ImportSignals.st_inserted st')%nat.
Proof.
  induction batch as [|s batch IH]; intros st Hnd.
  - cbn. repeat split; lia.
  - cbn zeta. cbn [fold_left].
    assert (Hsum : list_sum (map errors_of (s :: batch))
                   = (errors_of s + list_sum (map errors_of batch))%nat)
      by reflexivity.
    rewrite Hsum, complete_rows_cons.
    pose proof (import_one_cases st s) as [Hcase Herr].
    set (st1 := ImportSignals.import_one json_dumps st s) in *.
    assert (Hnd1 : NoDup (map s_id (ImportSignals.st_signals st1))).
    { destruct (ImportSignals.row_of json_dumps s) as [row|].
      - destruct Hcase as [-> _]. apply upsert_NoDup; [apply Z.eqb_eq|exact Hnd].
      - destruct Hcase as [-> _]. exact Hnd. }
    destruct (IH st1 Hnd1) as [Htbl [Hcnt [Herrs Hlen]]].
    destruct (ImportSignals.row_of json_dumps s) as [row|].
    + destruct Hcase as [Hs [Hi Hu]].
      pose proof (upsert_length s_id Z.eqb Z.eqb_eq (ImportSignals.st_signals st) row Hnd)
        as Hl.
      rewrite <- Hs in Hl. cbn [app fold_left List.length]. rewrite <- Hs.
      split; [exact Htbl|].
      destruct (existsb _ (ImportSignals.st_signals st)); repeat split; lia.
    + destruct Hcase as [Hs [Hi Hu]]. cbn [app]. rewrite <- Hs.
      split; [exact Htbl|]. repeat split; lia.
Qed.
End ImportFacts.



(** On the sample array: signal 1 is updated, signal 7 inserted, and the
    object that lacks two keys counts three errors. *)
Example import_sample_batch :
  let res := ImportSignals.import_signals sample_dumps
               (ImportSignals.SignalArray sample_batch) sample_db in
  ImportSignals.r_counts res = Some (1, 1, 3)%nat /\
  map (fun s => (s_id s, s_summary s)) (signals (ImportSignals.r_db res))
  = [(1%Z, "login fails on mobile"%string); (7%Z, "export is slow"%string)].
Proof. split; reflexivity. Qed.

Lemma filter_none_when {A} (f : A -> bool) (l : list A) :
  (forall x, In x l -> f x = false) -> filter f l = [].
Proof.
  induction l as [|x l IH]; intros H; simpl; [reflexivity|].
  rewrite (H x (or_introl eq_refl)). apply IH. intros y Hy. apply H. now right.
Qed.

(** X16: an import does not refresh embeddings.  After [import_signals]
    over a [signals] table with distinct ids, [generate_signal_embeddings]
    encodes only signals whose id had no embedding row before the import,
    and appends their rows; for an id that had one, the rows of
    [signal_embeddings] are those of before the import, also when the import
    replaced the text of that signal. *)
Theorem import_keeps_stored_embeddings
  (json_dumps : list string -> string)
  (encode : list string -> list (list float))
  (db : DB) (batch : list ImportSignals.json_signal) :
  NoDup (map s_id (signals db)) ->
  let db' := ImportSignals.r_db
               (ImportSignals.import_signals json_dumps
                  (ImportSignals.SignalArray batch) db) in
  let missing := Local.signals_without_embeddings db' in
  let db'' := Local.generate_signal_embeddings encode db' in
  (forall s, In s missing ->
     ~ has_signal_embedding (signal_embeddings db) (s_id s)) /\
  signal_embeddings db'' =
    signal_embeddings db ++
    map (fun r => {| se_signal_id := s_id (fst r); se_embedding := snd r;
                     se_model := MODEL_NAME |})
        (combine missing (encode (map signal_text missing))) /\
  (forall id, has_signal_embedding (signal_embeddings db) id ->
     filter (fun e => Z.eqb (se_signal_id e) id) (signal_embeddings db'')
     = filter (fun e => Z.eqb (se_signal_id e) id) (signal_embeddings db)).
Proof.
  intros Hnd db' missing db''.
  assert (Hnd' : NoDup (map s_id (signals db'))).
  { destruct (import_fold json_dumps batch
                {| ImportSignals.st_signals := signals db;
                   ImportSignals.st_inserted := 0;
                   ImportSignals.st_updated := 0;
                   ImportSignals.st_errors := 0 |} Hnd) as [Htbl _].
    change (signals db') with
      (ImportSignals.st_signals
         (fold_left (ImportSignals.import_one json_dumps) batch
            {| ImportSignals.st_signals := signals db;
               ImportSignals.st_inserted := 0;
               ImportSignals.st_updated := 0;
               ImportSignals.st_errors := 0 |})).
    rewrite Htbl. apply upsert_all_NoDup; [apply Z.eqb_eq|exact Hnd]. }
  assert (Hmiss : forall s, In s missing ->
            ~ has_signal_embedding (signal_embeddings db) (s_id s)).
  { intros s Hs. apply signals_without_embeddings_In in Hs. exact (proj2 Hs). }
  assert (Htbl : signal_embeddings db'' =
    signal_embeddings db ++
    map (fun r => {| se_signal_id := s_id (fst r); se_embedding := snd r;
                     se_model := MODEL_NAME |})
        (combine missing (encode (map signal_text missing)))).
  { unfold db''. rewrite generate_signal_embeddings_table.
    change (signal_embeddings db') with (signal_embeddings db).
    apply store_signal_embeddings_appends.
    - apply NoDup_map_combine_l. unfold missing, Local.signals_without_embeddings.
      now apply NoDup_map_filter.
    - intros [s v] Hr Hin. simpl in Hin. apply in_combine_l in Hr.
      apply (Hmiss s Hr). apply in_map_iff in Hin. destruct Hin as [e [He Hin]].
      exists e. split; assumption. }
  split; [exact Hmiss|]. split; [exact Htbl|].
  intros id Hid. rewrite Htbl, filter_app.
  rewrite (filter_none_when _ (map _ _)); [now rewrite app_nil_r|].
  intros e He. apply in_map_iff in He. destruct He as [[s v] [<- Hr]]. simpl.
  apply in_combine_l in Hr. apply Z.eqb_neq. intros Heq.
  apply (Hmiss s Hr). now rewrite Heq.
Qed.

(** The theorem at the sample store, whose signal 1 is embedded, and the
    sample array, which changes the text of signal 1. *)
Lemma import_keeps_stored_embeddings_witness :
  let db' := ImportSignals.r_db
               (ImportSignals.import_signals sample_dumps
                  (ImportSignals.SignalArray sample_batch) sample_db) in
  let missing := Local.signals_without_embeddings db' in
  let db'' := Local.generate_signal_embeddings sample_encode db' in
  (forall s, In s missing ->
     ~ has_signal_embedding (signal_embeddings sample_db) (s_id s)) /\
  signal_embeddings db'' =
    signal_embeddings sample_db ++
    map (fun r => {| se_signal_id := s_id (fst r); se_embedding := snd r;
                     se_model := MODEL_NAME |})
        (combine missing (sample_encode (map signal_text missing))) /\
  (forall id, has_signal_embedding (signal_embeddings sample_db) id ->
     filter (fun e => Z.eqb (se_signal_id e) id) (signal_embeddings db'')
     = filter (fun e => Z.eqb (se_signal_id e) id) (signal_embeddings sample_db)).
Proof.
  apply (import_keeps_stored_embeddings sample_dumps sample_encode sample_db sample_batch).
  simpl. repeat constructor. intros [].
Defined.

(** On the sample array only the new signal 7 is encoded; signal 1 keeps
    the vector of its former text. *)
Example import_then_generate_sample :
  let db' := ImportSignals.r_db
               (ImportSignals.import_signals sample_dumps
                  (ImportSignals.SignalArray sample_batch) sample_db) in
  map s_id (Local.signals_without_embeddings db') = [7%Z] /\
  map se_signal_id
      (signal_embeddings (Local.generate_signal_embeddings sample_encode db'))
  = [1%Z; 7%Z].
Proof. split; reflexivity. Qed.

(* ================================================================== *)
(** * Storing fetched issues *)

Section FetchFacts.
Variable json_dumps : list string -> string.

Lemma string_eqb_eq (a b : string) : String.eqb a b = true <-> a = b.
Proof. apply String.eqb_eq. Qed.

Lemma insert_issues_fold (batch : list FetchLinear.linear_issue) : forall tbl,
  fold_left (fun t i => FetchLinear.replace_issue t (FetchLinear.row_of json_dumps i))
            batch tbl
  = fold_left (upsert i_id String.eqb) (map (FetchLinear.row_of json_dumps) batch) tbl.
Proof.
  induction batch as [|i batch IH]; intros tbl; simpl; [reflexivity|].
  now rewrite IH.
Qed.

Lemma row_of_ids (batch : list FetchLinear.linear_issue) :
  map i_id (map (FetchLinear.row_of json_dumps) batch) = map FetchLinear.l_id batch.
Proof. rewrite map_map. reflexivity. Qed.
End FetchFacts.

Lemma upsert_all_length_le {A K} (key : A -> K) (eqb : K -> K -> bool)
  (rows : list A) : forall tbl,
  (List.length (fold_left (upsert key eqb) rows tbl)
   <= List.length tbl + List.length rows)%nat.
Proof.
  induction rows as [|r rows IH]; intros tbl; simpl; [lia|].
  specialize (IH (upsert key eqb tbl r)).
  assert (Hle : (List.length (upsert key eqb tbl r) <= S (List.length tbl))%nat).
  { unfold upsert. rewrite length_app. simpl.
    pose proof (filter_length_le (fun x => negb (eqb (key x) (key r))) tbl). lia. }
  lia.
Qed.

(** X17: [insert_issues_to_db], over an [issues] table with distinct ids,
    upserts by [id].  Ids stay distinct; every row afterwards is a row of
    before or the row of a fetched node; for every fetched node the table
    holds the row of a fetched node with that id, and the row of the node
    itself when the fetched ids are distinct; a stored row whose id was not
    fetched is untouched.  The count it prints is the number of fetched
    nodes, replaced rows included, so the table grows by at most that
    count.  The other tables, [issue_embeddings] among them, are not
    written. *)
Theorem insert_issues_to_db_upserts_by_id
  (json_dumps : list string -> string) (db : DB)
  (batch : list FetchLinear.linear_issue) :
  NoDup (map i_id (issues db)) ->
  let db' := fst (FetchLinear.insert_issues_to_db json_dumps db batch) in
  let inserted_count := snd (FetchLinear.insert_issues_to_db json_dumps db batch) in
  let row_of := FetchLinear.row_of json_dumps in
  inserted_count = List.length batch /\
  (List.length (issues db') <= List.length (issues db) + inserted_count)%nat /\
  NoDup (map i_id (issues db')) /\
  (forall r, In r (issues db') -> In r (issues db) \/ In r (map row_of batch)) /\
  (forall node, In node batch ->
     exists node', In node' batch /\
                   FetchLinear.l_id node' = FetchLinear.l_id node /\
                   In (row_of node') (issues db')) /\
  (NoDup (map FetchLinear.l_id batch) ->
   forall node, In node batch -> In (row_of node) (issues db')) /\
  (forall r, In r (issues db) -> ~ In (i_id r) (map FetchLinear.l_id batch) ->
     In r (issues db')) /\
  signals db' = signals db /\
  signal_embeddings db' = signal_embeddings db /\
  issue_embeddings db' = issue_embeddings db /\
  associations db' = associations db.
Proof.
  intros Hnd db' inserted_count row_of.
  assert (Htbl : issues db' = fold_left (upsert i_id String.eqb) (map row_of batch)
                                        (issues db)).
  { unfold db', FetchLinear.insert_issues_to_db. cbn [fst issues].
    apply insert_issues_fold. }
  split; [reflexivity|].
  split.
  { rewrite Htbl. unfold inserted_count. cbn [snd FetchLinear.insert_issues_to_db].
    rewrite <- (length_map row_of batch). apply upsert_all_length_le. }
  split. { rewrite Htbl. apply upsert_all_NoDup; [apply string_eqb_eq|exact Hnd]. }
  split.
  { intros r Hin. rewrite Htbl in Hin.
    exact (upsert_all_In i_id String.eqb string_eqb_eq _ _ r Hin). }
  split.
  { intros node Hin.
    destruct (upsert_all_has_key i_id String.eqb string_eqb_eq (map row_of batch)
                (issues db) (row_of node) (in_map row_of _ _ Hin))
      as [r' [Hr' [Hk Hin']]].
    apply in_map_iff in Hr'. destruct Hr' as [node' [<- Hnode']].
    exists node'. split; [exact Hnode'|]. split; [exact Hk|].
    rewrite Htbl. exact Hin'. }
  split.
  { intros Hids node Hin. rewrite Htbl.
    apply (upsert_all_last_wins i_id String.eqb string_eqb_eq).
    - unfold row_of. rewrite row_of_ids. exact Hids.
    - now apply in_map. }
  split.
  { intros r Hin Hfresh. rewrite Htbl.
    apply (upsert_all_keeps i_id String.eqb string_eqb_eq); [exact Hin|].
    unfold row_of. rewrite row_of_ids. exact Hfresh. }
  repeat split.
Qed.

(** The theorem at the sample store and the sample fetch. *)
Lemma insert_issues_to_db_upserts_by_id_witness :
  let db' := fst (FetchLinear.insert_issues_to_db sample_dumps sample_db sample_nodes) in
  let inserted_count :=
    snd (FetchLinear.insert_issues_to_db sample_dumps sample_db sample_nodes) in
  let row_of := FetchLinear.row_of sample_dumps in
  inserted_count = List.length sample_nodes /\
  (List.length (issues db') <= List.length (issues sample_db) + inserted_count)%nat /\
  NoDup (map i_id (issues db')) /\
  (forall r, In r (issues db') ->
     In r (issues sample_db) \/ In r (map row_of sample_nodes)) /\
  (forall node, In node sample_nodes ->
     exists node', In node' sample_nodes /\
                   FetchLinear.l_id node' = FetchLinear.l_id node /\
                   In (row_of node') (issues db')) /\
  (NoDup (map FetchLinear.l_id sample_nodes) ->
   forall node, In node sample_nodes -> In (row_of node) (issues db')) /\
  (forall r, In r (issues sample_db) ->
     ~ In (i_id r) (map FetchLinear.l_id sample_nodes) -> In r (issues db')) /\
  signals db' = signals sample_db /\
  signal_embeddings db' = signal_embeddings sample_db /\
  issue_embeddings db' = issue_embeddings sample_db /\
  associations db' = associations sample_db.
Proof.
  apply (insert_issues_to_db_upserts_by_id sample_dumps sample_db sample_nodes).
  simpl. repeat constructor; simpl; intuition discriminate.
Defined.

(** On the sample fetch the count is 2 and the table grows by one row;
    the node without labels stores no [labels] value. *)
Example insert_sample_nodes :
  let res := FetchLinear.insert_issues_to_db sample_dumps sample_db sample_nodes in
  snd res = 2%nat /\
  map (fun i => (i_id i, i_title i, i_labels i)) (issues (fst res))
  = [("ENG-2"%string, "Dark mode"%string, None);
     ("ENG-1"%string, "Login button dead on mobile"%string, Some "bug"%string);
     ("ENG-9"%string, "Export to CSV"%string, None)].
Proof. split; reflexivity. Qed.

(* ================================================================== *)
(** * The first load of signals *)

Section LoadFacts.
Variable json_dumps : list string -> string.




End LoadFacts.



(** The first load takes the array of new signals and refuses the sample
    array, which repeats the stored id 1 and holds an incomplete object. *)
Example load_sample_batches :
  option_map (fun d => map s_id (signals d))
             (ImportSignals.load_signals sample_dumps sample_db clean_batch)
  = Some [1%Z; 7%Z; 8%Z] /\
  ImportSignals.load_signals sample_dumps sample_db sample_batch = None.
Proof. split; reflexivity. Qed.

(* ================================================================== *)
(** * From a list page to a detail page *)

Lemma unique_pairs_tail x tbl : unique_pairs (x :: tbl) -> unique_pairs tbl.
Proof.
  intros H s i. specialize (H s i). simpl in H.
  destruct (same_pair s i x); simpl in H; lia.
Qed.

Lemma unique_pairs_find tbl a :
  unique_pairs tbl -> In a tbl ->
  find (same_pair (a_signal_id a) (a_issue_id a)) tbl = Some a.
Proof.
  induction tbl as [|x tbl IH]; intros Huniq Hin; [contradiction|]. simpl.
  destruct (same_pair (a_signal_id a) (a_issue_id a) x) eqn:Hx.
  - destruct Hin as [->|Hin]; [reflexivity|]. exfalso.
    specialize (Huniq (a_signal_id a) (a_issue_id a)). simpl in Huniq.
    rewrite Hx in Huniq. simpl in Huniq.
    assert (Hin' : In a (filter (same_pair (a_signal_id a) (a_issue_id a)) tbl)).
    { apply filter_In. split; [exact Hin|]. now apply same_pair_true. }
    destruct (filter _ tbl); [contradiction|]. simpl in Huniq. lia.
  - destruct Hin as [->|Hin].
    + assert (Ht : same_pair (a_signal_id a) (a_issue_id a) a = true)
        by now apply same_pair_true.
      congruence.
    + apply IH; [exact (unique_pairs_tail _ _ Huniq)|exact Hin].
Qed.


(** X20: every issue that the page of a signal's issues lists can be
    opened.  When issue identifiers are distinct and no pair is stored
    twice, for each row of [signal_issues_list] the route
    [signal_issue_detail] at that signal and that issue's identifier answers
    a page, not 404, with the same signal, the issue of the row, and a
    stored association whose score, reason and method are those the row
    shows. *)
Theorem listed_issue_opens_with_its_association
  (db : DB) (signal_id : Z) (signal : signal)
  (hits : list Db.issue_hit) (h : Db.issue_hit) :
  NoDup (map i_identifier (issues db)) ->
  unique_pairs (associations db) ->
  Main.signal_issues_list db signal_id = Main.Page (signal, hits) ->
  In h hits ->
  exists a,
    Main.signal_issue_detail db signal_id (i_identifier (Db.ih_issue h))
    = Main.Page (Db.ih_issue h, signal, Some a) /\
    In a (associations db) /\
    a_score a = Db.ih_score h /\
    a_reason a = Db.ih_reason h /\
    a_method a = Db.ih_method h.
Proof.
  intros Hnd Huniq Hpage Hin. unfold Main.signal_issues_list in Hpage.
  destruct (Db.get_signal_by_id db signal_id) as [s|] eqn:Hs; [|discriminate].
  injection Hpage as <- <-.
  apply get_issues_for_signal_In in Hin.
  destruct Hin as [a [Ha [Hi [Hiid [Hsid [_ [Hsc [Hr Hm]]]]]]]].
  exists a. unfold Main.signal_issue_detail. rewrite Hs.
  assert (Hissue : Db.get_issue_by_id db (i_identifier (Db.ih_issue h))
                   = Some (Db.ih_issue h)).
  { unfold Db.get_issue_by_id.
    now apply (find_by_key i_identifier String.eqb String.eqb_eq). }
  assert (Hassoc : Db.get_association db signal_id (i_identifier (Db.ih_issue h))
                   = Some a).
  { unfold Db.get_association. rewrite <- Hsid, <- Hiid.
    now apply unique_pairs_find. }
  rewrite Hissue, Hassoc. repeat split; try exact Ha; now symmetry.
Qed.


(** The theorem at the same store, from the signal's side. *)
Lemma listed_issue_opens_with_its_association_witness :
  let db := Local.run_associations no_format sample_db in
  exists a,
    Main.signal_issue_detail db 1 (i_identifier (Db.ih_issue sample_issue_hit))
    = Main.Page (Db.ih_issue sample_issue_hit,
                 sample_signal 1 "login fails", Some a) /\
    In a (associations db) /\
    a_score a = Db.ih_score sample_issue_hit /\
    a_reason a = Db.ih_reason sample_issue_hit /\
    a_method a = Db.ih_method sample_issue_hit.
Proof.
  intros db.
  apply (listed_issue_opens_with_its_association db 1
           (sample_signal 1 "login fails")
           [sample_issue_hit] sample_issue_hit).
  - simpl. repeat constructor; simpl; intuition discriminate.
  - intros s i. vm_compute associations. simpl.
    destruct (same_pair s i _); simpl; lia.
  - vm_compute. reflexivity.
  - now left.
Defined.
